(** * vermouth: bond inference ([make_bonds.py]) and Go virtual sites
    ([go_vs_includes.py])

  A shallow embedding of the two processors and of the part of the
  molecular graph model they touch, followed by the reader of mapping
  files ([entry_api.py]) and the repository of force fields
  ([forcefield.py]).

  - Python floats are IEEE binary64 numbers: they are embedded as Rocq's
    primitive floats, so that [0.5 * (r1 + r2)] and [dist <= d * fudge]
    evaluate exactly as they do in the interpreter.
  - A node attribute dictionary is an open mapping; it is embedded as a
    record of optional fields, one per key the processors read or write
    ([None] is an absent key).
  - networkx keeps nodes and edges in insertion-ordered dictionaries; they
    are association lists here, because the enumeration order of the nodes
    decides which index a node gets in the spatial query.
  - A position is a numpy array held by reference: the attribute stores a
    location, a [Store] maps locations to coordinates.
  - Functions that mutate their argument and may raise are computations in
    a state-and-exception monad whose state survives a raise, as in-place
    mutations done before a Python exception do.
  - A text file is the list of the lines its iteration yields, and a
    string is a string of code points below 256.
  - The file system and the parsers of force field files are not part of
    the sources: they are variables of the section that embeds
    [forcefield.py]. *)

From Stdlib Require Import PrimFloat List ZArith Ascii String DecimalString.
From Stdlib Require Import Bool Arith Lia.
Import ListNotations.

Set Warnings "-inexact-float".
Set Implicit Arguments.

Local Open Scope Z_scope.
Local Open Scope string_scope.
Local Open Scope list_scope.

(* ================================================================== *)
(** ** Python runtime: exceptions, in-place state, dictionaries *)
(* ================================================================== *)

Module Py.

Inductive exn : Type :=
| KeyError (msg : string)
| NameError (name : string)
| ValueError (msg : string)
| AttributeError (attr : string).

Inductive outcome (A : Type) : Type :=
| Return (a : A)
| Raise (e : exn).
Arguments Return {A} a.
Arguments Raise {A} e.

(** A computation over a mutable state [S]: the state is returned in
    both outcomes. *)
Definition M (S A : Type) : Type := S -> outcome A * S.

Definition ret {S A} (a : A) : M S A := fun s => (Return a, s).
Definition raise {S A} (e : exn) : M S A := fun s => (Raise e, s).
Definition bind {S A B} (c : M S A) (k : A -> M S B) : M S B :=
  fun s => match c s with
           | (Return a, s') => k a s'
           | (Raise e, s') => (Raise e, s')
           end.
Definition get {S} : M S S := fun s => (Return s, s).
Definition modify {S} (f : S -> S) : M S unit := fun s => (Return tt, f s).

(** [d[k]] on a value that may be missing: [KeyError] when it is. *)
Definition subscript {S A} (what : string) (o : option A) : M S A :=
  match o with
  | Some a => ret a
  | None => raise (KeyError what)
  end.

(** [for x in xs: body(x)]; a raise leaves the loop. *)
Fixpoint for_each {S A} (xs : list A) (body : A -> M S unit) : M S unit :=
  match xs with
  | [] => ret tt
  | x :: xs' => bind (body x) (fun _ => for_each xs' body)
  end.

(** [try: c  except KeyError as error: handler(error)]: any other
    exception passes through. *)
Definition try_except_KeyError {S A} (c : M S A) (handler : string -> M S A)
  : M S A :=
  fun s => match c s with
           | (Raise (KeyError msg), s') => handler msg s'
           | r => r
           end.

Definition state_after {S A} (r : outcome A * S) : S := snd r.
Definition returned {S A} (r : outcome A * S) : bool :=
  match fst r with Return _ => true | Raise _ => false end.

End Py.

Import Py.

Declare Scope py_scope.
Delimit Scope py_scope with py.
Notation "x <- c ;; k" := (bind c (fun x => k))
(at level 61, c at next level, right associativity) : py_scope.
Notation "c ;;; k" := (bind c (fun _ => k))
(at level 61, right associativity) : py_scope.

(** Equality tests on optional attribute values ([==] on values that may
  be [None]). *)
Definition option_eqb {A} (eqb : A -> A -> bool) (x y : option A) : bool :=
match x, y with
| Some a, Some b => eqb a b
| None, None => true
| _, _ => false
end.

(* ================================================================== *)
(** ** The molecular graph model *)
(* ================================================================== *)

(** Three coordinates of a position array. *)
Definition vec3 : Type := (float * float * float)%type.

(** A reference to a position array, and the memory holding the arrays. *)
Definition loc : Type := nat.
Definition Store : Type := loc -> vec3.

(** The attribute dictionary of a node, restricted to the keys read or
  written by the processors. *)
Record Atom : Type := mkAtom {
element : option string;
atomname : option string;
resname : option string;
resid : option Z;
chain : option string;
mol_idx : option nat;
position : option loc;
charge_group : option Z;
atype : option string;
charge : option Z
}.

(** The attribute dictionary [{}] of a node created without attributes. *)
Definition no_attrs : Atom :=
mkAtom None None None None None None None None None None.

Inductive MetaValue : Type :=
| MBool (b : bool)
| MStr (s : string).

Record Interaction : Type := mkInteraction {
atoms : list Z;
parameters : list string;
imeta : list (string * MetaValue)
}.

(** [molecule.meta], restricted to the keys the processors use. *)
Record Meta : Type := mkMeta {
moltype : option string;
post_section_lines : option (list (string * list string))
}.

(** A [Molecule] is a [networkx.Graph] with metadata and interactions. An
  edge carries its attribute ['distance'] when it has one. *)
Record Molecule : Type := mkMolecule {
nodes : list (Z * Atom);
edges : list ((Z * Z) * option float);
meta : Meta;
interactions : list (string * list Interaction)
}.

Module Graph.

Fixpoint assoc {A} (k : Z) (l : list (Z * A)) : option A :=
  match l with
  | [] => None
  | (k', a) :: l' => if Z.eqb k k' then Some a else assoc k l'
  end.

(** [list(graph)]: the node keys in insertion order. *)
Definition node_ids (g : Molecule) : list Z := map fst (nodes g).

(** [n in graph]. *)
Definition has_node (g : Molecule) (n : Z) : bool :=
  existsb (Z.eqb n) (node_ids g).

(** [graph.nodes[n]] as an option; the subscript raises on [None]. *)
Definition node (g : Molecule) (n : Z) : option Atom := assoc n (nodes g).

(** Equality of the unordered pairs [{u, v}] and [{a, b}]. *)
Definition same_pair (u v a b : Z) : bool :=
  (Z.eqb u a && Z.eqb v b) || (Z.eqb u b && Z.eqb v a).

(** [graph.has_edge(u, v)]. *)
Definition has_edge (g : Molecule) (u v : Z) : bool :=
  existsb (fun e => same_pair (fst (fst e)) (snd (fst e)) u v) (edges g).

Definition set_edges (g : Molecule) (es : list ((Z * Z) * option float))
  : Molecule :=
  mkMolecule (nodes g) es (meta g) (interactions g).

Definition set_nodes (g : Molecule) (ns : list (Z * Atom)) : Molecule :=
  mkMolecule ns (edges g) (meta g) (interactions g).

(** [graph.add_node(n)] for a key that may exist already. *)
Definition touch_node (g : Molecule) (n : Z) : Molecule :=
  if has_node g n then g else set_nodes g (nodes g ++ [(n, no_attrs)]).

Fixpoint update_edge (es : list ((Z * Z) * option float)) (u v : Z)
         (d : float) : list ((Z * Z) * option float) :=
  match es with
  | [] => []
  | (((a, b), x) as e) :: es' =>
      if same_pair a b u v then ((a, b), Some d) :: update_edge es' u v d
      else e :: update_edge es' u v d
  end.

(** [graph.add_edge(u, v, distance=d)]: missing end points are created,
    an existing edge has its attribute overwritten. *)
Definition add_edge (g : Molecule) (u v : Z) (d : float) : Molecule :=
  let g1 := touch_node (touch_node g u) v in
  if has_edge g1 u v then set_edges g1 (update_edge (edges g1) u v d)
  else set_edges g1 (edges g1 ++ [((u, v), Some d)]).

End Graph.

(* ================================================================== *)
(** ** make_bonds.py *)
(* ================================================================== *)

Module make_bonds.

Import Graph.

(** *** Residue keys and residue groups *)

Definition ResidueKey : Type :=
  (option nat * option string * option Z * option string)%type.

(** [tuple(node.get(attr) for attr in ('mol_idx','chain','resid','resname'))] *)
Definition _residue_key_func (node : Atom) : ResidueKey :=
  (mol_idx node, chain node, resid node, resname node).

Definition key_eqb (k1 k2 : ResidueKey) : bool :=
  let '(m1, c1, i1, n1) := k1 in
  let '(m2, c2, i2, n2) := k2 in
  option_eqb Nat.eqb m1 m2 && option_eqb String.eqb c1 c2
  && option_eqb Z.eqb i1 i2 && option_eqb String.eqb n1 n2.

(** [residues[key].add(node_idx)] on a [defaultdict(set)] whose keys keep
    their insertion order. *)
Fixpoint group_add (residues : list (ResidueKey * list Z))
         (key : ResidueKey) (node_idx : Z) : list (ResidueKey * list Z) :=
  match residues with
  | [] => [(key, [node_idx])]
  | (k, s) :: rest =>
      if key_eqb key k
      then (k, if existsb (Z.eqb node_idx) s then s else s ++ [node_idx]) :: rest
      else (k, s) :: group_add rest key node_idx
  end.

(** [for node_idx in todo: key = ...; residues[key].add(node_idx)].
    [graph.nodes[node_idx]] cannot fail on a key produced by iterating
    the graph. *)
Definition collect_from (graph : Molecule) (todo : list Z)
           (residues : list (ResidueKey * list Z))
  : list (ResidueKey * list Z) :=
  fold_left
    (fun residues node_idx =>
       match node graph node_idx with
       | Some atom => group_add residues (_residue_key_func atom) node_idx
       | None => residues
       end)
    todo residues.

Definition _collect_residues (graph : Molecule)
  : list (ResidueKey * list Z) :=
  collect_from graph (node_ids graph) [].

(** Every member of a group is a node whose key is the key of the group,
    and no key heads two groups. *)
Definition groups_ok (graph : Molecule)
           (residues : list (ResidueKey * list Z)) : Prop :=
  NoDup (map fst residues) /\
  forall k s x, In (k, s) residues -> In x s ->
                exists a, node graph x = Some a /\ _residue_key_func a = k.

(** Two nodes are grouped together when one group holds both. *)
Definition same_group (residues : list (ResidueKey * list Z)) (i j : Z)
  : Prop :=
  exists key idxs, In (key, idxs) residues /\ In i idxs /\ In j idxs.

(** *** Logging *)

(** What [LOGGER] is asked to emit; the state of a run is the molecule
  being mutated together with the records emitted so far. *)
Inductive LogRecord : Type :=
| Debug_guessed_bond (node_idx1 node_idx2 : Z)
| Warning_no_name_bonds (chain : option string) (resname : option string)
                        (resid : option Z) (error : string)
                        (falling_back : bool)
| Info_molecules (count : nat).

Definition World : Type := (Molecule * list LogRecord)%type.

Definition the_graph : M World Molecule := fun w => (Return (fst w), w).
Definition mutate (f : Molecule -> Molecule) : M World unit :=
modify (fun w : World => (f (fst w), snd w)).
Definition emit (r : LogRecord) : M World unit :=
modify (fun w : World => (fst w, snd w ++ [r])).

(** *** Radii *)

Local Open Scope float_scope.

Definition VDW_RADII : list (string * float) :=
[ ("H", 0.120); ("He", 0.140); ("C", 0.170); ("N", 0.155); ("O", 0.152);
  ("F", 0.147); ("Ne", 0.154); ("Si", 0.210); ("P", 0.180); ("S", 0.180);
  ("Cl", 0.175); ("Ar", 0.188); ("As", 0.185); ("Se", 1.90); ("Br", 0.185);
  ("Kr", 0.202); ("Te", 0.206); ("I", 0.198); ("Xe", 0.216) ].

Fixpoint radius_in (table : list (string * float)) (el : string)
: option float :=
match table with
| [] => None
| (k, r) :: rest => if String.eqb el k then Some r else radius_in rest el
end.

(** [VDW_RADII.get(element)]. *)
Definition radius (el : string) : option float := radius_in VDW_RADII el.

(** [node.get('element') in VDW_RADII]: an absent element is [None], which
  is no key of the table. *)
Definition known_element (atom : Atom) : bool :=
match element atom with
| Some el => match radius el with Some _ => true | None => false end
| None => false
end.

(** [max(xs)] on a non-empty sequence: the running maximum is replaced
  by an item that compares greater. *)
Definition py_max (first : float) (others : list float) : float :=
fold_left (fun best x => if PrimFloat.ltb best x then x else best) others first.

(** [max(VDW_RADII.values())]; the table is not empty. *)
Definition max_radius : float :=
match map snd VDW_RADII with
| [] => nan
| r :: rs => py_max r rs
end.

(** *** Distances and the spatial index *)

(** [np.sqrt(np.sum((pos1 - pos2)**2))]. *)
Definition distance (p q : vec3) : float :=
let '(x1, y1, z1) := p in
let '(x2, y2, z2) := q in
sqrt ((x1 - x2) * (x1 - x2) + (y1 - y2) * (y1 - y2) + (z1 - z2) * (z1 - z2)).

Definition enumerate {A} (l : list A) : list (nat * A) :=
combine (seq 0 (List.length l)) l.

(** Modelled from the spec: the spatial index [KDTree] (imported from the
  package root, which is not among the sources). It is built once from an
  ordered position sequence and answers the self-query for all pairs
  within a radius, returning each index pair with its distance. The
  query of the index against itself holds every ordered pair, the
  diagonal included, whose distance does not exceed [max_distance]. *)
Definition sparse_distance_matrix (positions : list vec3)
         (max_distance : float) : list ((nat * nat) * float) :=
flat_map
  (fun ip : nat * vec3 =>
     flat_map
       (fun jq : nat * vec3 =>
          let d := distance (snd ip) (snd jq) in
          if PrimFloat.leb d max_distance then [((fst ip, fst jq), d)] else [])
       (enumerate positions))
  (enumerate positions).

(** *** Bonds from distances *)

(** [frozenset((a, b)) in non_edges]. *)
Definition in_non_edges (non_edges : list (Z * Z)) (a b : Z) : bool :=
existsb (fun p => same_pair (fst p) (snd p) a b) non_edges.

(** [if not nodes: nodes = graph.nodes]: [None] and the empty collection
  are both falsy. *)
Definition effective_nodes (graph : Molecule) (nodes : option (list Z))
: list Z :=
match nodes with
| None | Some [] => node_ids graph
| Some ns => ns
end.

(** [if not non_edges: non_edges = set()]. *)
Definition effective_non_edges (non_edges : option (list (Z * Z)))
: list (Z * Z) :=
match non_edges with
| None => []
| Some ne => ne
end.

(** The values of [idx_to_nodenum], in the order of their keys
  [0, 1, ...]: the nodes of [graph] that are in [nodes] and whose
  element has a radius. *)
Definition eligible_nodes (graph : Molecule) (nodes : list Z) : list Z :=
filter
  (fun subn =>
     existsb (Z.eqb subn) nodes
     && match node graph subn with
        | Some atom => known_element atom
        | None => false
        end)
  (node_ids graph).

(** [graph.nodes[node]['position']] turned into coordinates. *)
Definition position_of (store : Store) (graph : Molecule) (n : Z)
: M World vec3 :=
(atom <- subscript "node" (node graph n) ;;
 p <- subscript "position" (position atom) ;;
 ret (store p))%py.

(** [[graph.nodes[node]['position'] for node in idx_to_nodenum]]:
  iterating the dictionary [idx_to_nodenum] yields its keys, the
  enumeration indices, and each of them is used as a node key of
  [graph]. *)
Fixpoint positions_of (store : Store) (graph : Molecule) (keys : list nat)
: M World (list vec3) :=
match keys with
| [] => ret []
| k :: keys' =>
    (p <- position_of store graph (Z.of_nat k) ;;
     ps <- positions_of store graph keys' ;;
     ret (p :: ps))%py
end.

(** One turn of [for (idx1, idx2), dist in pairs.items()]. *)
Definition bond_pair (idx_to_nodenum : list Z) (non_edges : list (Z * Z))
         (fudge : float) (entry : (nat * nat) * float) : M World unit :=
let '((idx1, idx2), dist) := entry in
if Nat.leb idx2 idx1 then ret tt
else
  (node_idx1 <- subscript "idx" (nth_error idx_to_nodenum idx1) ;;
   node_idx2 <- subscript "idx" (nth_error idx_to_nodenum idx2) ;;
   graph <- the_graph ;;
   atom1 <- subscript "node" (node graph node_idx1) ;;
   atom2 <- subscript "node" (node graph node_idx2) ;;
   element1 <- subscript "element" (element atom1) ;;
   element2 <- subscript "element" (element atom2) ;;
   if in_non_edges non_edges node_idx1 node_idx2 then ret tt
   else
     r1 <- subscript "radius" (radius element1) ;;
     r2 <- subscript "radius" (radius element2) ;;
     let bond_distance := 0.5 * (r1 + r2) in
     if PrimFloat.leb dist (bond_distance * fudge)
        && negb (has_edge graph node_idx1 node_idx2)
     then
       emit (Debug_guessed_bond node_idx1 node_idx2) ;;;
       mutate (fun g => add_edge g node_idx1 node_idx2 dist)
     else ret tt)%py.

Definition _bonds_from_distance (store : Store) (nodes : option (list Z))
         (non_edges : option (list (Z * Z))) (fudge : float) : M World unit :=
(graph <- the_graph ;;
 let nodes := effective_nodes graph nodes in
 let non_edges := effective_non_edges non_edges in
 let idx_to_nodenum := eligible_nodes graph nodes in
 let max_dist := max_radius * fudge in
 positions <- positions_of store graph (seq 0 (List.length idx_to_nodenum)) ;;
 let pairs :=
   match positions with
   | [] => []
   | _ => sparse_distance_matrix positions (max_dist * fudge)
   end in
 for_each pairs (bond_pair idx_to_nodenum non_edges fudge))%py.

(** *** Bonds from atom names *)

(** A block is a reference graph of the same shape as a molecule; a
  force field holds its blocks by residue name. *)
Record ForceField : Type := mkForceField {
name : string;
blocks : list (string * Molecule)
}.

(** [force_field.blocks.get(resname)]; the residue name of an atom that
  has none is [None], which is no key of the dictionary. *)
Fixpoint blocks_get (bs : list (string * Molecule)) (resname : option string)
: option Molecule :=
match bs, resname with
| (k, b) :: rest, Some r =>
    if String.eqb r k then Some b else blocks_get rest resname
| _, _ => None
end.

(** [mol_name_to_idx[name].add(graph_idx)] on a [defaultdict(set)]. *)
Fixpoint name_add (table : list (string * list Z)) (nm : string) (idx : Z)
: list (string * list Z) :=
match table with
| [] => [(nm, [idx])]
| (k, s) :: rest =>
    if String.eqb nm k
    then (k, if existsb (Z.eqb idx) s then s else s ++ [idx]) :: rest
    else (k, s) :: name_add rest nm idx
end.

(** The first loop of [_bonds_from_names]: nodes without an atom name
  are skipped. *)
Fixpoint names_of (graph : Molecule) (nodes : list Z)
         (table : list (string * list Z)) : M World (list (string * list Z)) :=
match nodes with
| [] => ret table
| graph_idx :: rest =>
    (atom <- subscript "node" (node graph graph_idx) ;;
     names_of graph rest
              (match atomname atom with
               | Some nm => name_add table nm graph_idx
               | None => table
               end))%py
end.

(** The second loop: a name held by several atoms raises, the others are
  mapped to their only atom ([set.pop]). *)
Fixpoint unique_names (table : list (string * list Z))
: M World (list (string * Z)) :=
match table with
| [] => ret []
| (nm, graph_idxs) :: rest =>
    match graph_idxs with
    | [] => raise (KeyError "pop from an empty set")
    | [idx] => (others <- unique_names rest ;; ret ((nm, idx) :: others))%py
    | _ => raise (KeyError "Residue has multiple atoms with atom name")
    end
end.

Fixpoint name_get (table : list (string * Z)) (nm : string) : option Z :=
match table with
| [] => None
| (k, idx) :: rest => if String.eqb nm k then Some idx else name_get rest nm
end.

(** [block.nodes[idx]['atomname']]. *)
Definition block_atomname (block : Molecule) (idx : Z) : M World string :=
(atom <- subscript "node" (node block idx) ;;
 subscript "atomname" (atomname atom))%py.

(** [np.array(graph.nodes[idx].get('position', np.full(3, np.nan)))]. *)
Definition position_or_nan (store : Store) (graph : Molecule) (idx : Z)
: M World vec3 :=
(atom <- subscript "node" (node graph idx) ;;
 ret (match position atom with
      | Some p => store p
      | None => (nan, nan, nan)
      end))%py.

(** One turn of [for block_idx, block_jdx in block.edges]. *)
Definition bond_named (store : Store) (block : Molecule)
         (mol_name_to_idx : list (string * Z))
         (edge : (Z * Z) * option float) : M World unit :=
(block_idx_name <- block_atomname block (fst (fst edge)) ;;
 block_jdx_name <- block_atomname block (snd (fst edge)) ;;
 match name_get mol_name_to_idx block_idx_name,
       name_get mol_name_to_idx block_jdx_name with
 | Some graph_idx, Some graph_jdx =>
     graph <- the_graph ;;
     pos1 <- position_or_nan store graph graph_idx ;;
     pos2 <- position_or_nan store graph graph_jdx ;;
     mutate (fun g => add_edge g graph_idx graph_jdx (distance pos1 pos2))
 | _, _ => ret tt
 end)%py.

Fixpoint all_pairs (l : list Z) : list (Z * Z) :=
match l with
| [] => []
| u :: rest => map (pair u) rest ++ all_pairs rest
end.

(** [networkx.non_edges(block)]: the pairs of distinct nodes that are
  not adjacent. *)
Definition nx_non_edges (block : Molecule) : list (Z * Z) :=
filter (fun p => negb (has_edge block (fst p) (snd p)))
       (all_pairs (node_ids block)).

(** The last loop of [_bonds_from_names], with [non_edges] accumulated. *)
Fixpoint named_non_edges (block : Molecule)
         (mol_name_to_idx : list (string * Z)) (pairs : list (Z * Z))
         (non_edges : list (Z * Z)) : M World (list (Z * Z)) :=
match pairs with
| [] => ret non_edges
| (block_idx, block_jdx) :: rest =>
    (block_idx_name <- block_atomname block block_idx ;;
     block_jdx_name <- block_atomname block block_jdx ;;
     named_non_edges block mol_name_to_idx rest
       (match name_get mol_name_to_idx block_idx_name,
              name_get mol_name_to_idx block_jdx_name with
        | Some a, Some b => non_edges ++ [(a, b)]
        | _, _ => non_edges
        end))%py
end.

(** [if not block]: a missing block and a block without nodes are both
  falsy. *)
Definition usable_block (block : option Molecule) : option Molecule :=
match block with
| Some b => match nodes b with [] => None | _ => Some b end
| None => None
end.

Definition _bonds_from_names (store : Store) (resname : option string)
         (nodes : list Z) (force_field : ForceField)
: M World (list (Z * Z)) :=
match usable_block (blocks_get (blocks force_field) resname) with
| None => raise (KeyError "Residue is not known to force field")
| Some block =>
    (graph <- the_graph ;;
     table <- names_of graph nodes [] ;;
     mol_name_to_idx <- unique_names table ;;
     for_each (edges block) (bond_named store block mol_name_to_idx) ;;;
     named_non_edges block mol_name_to_idx (nx_non_edges block) [])%py
end.

(** *** make_bonds *)

(** Reading the name [force_field] inside [make_bonds]: the function has
  no parameter and no local of that name, so the name is looked up in
  the namespace of the module when the line runs. [binding] is what
  that namespace holds for it. *)
Definition global_force_field (binding : option ForceField)
: M World ForceField :=
match binding with
| Some ff => ret ff
| None => raise (NameError "force_field")
end.

(** The module assigns, imports and defines no name [force_field]. *)
Definition module_force_field : option ForceField := None.

(** The loop over [residue_groups.items()], with the local [non_edges]. *)
Fixpoint name_pass (binding : option ForceField) (store : Store)
         (allow_name allow_dist : bool) (fudge : float)
         (residue_groups : list (ResidueKey * list Z))
         (non_edges : list (Z * Z)) : M World (list (Z * Z)) :=
match residue_groups with
| [] => ret non_edges
| ((mol_idx, chain, resid, resname), idxs) :: rest =>
    if negb allow_name then ret non_edges
    else
      (non_edges' <-
         try_except_KeyError
           (force_field <- global_force_field binding ;;
            found <- _bonds_from_names store resname idxs force_field ;;
            ret (non_edges ++ found))
           (fun error =>
              (if allow_dist
               then _bonds_from_distance store (Some idxs) None fudge
               else ret tt) ;;;
              force_field <- global_force_field binding ;;
              emit (Warning_no_name_bonds chain resname resid error
                                          allow_dist) ;;;
              ret non_edges) ;;
       name_pass binding store allow_name allow_dist fudge rest non_edges')%py
end.

(** [make_bonds] under a given binding of the global name; the value
  returned is the molecule that was passed, which is the state. *)
Definition make_bonds_under (binding : option ForceField) (store : Store)
         (allow_name allow_dist : bool) (fudge : float) : M World unit :=
(molecule <- the_graph ;;
 let residue_groups := _collect_residues molecule in
 non_edges <- name_pass binding store allow_name allow_dist fudge
                        residue_groups [] ;;
 (if allow_dist
  then _bonds_from_distance store None (Some non_edges) fudge
  else ret tt) ;;;
 ret tt)%py.

(** [make_bonds] as the module has it. *)
Definition make_bonds (store : Store) (allow_name allow_dist : bool)
         (fudge : float) : M World unit :=
make_bonds_under module_force_field store allow_name allow_dist fudge.

(** *** The processor class *)

Record System : Type := mkSystem {
molecules : list Molecule;
force_field : option ForceField
}.

(** An instance of [MakeBonds]; [nproc] is read but not set by the class
  itself, an unset or zero value is falsy. *)
Record MakeBonds : Type := mkMakeBonds {
allow_name : bool;
allow_dist : bool;
fudge : float;
nproc : option Z
}.

Definition SystemWorld : Type := (System * list LogRecord)%type.

Definition run_molecule (store : Store) (self : MakeBonds) : M World unit :=
make_bonds store (allow_name self) (allow_dist self) (fudge self).

(** [self.nproc and self.nproc > 1]. *)
Definition several_processes (self : MakeBonds) : bool :=
match nproc self with
| Some n => Z.ltb 1 n
| None => false
end.

(** [nx.set_node_attributes(molecule, mol_idx, 'mol_idx')]. *)
Definition set_mol_idx (idx : nat) (molecule : Molecule) : Molecule :=
set_nodes molecule
  (map (fun na : Z * Atom =>
          let a := snd na in
          (fst na,
           mkAtom (element a) (atomname a) (resname a) (resid a) (chain a)
                  (Some idx) (position a) (charge_group a) (atype a)
                  (charge a)))
       (nodes molecule)).

Definition annotate (mols : list Molecule) : list Molecule :=
map (fun im : nat * Molecule => set_mol_idx (fst im) (snd im))
    (enumerate mols).

(** Modelled from the spec: the inherited [Processor.run_system] (the
  base class is not among the sources). Its default behaviour applies
  the molecule-level transformation to each molecule of the system, in
  input order; a raise stops it, the molecules treated so far keep what
  was done to them. *)
Fixpoint run_molecules (transformation : M World unit) (mols : list Molecule)
         (log : list LogRecord)
: outcome unit * (list Molecule * list LogRecord) :=
match mols with
| [] => (Return tt, ([], log))
| m :: rest =>
    match transformation (m, log) with
    | (Return _, (m', log')) =>
        let r := run_molecules transformation rest log' in
        (fst r, (m' :: fst (snd r), snd (snd r)))
    | (Raise e, (m', log')) => (Raise e, (m' :: rest, log'))
    end
end.

Definition Processor_run_system (transformation : M World unit)
: M SystemWorld unit :=
fun w =>
  let r := run_molecules transformation (molecules (fst w)) (snd w) in
  (fst r, (mkSystem (fst (snd r)) (force_field (fst w)), snd (snd r))).

(** [nx.convert_node_labels_to_integers(g, first_label)]: the nodes get
  consecutive integers in their order, attributes and edges follow. *)
Definition relabel (first_label : Z) (g : Molecule) : Molecule :=
let new_label :=
  combine (node_ids g)
          (map (fun i => (first_label + Z.of_nat i)%Z)
               (seq 0 (List.length (nodes g)))) in
let rename u := match assoc u new_label with Some x => x | None => u end in
mkMolecule
  (map (fun na : Z * Atom => (rename (fst na), snd na)) (nodes g))
  (map (fun e : (Z * Z) * option float =>
          ((rename (fst (fst e)), rename (snd (fst e))), snd e))
       (edges g))
  (mkMeta None None) [].

(** [nx.disjoint_union_all(graphs)]: a new graph of the class of the
  first one, holding relabelled copies of all of them. *)
Fixpoint disjoint_union_from (first_label : Z) (graphs : list Molecule)
: Molecule :=
match graphs with
| [] => mkMolecule [] [] (mkMeta None None) []
| g :: rest =>
    let g' := relabel first_label g in
    let u := disjoint_union_from
               (first_label + Z.of_nat (List.length (nodes g)))%Z rest in
    mkMolecule (nodes g' ++ nodes u) (edges g' ++ edges u)
               (mkMeta None None) []
end.

Definition disjoint_union_all (graphs : list Molecule) : Molecule :=
disjoint_union_from 0%Z graphs.

(** Two blocks of [nx.quotient_graph(graph, partition)] are adjacent when
  an edge of the graph joins a node of one to a node of the other. *)
Definition blocks_linked (g : Molecule) (b1 b2 : list Z) : bool :=
existsb (fun u => existsb (fun v => has_edge g u v) b2) b1.

Fixpoint grow (fuel : nat) (linked : list Z -> list Z -> bool)
         (component rest : list (list Z)) : list (list Z) * list (list Z) :=
match fuel with
| O => (component, rest)
| S fuel' =>
    let split := partition (fun b => existsb (linked b) component) rest in
    match fst split with
    | [] => (component, rest)
    | near => grow fuel' linked (component ++ near) (snd split)
    end
end.

Fixpoint components (fuel : nat) (linked : list Z -> list Z -> bool)
         (blocks : list (list Z)) : list (list (list Z)) :=
match fuel, blocks with
| S fuel', b :: rest =>
    let found := grow (List.length rest) linked [b] rest in
    fst found :: components fuel' linked (snd found)
| _, _ => []
end.

(** [nx.connected_components] of the quotient graph over [partition]. *)
Definition connected_components (g : Molecule) (partition : list (list Z))
: list (list (list Z)) :=
components (List.length partition) (blocks_linked g) partition.

(** [Molecule(graph.subgraph(node_idxs))]. *)
Definition subgraph (g : Molecule) (node_idxs : list Z) : Molecule :=
let keep n := existsb (Z.eqb n) node_idxs in
mkMolecule
  (filter (fun na => keep (fst na)) (nodes g))
  (filter (fun e => keep (fst (fst e)) && keep (snd (fst e))) (edges g))
  (mkMeta None None) [].

Section RunSystem.

(** What the inherited [run_system] does when it is handed the fused
  graph where it expects a system: it acts on that graph and on the log
  only, and whether it raises there is left open. *)
Variable inherited_on_graph : MakeBonds -> M World unit.

Variable store : Store.

(** [MakeBonds.run_system]. In the sequential branch the name [system] is
  bound anew to the fused graph: every later statement of the method
  reads and writes that graph, the system of the caller keeps the
  molecules it had after the annotation. *)
Definition run_system (self : MakeBonds) : M SystemWorld unit :=
fun w =>
  let system := fst w in
  let log := snd w in
  match molecules system with
  | [] => (Return tt, w)
  | _ =>
      let annotated := mkSystem (annotate (molecules system))
                                (force_field system) in
      if several_processes self then
        match Processor_run_system (run_molecule store self)
                                   (annotated, log) with
        | (Return _, (system', log')) =>
            (Return tt,
             (system',
              log' ++ [Info_molecules (List.length (molecules system'))]))
        | r => r
        end
      else
        let fused := disjoint_union_all (molecules annotated) in
        match inherited_on_graph self (fused, log) with
        | (Return _, (fused', log')) =>
            let residue_groups := _collect_residues fused' in
            let new_molecules :=
              map (fun node_idxs => subgraph fused' (List.concat node_idxs))
                  (connected_components fused' (map snd residue_groups)) in
            (Return tt,
             (annotated,
              log' ++ [Info_molecules (List.length new_molecules)]))
        | (Raise e, (_, log')) => (Raise e, (annotated, log'))
        end
  end.

End RunSystem.

End make_bonds.

(* ================================================================== *)
(** ** go_vs_includes.py *)
(* ================================================================== *)

Module go_vs_includes.

Import Graph.

Local Open Scope string_scope.
Local Open Scope Z_scope.

(** An instance of [GoVirtIncludes]. *)
Record GoVirtIncludes : Type := mkGoVirtIncludes {
sections : list string
}.

(** The default [sections=('exclusions', )]. *)
Definition default_processor : GoVirtIncludes :=
mkGoVirtIncludes ["exclusions"].

(** [max(xs)] on a non-empty sequence of integers. *)
Definition max_of (first : Z) (others : list Z) : Z :=
fold_left Z.max others first.

(** [nx.get_node_attributes(molecule, 'charge_group').values()]. *)
Definition charge_groups (molecule : Molecule) : list Z :=
flat_map (fun na : Z * Atom =>
            match charge_group (snd na) with
            | Some c => [c]
            | None => []
            end)
         (nodes molecule).

(** [str(resid)] as [format] prints an integer. *)
Definition str (z : Z) : string := NilZero.string_of_int (Z.to_int z).

(** [atom.get('atomname') == backbone]. *)
Definition is_backbone (backbone : string) (atom : Atom) : bool :=
match atomname atom with
| Some nm => String.eqb nm backbone
| None => false
end.

(** The dictionary built for a virtual site; the keys are evaluated in
  the order they are written, a missing one raises. *)
Definition virtual_site_attrs (prefix atomname_ : string) (charge_ : Z)
         (new_charge_group : Z) (atom : Atom) : M Molecule Atom :=
(resid_ <- subscript "resid" (resid atom) ;;
 resname_ <- subscript "resname" (resname atom) ;;
 chain_ <- subscript "chain" (chain atom) ;;
 position_ <- subscript "position" (position atom) ;;
 ret (mkAtom None (Some atomname_) (Some resname_) (Some resid_)
             (Some chain_) None (Some position_) (Some new_charge_group)
             (Some (prefix ++ "_" ++ str resid_)) (Some charge_)))%py.

Definition virtual_site (new_node_id node_id : Z) : Interaction :=
mkInteraction [new_node_id; node_id] ["1"]
              [("go_vs", MBool true); ("group", MStr "Virtual go site")].

(** [for node_id, atom in molecule.nodes(data=True)], with the counters
  and the two lists the loop fills. *)
Fixpoint collect_virtual_sites (prefix backbone atomname_ : string)
         (charge_ : Z) (todo : list (Z * Atom))
         (new_node_id new_charge_group : Z)
         (virtual_site_nodes : list (Z * Atom))
         (virtual_sites : list Interaction)
: M Molecule (list (Z * Atom) * list Interaction) :=
match todo with
| [] => ret (virtual_site_nodes, virtual_sites)
| (node_id, atom) :: rest =>
    if is_backbone backbone atom then
      let new_node_id := new_node_id + 1 in
      let new_charge_group := new_charge_group + 1 in
      (attrs <- virtual_site_attrs prefix atomname_ charge_
                                   new_charge_group atom ;;
       collect_virtual_sites prefix backbone atomname_ charge_ rest
         new_node_id new_charge_group
         (virtual_site_nodes ++ [(new_node_id, attrs)])
         (virtual_sites ++ [virtual_site new_node_id node_id]))%py
    else
      collect_virtual_sites prefix backbone atomname_ charge_ rest
        new_node_id new_charge_group virtual_site_nodes virtual_sites
end.

Definition or_else {A} (new old : option A) : option A :=
match new with
| Some _ => new
| None => old
end.

(** [old.update(new)] on attribute dictionaries. *)
Definition update_attrs (old new : Atom) : Atom :=
mkAtom (or_else (element new) (element old))
       (or_else (atomname new) (atomname old))
       (or_else (resname new) (resname old))
       (or_else (resid new) (resid old))
       (or_else (chain new) (chain old))
       (or_else (mol_idx new) (mol_idx old))
       (or_else (position new) (position old))
       (or_else (charge_group new) (charge_group old))
       (or_else (atype new) (atype old))
       (or_else (charge new) (charge old)).

(** [graph.add_node(n, **attrs)]: a new key is appended, an existing one
  has its attributes updated. *)
Definition add_node (g : Molecule) (n : Z) (attrs : Atom) : Molecule :=
if has_node g n
then set_nodes g (map (fun na : Z * Atom =>
                         if Z.eqb (fst na) n
                         then (fst na, update_attrs (snd na) attrs)
                         else na)
                      (nodes g))
else set_nodes g (nodes g ++ [(n, attrs)]).

(** [graph.add_nodes_from(nodes_with_attrs)]. *)
Definition add_nodes_from (g : Molecule) (new : list (Z * Atom)) : Molecule :=
fold_left (fun g' na => add_node g' (fst na) (snd na)) new g.

Fixpoint interactions_get (d : list (string * list Interaction)) (k : string)
: option (list Interaction) :=
match d with
| [] => None
| (k', v) :: rest => if String.eqb k k' then Some v else interactions_get rest k
end.

Fixpoint interactions_set (d : list (string * list Interaction)) (k : string)
         (v : list Interaction) : list (string * list Interaction) :=
match d with
| [] => [(k, v)]
| (k', v') :: rest =>
    if String.eqb k k' then (k', v) :: rest
    else (k', v') :: interactions_set rest k v
end.

(** The last three lines of [add_virtual_sites]. *)
Definition extend_virtual_sitesn (g : Molecule) (new : list Interaction)
: Molecule :=
let present :=
  match interactions_get (interactions g) "virtual_sitesn" with
  | Some l => l
  | None => []
  end in
mkMolecule (nodes g) (edges g) (meta g)
           (interactions_set (interactions g) "virtual_sitesn"
                             (present ++ new)).

Definition add_virtual_sites (prefix backbone atomname_ : string)
         (charge_ : Z) : M Molecule unit :=
(molecule <- get ;;
 match node_ids molecule with
 | [] => ret tt
 | first :: others =>
     let new_node_id := max_of first others in
     let new_charge_group :=
       match charge_groups molecule with
       | [] => 0
       | c :: cs => max_of c cs
       end in
     found <- collect_virtual_sites prefix backbone atomname_ charge_
                (nodes molecule) new_node_id new_charge_group [] [] ;;
     modify (fun m => add_nodes_from m (fst found)) ;;;
     modify (fun m => extend_virtual_sitesn m (snd found))
 end)%py.

Definition dquote : string := String "034"%char EmptyString.

(** ['#include "{moltype}_{section}_VirtGoSites.itp"'.format(...)]. *)
Definition include_line (moltype_ section : string) : string :=
"#include " ++ dquote ++ moltype_ ++ "_" ++ section ++ "_VirtGoSites.itp"
            ++ dquote.

Fixpoint includes_get (d : list (string * list string)) (k : string)
: list string :=
match d with
| [] => []
| (k', v) :: rest => if String.eqb k k' then v else includes_get rest k
end.

Fixpoint includes_set (d : list (string * list string)) (k : string)
         (v : list string) : list (string * list string) :=
match d with
| [] => [(k, v)]
| (k', v') :: rest =>
    if String.eqb k k' then (k', v) :: rest
    else (k', v') :: includes_set rest k v
end.

(** The body of [for section in self.sections]. *)
Definition add_include (moltype_ : string)
         (includes : list (string * list string)) (section : string)
: list (string * list string) :=
includes_set includes section
             (includes_get includes section ++ [include_line moltype_ section]).

Definition set_post_section_lines (g : Molecule)
         (includes : list (string * list string)) : Molecule :=
mkMolecule (nodes g) (edges g)
           (mkMeta (moltype (meta g)) (Some includes)) (interactions g).

(** [GoVirtIncludes.run_molecule]; [not moltype] holds for a missing name
  and for the empty string. *)
Definition run_molecule (self : GoVirtIncludes) : M Molecule unit :=
(molecule <- get ;;
 match moltype (meta molecule) with
 | None | Some EmptyString =>
     raise (ValueError "The molecule does not have a moltype name.")
 | Some moltype_ =>
     add_virtual_sites moltype_ "BB" "CA" 0 ;;;
     molecule <- get ;;
     let includes :=
       match post_section_lines (meta molecule) with
       | Some d => d
       | None => []
       end in
     modify (fun m =>
               set_post_section_lines
                 m (fold_left (add_include moltype_) (sections self) includes))
 end)%py.

End go_vs_includes.

(* ================================================================== *)
(** ** The distance pass, taken apart for the proofs *)
(* ================================================================== *)

Module Plan.

Import Graph make_bonds.

Local Open Scope float_scope.

(** What one turn of the loop over the pairs settles before it looks at
  the edges of the graph: nothing to do, a failing subscript, or a pair
  of nodes close enough to be bonded. *)
Inductive Verdict : Type :=
| Skip
| Fail (e : exn)
| Candidate (node_idx1 node_idx2 : Z) (dist : float).

Definition need {A} (what : string) (o : option A) (k : A -> Verdict)
: Verdict :=
match o with
| Some a => k a
| None => Fail (KeyError what)
end.

Definition verdict (graph : Molecule) (idx_to_nodenum : list Z)
         (non_edges : list (Z * Z)) (fudge : float)
         (entry : (nat * nat) * float) : Verdict :=
let '((idx1, idx2), dist) := entry in
if Nat.leb idx2 idx1 then Skip
else
  need "idx" (nth_error idx_to_nodenum idx1) (fun node_idx1 =>
  need "idx" (nth_error idx_to_nodenum idx2) (fun node_idx2 =>
  need "node" (node graph node_idx1) (fun atom1 =>
  need "node" (node graph node_idx2) (fun atom2 =>
  need "element" (element atom1) (fun element1 =>
  need "element" (element atom2) (fun element2 =>
  if in_non_edges non_edges node_idx1 node_idx2 then Skip
  else
    need "radius" (radius element1) (fun r1 =>
    need "radius" (radius element2) (fun r2 =>
    if PrimFloat.leb dist (0.5 * (r1 + r2) * fudge)
    then Candidate node_idx1 node_idx2 dist
    else Skip)))))))).

Definition apply_verdict (v : Verdict) (w : World) : outcome unit * World :=
match v with
| Skip => (Return tt, w)
| Fail e => (Raise e, w)
| Candidate node_idx1 node_idx2 dist =>
    if has_edge (fst w) node_idx1 node_idx2 then (Return tt, w)
    else (Return tt,
          (add_edge (fst w) node_idx1 node_idx2 dist,
           snd w ++ [Debug_guessed_bond node_idx1 node_idx2]))
end.

(** The positions read for the spatial index, without the state. *)
Fixpoint positions_pure (store : Store) (graph : Molecule) (keys : list nat)
: outcome (list vec3) :=
match keys with
| [] => Return []
| k :: keys' =>
    match node graph (Z.of_nat k) with
    | None => Raise (KeyError "node")
    | Some atom =>
        match position atom with
        | None => Raise (KeyError "position")
        | Some p =>
            match positions_pure store graph keys' with
            | Return ps => Return (store p :: ps)
            | Raise e => Raise e
            end
        end
    end
end.

(** The nodes given an index and the pairs handed to the loop. *)
Definition indexed_nodes (graph : Molecule) (nodes : option (list Z))
: list Z :=
eligible_nodes graph (effective_nodes graph nodes).

Definition pairs_of (positions : list vec3) (fudge : float)
: list ((nat * nat) * float) :=
match positions with
| [] => []
| _ => sparse_distance_matrix positions (max_radius * fudge * fudge)
end.

(** Groups that are not empty and share no node with a later group. *)
Fixpoint apart (groups : list (ResidueKey * list Z)) : Prop :=
match groups with
| [] => True
| (k, s) :: rest =>
    s <> [] /\
    (forall x k' s', In x s -> In (k', s') rest -> ~ In x s') /\
    apart rest
end.

(** The handler of [make_bonds] for a residue whose names did not match:
  the body of [except KeyError as error]. *)
Definition fall_back (binding : option ForceField) (store : Store)
         (allow_dist : bool) (fudge : float) (key : ResidueKey)
         (idxs : list Z) (non_edges : list (Z * Z)) (error : string)
: M World (list (Z * Z)) :=
((if allow_dist
  then _bonds_from_distance store (Some idxs) None fudge
  else ret tt) ;;;
 force_field <- global_force_field binding ;;
 emit (Warning_no_name_bonds (snd (fst (fst key))) (snd key)
                             (snd (fst key)) error allow_dist) ;;;
 ret non_edges)%py.

(** The bonds the log says were guessed from distances. *)
Definition guessed (log : list LogRecord) (x y : Z) : Prop :=
In (Debug_guessed_bond x y) log.

(** What one turn of the loop over the edges of a block settles from the
  nodes alone, and what it then does to the state. *)
Definition named_verdict (store : Store) (block : Molecule)
         (mol_name_to_idx : list (string * Z))
         (edge : (Z * Z) * option float) (graph : Molecule) : Verdict :=
need "node" (node block (fst (fst edge))) (fun a1 =>
need "atomname" (atomname a1) (fun block_idx_name =>
need "node" (node block (snd (fst edge))) (fun a2 =>
need "atomname" (atomname a2) (fun block_jdx_name =>
match name_get mol_name_to_idx block_idx_name,
      name_get mol_name_to_idx block_jdx_name with
| Some graph_idx, Some graph_jdx =>
    need "node" (node graph graph_idx) (fun atom1 =>
    need "node" (node graph graph_jdx) (fun atom2 =>
    Candidate graph_idx graph_jdx
              (distance
                 match position atom1 with
                 | Some p => store p
                 | None => (nan, nan, nan)
                 end
                 match position atom2 with
                 | Some p => store p
                 | None => (nan, nan, nan)
                 end)))
| _, _ => Skip
end)))).

Definition apply_named (v : Verdict) (w : World) : outcome unit * World :=
match v with
| Skip => (Return tt, w)
| Fail e => (Raise e, w)
| Candidate graph_idx graph_jdx dist =>
    (Return tt, (add_edge (fst w) graph_idx graph_jdx dist, snd w))
end.

(** The edge set of the molecule of a state: its edges without their
  attributes. *)
Definition edge_keys (w : World) : list (Z * Z) := map fst (edges (fst w)).

(** [u] has every edge of [w]. *)
Definition covers (u w : World) : Prop :=
forall a b, has_edge (fst w) a b = true -> has_edge (fst u) a b = true.

(** A computation that does not look at the state. *)
Definition Pure {A} (c : M World A) : Prop :=
exists o, forall w, c w = (o, w).

(** A computation that keeps the nodes and only adds edges, and that,
  run on a state with the same nodes that already has the edges it ends
  with, ends the same way without a new edge. *)
Definition Replays {A} (c : M World A) : Prop :=
forall w o w', c w = (o, w') ->
(nodes (fst w') = nodes (fst w) /\ covers w' w) /\
forall u, nodes (fst u) = nodes (fst w) -> covers u w' ->
          exists u', c u = (o, u') /\
                     nodes (fst u') = nodes (fst u) /\
                     (forall a b, has_edge (fst u') a b
                                  = has_edge (fst u) a b) /\
                     edge_keys u' = edge_keys u.

End Plan.

(* ================================================================== *)
(** ** Vocabulary for the statements on virtual sites *)
(* ================================================================== *)

Module Sites.

Import Graph go_vs_includes.

(** The atoms named as the backbone, in the order of the molecule. *)
Definition backbone_atoms (m : Molecule) : list (Z * Atom) :=
filter (fun na => is_backbone "BB" (snd na)) (nodes m).

(** The four keys a virtual site reads from its backbone atom. *)
Definition has_site_keys (a : Atom) : bool :=
match resid a, resname a, chain a, position a with
| Some _, Some _, Some _, Some _ => true
| _, _, _, _ => false
end.

(** [molecule.interactions['virtual_sitesn']], empty when the key is
  absent. *)
Definition virtual_sitesn (m : Molecule) : list Interaction :=
match interactions_get (interactions m) "virtual_sitesn" with
| Some l => l
| None => []
end.

(** [molecule.meta['post_section_lines'][section]], empty when absent. *)
Definition lines_of (m : Molecule) (section : string) : list string :=
match post_section_lines (meta m) with
| Some d => includes_get d section
| None => []
end.

(** A virtual site and its backbone atom: same residue id, residue name
  and chain, and the same position array. *)
Definition shares (bb site : Z * Atom) : Prop :=
resid (snd site) = resid (snd bb) /\
resname (snd site) = resname (snd bb) /\
chain (snd site) = chain (snd bb) /\
position (snd site) = position (snd bb).

(** The interaction of a virtual site: the site, then its atom. *)
Definition ties (bb site : Z * Atom) (i : Interaction) : Prop :=
atoms i = [fst site; fst bb].

(** Keys that grow from one to the next, all above [below]. *)
Fixpoint ascending (below : Z) (keys : list Z) : Prop :=
match keys with
| [] => True
| k :: rest => (below < k)%Z /\ ascending k rest
end.

End Sites.

(* ================================================================== *)
(** ** Concrete molecules used by the examples below *)
(* ================================================================== *)

Module Examples.

Import Graph make_bonds.

Local Open Scope float_scope.

(** An atom of residue [RES 1] of chain [A], with an element and a
  position array. *)
Definition atom_of (el : string) (p : loc) : Atom :=
mkAtom (Some el) None (Some "RES") (Some 1%Z) (Some "A") None (Some p)
       None None None.

Definition bare (ns : list (Z * Atom)) : Molecule :=
mkMolecule ns [] (mkMeta None None) [].

(** Position arrays on the x axis, at 0, 0.1 and 5 nm. *)
Definition axis : Store :=
fun p =>
  match p with
  | O => (0, 0, 0)
  | 1%nat => (0.1, 0, 0)
  | _ => (5, 0, 0)
  end.

(** A zinc ion followed by two carbons 4.9 nm apart. *)
Definition ion_and_carbons : Molecule :=
bare [(0%Z, atom_of "Zn" 0%nat); (1%Z, atom_of "C" 1%nat);
      (2%Z, atom_of "C" 2%nat)].

(** Two carbons 0.1 nm apart. *)
Definition two_carbons : Molecule :=
bare [(0%Z, atom_of "C" 0%nat); (1%Z, atom_of "C" 1%nat)].

(** The same two carbons under the keys 1 and 2. *)
Definition carbons_from_one : Molecule :=
bare [(1%Z, atom_of "C" 0%nat); (2%Z, atom_of "C" 1%nat)].

(** Two selenium atoms 0.6 nm apart. *)
Definition spread : Store :=
fun p =>
  match p with
  | O => (0, 0, 0)
  | _ => (0.6, 0, 0)
  end.

Definition two_seleniums : Molecule :=
bare [(0%Z, atom_of "Se" 0%nat); (1%Z, atom_of "Se" 1%nat)].

(** Atoms that agree on everything but the chain, or but the molecule
  index. *)
Definition keyed (m : option nat) (c : string) : Atom :=
mkAtom (Some "C") (Some "CA") (Some "ALA") (Some 7%Z) (Some c) m None
       None None None.

Definition three_keys : Molecule :=
bare [(0%Z, keyed (Some 0%nat) "A"); (1%Z, keyed (Some 0%nat) "B");
      (2%Z, keyed (Some 1%nat) "A"); (3%Z, keyed (Some 0%nat) "A")].

(** A force field without any block. *)
Definition no_blocks : ForceField := mkForceField "empty" [].

(** A force field whose block [RES] has the atoms [CA], [CB] and [CG],
  with the bond [CA]-[CB] only. *)
Definition named (nm : string) : Atom :=
mkAtom None (Some nm) (Some "RES") None None None None None None None.

Definition block_RES : Molecule :=
mkMolecule [(0%Z, named "CA"); (1%Z, named "CB"); (2%Z, named "CG")]
           [((0%Z, 1%Z), None)] (mkMeta None None) [].

Definition one_block : ForceField := mkForceField "one" [("RES", block_RES)].

(** A carbon of residue [RES 1] of chain [A] with an atom name. *)
Definition carbon (nm : string) (p : loc) : Atom :=
mkAtom (Some "C") (Some nm) (Some "RES") (Some 1%Z) (Some "A") None (Some p)
       None None None.

(** Two carbons 0.1 nm apart that bear the same atom name. *)
Definition twin_names : Molecule :=
bare [(0%Z, carbon "CA" 0%nat); (1%Z, carbon "CA" 1%nat)].

(** The atoms [CA] and [CG] of the block, 0.1 nm apart: not bonded in
  the block. *)
Definition unbonded_names : Molecule :=
bare [(0%Z, carbon "CA" 0%nat); (1%Z, carbon "CG" 1%nat)].

(** A system of two molecules, one carbon each, 0.1 nm apart. *)
Definition lone_carbon (p : loc) : Molecule := bare [(0%Z, atom_of "C" p)].

Definition two_molecules : System :=
mkSystem [lone_carbon 0%nat; lone_carbon 1%nat] (Some no_blocks).

(** A processor that matches by distance only, on one process. *)
Definition by_distance : MakeBonds := mkMakeBonds false true 1 None.

(** The inherited method, were it to treat the graph it is handed as one
  molecule. *)
Definition as_one_molecule (self : MakeBonds) : M World unit :=
run_molecule axis self.

(** The inherited method, were it to fail on the attribute [molecules]
  that a graph does not have. *)
Definition no_such_attribute (self : MakeBonds) : M World unit :=
raise (AttributeError "molecules").

(** A coarse-grained bead. *)
Definition bead (nm rn : string) (ri : Z) (p : loc) (cg : Z) : Atom :=
mkAtom None (Some nm) (Some rn) (Some ri) (Some "A") None (Some p)
       (Some cg) (Some "P5") (Some 0%Z).

(** Five residues: five backbone beads, three side-chain beads. *)
Definition five_and_three : Molecule :=
mkMolecule
  [(0%Z, bead "BB" "GLY" 1 0%nat 1); (1%Z, bead "BB" "LYS" 2 1%nat 2);
   (2%Z, bead "SC1" "LYS" 2 2%nat 3); (3%Z, bead "BB" "GLY" 3 3%nat 4);
   (4%Z, bead "BB" "PHE" 4 4%nat 5); (5%Z, bead "SC1" "PHE" 4 5%nat 6);
   (6%Z, bead "SC2" "PHE" 4 6%nat 7); (7%Z, bead "BB" "ALA" 5 7%nat 8)]
  [] (mkMeta (Some "molecule_0") None) [].

(** A molecule type without atoms. *)
Definition no_atoms : Molecule :=
mkMolecule [] [] (mkMeta (Some "molecule_0") None) [].

End Examples.

(* ================================================================== *)
(** ** Vocabulary for the statements on guessed bonds *)
(* ================================================================== *)

Module Shape.

Import Graph make_bonds.

Local Open Scope float_scope.

(** An edge as the distance pass may add it to [graph]: it joins two
  nodes of [nodes] whose elements have radii, that were not adjacent and
  are no pair of [non_edges], and the distance it stores is within the
  bond distance of the two elements. *)
Definition sound_bond (graph : Molecule) (nodes : list Z)
         (non_edges : list (Z * Z)) (fudge : float)
         (e : (Z * Z) * option float) : Prop :=
exists atom1 atom2 element1 element2 r1 r2 dist,
  snd e = Some dist /\
  In (fst (fst e)) nodes /\ In (snd (fst e)) nodes /\
  node graph (fst (fst e)) = Some atom1 /\
  node graph (snd (fst e)) = Some atom2 /\
  element atom1 = Some element1 /\ element atom2 = Some element2 /\
  radius element1 = Some r1 /\ radius element2 = Some r2 /\
  in_non_edges non_edges (fst (fst e)) (snd (fst e)) = false /\
  has_edge graph (fst (fst e)) (snd (fst e)) = false /\
  PrimFloat.leb dist (0.5 * (r1 + r2) * fudge) = true.

(** The coordinates and the radius the pass reads for a node. *)
Definition coordinates (store : Store) (g : Molecule) (n : Z) : vec3 :=
match node g n with
| Some atom =>
    match position atom with
    | Some p => store p
    | None => (nan, nan, nan)
    end
| None => (nan, nan, nan)
end.

Definition radius_of (g : Molecule) (n : Z) : float :=
match node g n with
| Some atom =>
    match element atom with
    | Some el => match radius el with Some r => r | None => nan end
    | None => nan
    end
| None => nan
end.

(** The two tests a pair passes before it is bonded: the radius of the
  query of the spatial index, and the bond distance of its elements. *)
Definition within_reach (store : Store) (g : Molecule) (fudge : float)
         (a b : Z) : bool :=
let dist := distance (coordinates store g a) (coordinates store g b) in
PrimFloat.leb dist (max_radius * fudge * fudge)
&& PrimFloat.leb dist (0.5 * (radius_of g a + radius_of g b) * fudge).

(** Whether the turn of the loop on [entry] is one that bonds the pair
  [{a, b}]. *)
Definition bonded_by (g0 : Molecule) (idx_to_nodenum : list Z)
         (non_edges : list (Z * Z)) (fudge : float) (a b : Z)
         (entry : (nat * nat) * float) : bool :=
match Plan.verdict g0 idx_to_nodenum non_edges fudge entry with
| Plan.Candidate n1 n2 _ => same_pair n1 n2 a b
| _ => false
end.

(** The debug record of a guessed bond. *)
Definition debug_record (e : (Z * Z) * option float) : LogRecord :=
Debug_guessed_bond (fst (fst e)) (snd (fst e)).

End Shape.

(* ================================================================== *)
(** ** Vocabulary for the statements on bonds by name *)
(* ================================================================== *)

Module Naming.

Import Graph make_bonds.

(** The node [n] of [g] bears the atom name [nm]. *)
Definition bears (g : Molecule) (n : Z) (nm : string) : Prop :=
exists atom, node g n = Some atom /\ atomname atom = Some nm.

(** A block whose nodes all have an atom name and whose edges join nodes
  it has. *)
Definition block_ok (block : Molecule) : Prop :=
(forall n atom, node block n = Some atom -> atomname atom <> None) /\
(forall e, In e (edges block) ->
         has_node block (fst (fst e)) = true /\
         has_node block (snd (fst e)) = true).

End Naming.

(* ================================================================== *)
(** ** Vocabulary for the statements on what make_bonds keeps *)
(* ================================================================== *)

Module Frame.

Import Graph make_bonds.

(** [w'] has the nodes, the metadata and the interactions of [w]; its
  edges are those of [w], in their order, followed by new ones; its log
  is the log of [w] followed by new records. *)
Definition extends (w w' : World) : Prop :=
nodes (fst w') = nodes (fst w)
/\ meta (fst w') = meta (fst w)
/\ interactions (fst w') = interactions (fst w)
/\ (exists added, Plan.edge_keys w' = Plan.edge_keys w ++ added)
/\ (exists more, snd w' = snd w ++ more).

(** A computation that, however it ends, leaves a state that extends the
  one it started from. *)
Definition Frames {A} (c : M World A) : Prop :=
forall w, extends w (snd (c w)).

End Frame.

(* ================================================================== *)
(** ** Vocabulary for the statements on the numbering of virtual sites *)
(* ================================================================== *)

Module Numbering.

Import Graph go_vs_includes.

(** The value [new_charge_group] starts from: the largest charge group
  of the molecule, 0 when no node has one. *)
Definition largest_charge_group (m : Molecule) : Z :=
match charge_groups m with
| [] => 0
| c :: cs => max_of c cs
end.

(** The value [new_node_id] starts from, on a molecule that has nodes. *)
Definition largest_key (m : Molecule) : Z :=
match node_ids m with
| [] => 0
| first :: others => max_of first others
end.

End Numbering.

(* ================================================================== *)
(** ** More concrete molecules *)
(* ================================================================== *)

Module Cases.

Import Graph make_bonds.

Local Open Scope float_scope.

(** A zinc ion that has no position. *)
Definition lone_zinc : Molecule :=
Examples.bare
  [(7%Z, mkAtom (Some "Zn") None (Some "ZN") (Some 1%Z) (Some "A") None None
                None None None)].

(** The atoms [CA] and [CB] of the block, which the block bonds. *)
Definition bonded_names : Molecule :=
Examples.bare [(0%Z, Examples.carbon "CA" 0%nat);
               (1%Z, Examples.carbon "CB" 1%nat)].

End Cases.

(* ================================================================== *)
(** ** Python strings *)
(* ================================================================== *)

Module PyStr.

(** [c.isspace()] for a character of the first 256 code points: the
  white space of ASCII, the separators [\x1c] to [\x1f], NEL and the
  no-break space. *)
Definition isspace (c : ascii) : bool :=
let n := nat_of_ascii c in
((9 <=? n) && (n <=? 13) || (28 <=? n) && (n <=? 32)
 || (n =? 133) || (n =? 160))%nat.

(** [s.lstrip()], [s.rstrip()] and [s.strip()]. *)
Fixpoint lstrip (s : string) : string :=
match s with
| EmptyString => EmptyString
| String c rest => if isspace c then lstrip rest else s
end.

Fixpoint rstrip (s : string) : string :=
match s with
| EmptyString => EmptyString
| String c rest =>
    match rstrip rest with
    | EmptyString => if isspace c then EmptyString else String c EmptyString
    | kept => String c kept
    end
end.

Definition strip (s : string) : string := rstrip (lstrip s).

(** [s.split(sep, 1)[0]]: what comes before the first [sep], the whole
  of [s] when it has none. *)
Fixpoint before (sep : ascii) (s : string) : string :=
match s with
| EmptyString => EmptyString
| String c rest => if Ascii.eqb c sep then EmptyString
                   else String c (before sep rest)
end.

(** [s.split()]: the maximal runs of characters that are no white space;
  [word] is the run being read, in reverse. *)
Fixpoint split_from (word : list ascii) (s : string) : list string :=
match s with
| EmptyString =>
    match word with
    | [] => []
    | _ => [string_of_list_ascii (rev word)]
    end
| String c rest =>
    if isspace c
    then match word with
         | [] => split_from [] rest
         | _ => string_of_list_ascii (rev word) :: split_from [] rest
         end
    else split_from (c :: word) rest
end.

Definition split (s : string) : list string := split_from [] s.

(** [s[-1]] on a string that is not empty, and [s[1:-1]]. *)
Fixpoint last (s : string) : option ascii :=
match s with
| EmptyString => None
| String c EmptyString => Some c
| String _ rest => last rest
end.

Fixpoint but_last (s : string) : string :=
match s with
| EmptyString => EmptyString
| String c EmptyString => EmptyString
| String c rest => String c (but_last rest)
end.

Definition inner (s : string) : string :=
match s with
| EmptyString => EmptyString
| String _ rest => but_last rest
end.

(** [str(n)] for a natural number. *)
Definition of_nat (n : nat) : string := NilZero.string_of_uint (Nat.to_uint n).

End PyStr.

(* ================================================================== *)
(** ** Dictionaries keyed by strings *)
(* ================================================================== *)

Module PyDict.

(** [d.get(key)] and [d[key] = value] on a dictionary keyed by strings,
  which keeps the order in which its keys came. *)
Fixpoint dict_get {V} (d : list (string * V)) (key : string) : option V :=
match d with
| [] => None
| (k, v) :: rest => if String.eqb key k then Some v else dict_get rest key
end.

Fixpoint dict_set {V} (d : list (string * V)) (key : string) (value : V)
  : list (string * V) :=
match d with
| [] => [(key, value)]
| (k, v) :: rest =>
    if String.eqb key k then (k, value) :: rest
    else (k, v) :: dict_set rest key value
end.

End PyDict.

(* ================================================================== *)
(** ** entry_api.py: the reader of mapping files *)
(* ================================================================== *)

Module entry_api.

Import PyDict.

(** The exceptions [read_mapping] raises by itself. *)
Inductive error : Type :=
| IOError (msg : string)
| UnboundLocalError (name : string)
| ValueError (msg : string).

Inductive result (A : Type) : Type :=
| Ok (a : A)
| Err (e : error).
Arguments Ok {A} a.
Arguments Err {A} e.

(** An atom of a mapping: the index of its molecule and its name. *)
Definition MapAtom : Type := (Z * string)%type.

Definition Mapping : Type := list (MapAtom * list MapAtom).

Definition atom_eqb (a b : MapAtom) : bool :=
Z.eqb (fst a) (fst b) && String.eqb (snd a) (snd b).

(** [mapping[key] = value] on a dictionary that keeps the order in which
  its keys came. *)
Fixpoint mapping_set (mapping : Mapping) (key : MapAtom) (value : list MapAtom)
  : Mapping :=
match mapping with
| [] => [(key, value)]
| (k, v) :: rest =>
    if atom_eqb key k then (k, value) :: rest
    else (k, v) :: mapping_set rest key value
end.

Fixpoint mapping_get (mapping : Mapping) (key : MapAtom)
  : option (list MapAtom) :=
match mapping with
| [] => None
| (k, v) :: rest => if atom_eqb key k then Some v else mapping_get rest key
end.

(** The locals of [read_mapping] that the loop assigns; [None] is a
  local that has no value yet. *)
Record Locals : Type := mkLocals {
context : option string;
name : option string;
mapping : Mapping
}.

Definition initial : Locals := mkLocals None None [].

(** One turn of the loop over the lines of the file. *)
Definition read_line (line_number : nat) (line : string) (locals : Locals)
  : result Locals :=
let cleaned := PyStr.strip (PyStr.before ";" line) in
match cleaned with
| EmptyString => Ok locals
| String first _ =>
    if Ascii.eqb first "["
    then
      match PyStr.last cleaned with
      | Some "]"%char =>
          Ok (mkLocals (Some (PyStr.strip (PyStr.inner cleaned)))
                       (name locals) (mapping locals))
      | _ => Err (IOError ("Format error at line "
                           ++ PyStr.of_nat line_number ++ "."))
      end
    else
      match context locals with
      | None => Err (UnboundLocalError "context")
      | Some context_ =>
          if String.eqb context_ "molecule"
          then Ok (mkLocals (context locals) (Some cleaned) (mapping locals))
          else if String.eqb context_ "atoms"
          then
            match PyStr.split line with
            | _ :: from_atom :: to_atoms =>
                Ok (mkLocals (context locals) (name locals)
                             (mapping_set (mapping locals) (0, from_atom)
                                          (map (pair 0) to_atoms)))
            | tokens =>
                Err (ValueError
                       ("not enough values to unpack (expected at least 2, got "
                        ++ PyStr.of_nat (List.length tokens) ++ ")"))
            end
          else Ok locals
      end
end.

(** [for line_number, line in enumerate(infile, start=...)]. *)
Fixpoint read_lines (line_number : nat) (lines : list string)
         (locals : Locals) : result Locals :=
match lines with
| [] => Ok locals
| line :: rest =>
    match read_line line_number line locals with
    | Ok locals' => read_lines (S line_number) rest locals'
    | Err e => Err e
    end
end.

(** [read_mapping] on a file that could be opened, given as the lines
  the iteration over the file yields. *)
Definition read_mapping (lines : list string)
  : result (string * list string * list string * Mapping) :=
match read_lines 1 lines initial with
| Err e => Err e
| Ok locals =>
    match name locals with
    | None => Err (UnboundLocalError "name")
    | Some name_ => Ok (name_, ["universal"], ["martini22"], mapping locals)
    end
end.

(** [mappings.get(key, {})]. *)
Definition get_or_empty {V} (d : list (string * list V)) (key : string)
  : list V :=
match dict_get d key with
| Some v => v
| None => []
end.

(** The mappings by origin force field, destination force field and
  name of the fragment. *)
Definition Mappings : Type :=
list (string * list (string * list (string * Mapping))).

(** The body of [for to_ff in all_to_ff], on the dictionary
  [mappings[from_ff]]. *)
Definition record_to (name_ : string) (mapping_ : Mapping)
         (by_to : list (string * list (string * Mapping))) (to_ff : string)
  : list (string * list (string * Mapping)) :=
dict_set by_to to_ff (dict_set (get_or_empty by_to to_ff) name_ mapping_).

(** The body of [for from_ff in all_from_ff]. *)
Definition record_from (name_ : string) (all_to_ff : list string)
         (mapping_ : Mapping) (mappings : Mappings) (from_ff : string)
  : Mappings :=
dict_set mappings from_ff
         (fold_left (record_to name_ mapping_) all_to_ff
                    (get_or_empty mappings from_ff)).

(** [read_mapping_directory], given the files that
  [directory.glob('**/*.map')] yields, in its order, each as its
  lines. *)
Fixpoint read_files (files : list (list string)) (mappings : Mappings)
  : result Mappings :=
match files with
| [] => Ok mappings
| lines :: rest =>
    match read_mapping lines with
    | Err e => Err e
    | Ok (name_, all_from_ff, all_to_ff, mapping_) =>
        read_files rest
                   (fold_left (record_from name_ all_to_ff mapping_)
                              all_from_ff mappings)
    end
end.

Definition read_mapping_directory (files : list (list string))
  : result Mappings :=
read_files files [].

End entry_api.

(* ================================================================== *)
(** ** Vocabulary for the statements on mapping files *)
(* ================================================================== *)

Module Lines.

Import entry_api.

(** A line without content: nothing but white space before its first
  semicolon. *)
Definition blank (line : string) : Prop :=
PyStr.strip (PyStr.before ";" line) = EmptyString.

(** A line that opens a section, and one that tries to but does not end
  with a closing bracket. *)
Definition cleaned (line : string) : string :=
PyStr.strip (PyStr.before ";" line).

Definition opens_section (line : string) : bool :=
match cleaned line with
| String first _ => Ascii.eqb first "["
| EmptyString => false
end.

Definition well_closed (line : string) : bool :=
match PyStr.last (cleaned line) with
| Some "]"%char => true
| _ => false
end.

(** What the locals hold, in terms of the lines read so far. *)
Definition grounded (seen : list string) (locals : Locals) : Prop :=
(forall name_, name locals = Some name_ ->
   exists header line,
     In header seen /\ In line seen
     /\ opens_section header = true
     /\ PyStr.strip (PyStr.inner (cleaned header)) = "molecule"
     /\ cleaned line = name_ /\ opens_section line = false
     /\ name_ <> EmptyString)
/\ (forall context_, context locals = Some context_ ->
      exists header,
        In header seen /\ opens_section header = true
        /\ PyStr.strip (PyStr.inner (cleaned header)) = context_)
/\ NoDup (map fst (mapping locals))
/\ (forall key value, In (key, value) (mapping locals) ->
      fst key = 0 /\ (forall a, In a value -> fst a = 0)
      /\ exists line first,
           In line seen
           /\ PyStr.split line = first :: snd key :: map snd value).

End Lines.

Module Dirs.

Import PyDict entry_api.

(** What [read_mapping] returns for one file. *)
Definition Fragment : Type :=
(string * list string * list string * Mapping)%type.

Definition fragment_name (r : Fragment) : string := fst (fst (fst r)).
Definition fragment_mapping (r : Fragment) : Mapping := snd r.

(** The dictionary of the mappings when it holds the fragments
  [by_name], all from [universal] to [martini22]; it is empty as long as
  no file has been read. *)
Definition shape (by_name : option (list (string * Mapping))) : Mappings :=
match by_name with
| None => []
| Some fragments => [("universal", [("martini22", fragments)])]
end.

Definition record (by_name : option (list (string * Mapping))) (r : Fragment)
  : option (list (string * Mapping)) :=
Some (dict_set match by_name with Some fragments => fragments | None => [] end
               (fragment_name r) (fragment_mapping r)).

(** The last fragment of the name [nm] among [results]. *)
Definition last_named (results : list Fragment) (nm : string)
  : option Fragment :=
find (fun r => String.eqb (fragment_name r) nm) (rev results).

End Dirs.

(* ================================================================== *)
(** ** Concrete mapping files *)
(* ================================================================== *)

Module Files.

Local Open Scope string_scope.

Definition nl : string := String "010"%char EmptyString.

(** A mapping file for alanine, in three parts: a comment, the section
  of the name, an empty line, and the other sections. *)
Definition ala_title : string := "; backward mapping" ++ nl.

Definition ala_head : list string :=
["[ molecule ]" ++ nl; "ALA ; alanine" ++ nl].

Definition ala_tail : list string :=
["[ martini ]" ++ nl; "BB" ++ nl; "[ atoms ]" ++ nl;
 "  1   N   BB" ++ nl; "  2  CA   BB ; shared" ++ nl].

Definition ala_map : list string :=
(ala_title :: ala_head ++ nl :: ala_tail)%list.

(** Lines without content, a name out of any section, and a section
  whose bracket is left open. *)
Definition nothing : list string := [nl; "; nothing here" ++ nl].

Definition stray_name : string := "ALA" ++ nl.

Definition open_bracket : string := "[ atoms" ++ nl.

End Files.

(* ================================================================== *)
(** ** forcefield.py: the repository of force fields *)
(* ================================================================== *)

(** [posixpath]: the three functions [forcefield.py] calls, on paths held
  as strings. *)
Module PosixPath.

Local Open Scope string_scope.

Definition startswith_sep (p : string) : bool :=
match p with
| String "/" _ => true
| _ => false
end.

Definition endswith_sep (p : string) : bool :=
match PyStr.last p with
| Some "/"%char => true
| _ => false
end.

(** [os.path.join(a, b)]. *)
Definition join (a b : string) : string :=
if startswith_sep b then b
else match a with
     | EmptyString => b
     | _ => if endswith_sep a then a ++ b else a ++ "/" ++ b
     end.

(** [os.path.basename(p)]: what follows the last separator. *)
Fixpoint basename_from (kept : string) (p : string) : string :=
match p with
| EmptyString => kept
| String c rest =>
    if Ascii.eqb c "/" then basename_from rest rest
    else basename_from kept rest
end.

Definition basename (p : string) : string := basename_from p p.

(** Whether [p] has a separator. *)
Fixpoint has_sep (p : string) : bool :=
match p with
| EmptyString => false
| String c rest => Ascii.eqb c "/" || has_sep rest
end.

(** What follows the last dot of [s], the dot included, and whether a
  character that is no dot comes before that dot. *)
Fixpoint last_dot (seen_other : bool) (s : string) : option (bool * string) :=
match s with
| EmptyString => None
| String c rest =>
    let here := if Ascii.eqb c "." then Some (seen_other, s) else None in
    match last_dot (seen_other || negb (Ascii.eqb c ".")) rest with
    | Some later => Some later
    | None => here
    end
end.

(** [os.path.splitext(p)[-1]]: the extension starts at the last dot of
  the base name, unless that name has only dots before it. *)
Definition splitext_ext (p : string) : string :=
match last_dot false (basename p) with
| Some (true, extension) => extension
| _ => EmptyString
end.

End PosixPath.

Module forcefield.

Import PyDict.

(** The exceptions that matter to [find_force_fields]: [IOError] and its
  subclasses, which it catches, and the others, which it lets pass. *)
Inductive error : Type :=
| IOError (msg : string)
| KeyError (key : string)
| OtherError (what : string).

(** A link, restricted to the attribute read here. *)
Record Link : Type := mkLink {
link_features : list string
}.

(** A force field, restricted to the attributes read here. *)
Record ForceField : Type := mkForceField {
blocks : list (string * Molecule);
links : list Link;
name : string
}.

(** The property [reference_graphs]. *)
Definition reference_graphs (self : ForceField) : list (string * Molecule) :=
blocks self.

(** The property [features]: a set, kept as a list without repetition. *)
Definition features (self : ForceField) : list string :=
nodup string_dec (flat_map link_features (links self)).

(** [has_feature]: [feature in self.features]. *)
Definition has_feature (self : ForceField) (feature : string) : bool :=
existsb (String.eqb feature) (features self).

(** ['An error occured while reading the force field in  "{}".'
     .format(path)] *)
Definition reading_failed (path : string) : string :=
"An error occured while reading the force field in  "
  ++ go_vs_includes.dquote ++ path ++ go_vs_includes.dquote ++ ".".

Section FileSystem.

(** The file system and the parsers, which are not among the sources:
  [os.listdir], [glob.glob], [open] (whether it raises, and what) and the
  two parsers of [FORCE_FIELD_PARSERS], each of which may raise after it
  has changed the force field it fills. *)
Variable listdir : string -> error + list string.
Variable glob : string -> list string.
Variable open_raises : string -> option error.
Variables read_rtp read_ff : string -> ForceField -> option error * ForceField.

(** [iter_force_field_files(directory)], with the extensions in the
  order of the keys of [FORCE_FIELD_PARSERS]. *)
Definition iter_force_field_files (directory : string) : list string :=
flat_map (fun extension => glob (PosixPath.join directory ("*" ++ extension)))
         [".rtp"; ".ff"].

(** The body of the loop of [read_from]: the file is opened, then the
  parser is looked up by the extension. *)
Definition read_source (source : string) (self : ForceField)
  : option error * ForceField :=
let extension := PosixPath.splitext_ext source in
match open_raises source with
| Some e => (Some e, self)
| None =>
    if String.eqb extension ".rtp" then read_rtp source self
    else if String.eqb extension ".ff" then read_ff source self
    else (Some (KeyError extension), self)
end.

Fixpoint read_sources (sources : list string) (self : ForceField)
  : option error * ForceField :=
match sources with
| [] => (None, self)
| source :: rest =>
    match read_source source self with
    | (None, self') => read_sources rest self'
    | (Some e, self') => (Some e, self')
    end
end.

(** [self.read_from(directory)]: the outcome, and the force field as the
  call leaves it. *)
Definition read_from (self : ForceField) (directory : string)
  : option error * ForceField :=
read_sources (iter_force_field_files directory) self.

(** [ForceField(directory)]: when [__init__] raises there is no
  object. *)
Definition new_force_field (directory : string) : error + ForceField :=
match read_from (mkForceField [] [] (PosixPath.basename directory))
                directory with
| (None, self) => inr self
| (Some e, _) => inl e
end.

(** The inner [try] of [find_force_fields]. The force field of a known
  name is changed in place, so the dictionary holds what [read_from]
  left of it whether it raised or not; the force fields of the
  dictionary are taken to be distinct objects. *)
Definition read_into (force_fields : list (string * ForceField))
           (name_ path : string)
  : option error * list (string * ForceField) :=
match dict_get force_fields name_ with
| None =>
    match new_force_field path with
    | inr self => (None, dict_set force_fields name_ self)
    | inl e => (Some e, force_fields)
    end
| Some self =>
    let r := read_from self path in
    (fst r, dict_set force_fields name_ (snd r))
end.

(** One turn of the loop over [os.listdir(directory)]. *)
Definition register (directory : string)
           (force_fields : list (string * ForceField)) (name_ : string)
  : option error * list (string * ForceField) :=
let path := PosixPath.join directory name_ in
match iter_force_field_files path with
| [] => (None, force_fields)
| _ =>
    match read_into force_fields name_ path with
    | (Some (IOError _), force_fields') =>
        (Some (IOError (reading_failed path)), force_fields')
    | r => r
    end
end.

Fixpoint register_all (directory : string) (names : list string)
         (force_fields : list (string * ForceField))
  : option error * list (string * ForceField) :=
match names with
| [] => (None, force_fields)
| name_ :: rest =>
    match register directory force_fields name_ with
    | (None, force_fields') => register_all directory rest force_fields'
    | (Some e, force_fields') => (Some e, force_fields')
    end
end.

(** [find_force_fields(directory, force_fields)]: the outcome, and the
  dictionary as the call leaves it. *)
Definition find_force_fields (directory : string)
           (force_fields : option (list (string * ForceField)))
  : option error * list (string * ForceField) :=
let force_fields := match force_fields with
                    | Some d => d
                    | None => []
                    end in
match listdir directory with
| inl e => (Some e, force_fields)
| inr names => register_all directory names force_fields
end.

End FileSystem.

End forcefield.

(* ================================================================== *)
(** ** Vocabulary for the statements on force fields *)
(* ================================================================== *)

Module Reading.

Import PyDict forcefield.

(** The force field the entry [name_] is read into: the one the
  dictionary holds under that name, or a new one, which bears the base
  name of the path. *)
Definition target (force_fields : list (string * ForceField))
           (name_ path : string) : ForceField :=
match dict_get force_fields name_ with
| Some self => self
| None => mkForceField [] [] (PosixPath.basename path)
end.

(** Reading [source] into [self] raises [e0]: [open] raises it, or the
  parser of the extension does, or there is no parser for the extension
  and [e0] is the [KeyError] of the look-up. *)
Definition raised_by (open_raises : string -> option error)
           (read_rtp read_ff : string -> ForceField
                               -> option error * ForceField)
           (source : string) (self : ForceField) (e0 : error) : Prop :=
open_raises source = Some e0
\/ (open_raises source = None
    /\ ((PosixPath.splitext_ext source = ".rtp"
         /\ fst (read_rtp source self) = Some e0)
        \/ (PosixPath.splitext_ext source = ".ff"
            /\ fst (read_ff source self) = Some e0)
        \/ (PosixPath.splitext_ext source <> ".rtp"
            /\ PosixPath.splitext_ext source <> ".ff"
            /\ e0 = KeyError (PosixPath.splitext_ext source)))).

End Reading.

(* ================================================================== *)
(** ** A concrete directory of force fields *)
(* ================================================================== *)

Module Disk.

Import forcefield.

Local Open Scope string_scope.

(** A directory [ff] with the entries [martini22] (one [.ff] file),
  [notes] (no force field file) and [universal] (one [.rtp] file). *)
Definition listdir (directory : string) : error + list string :=
if String.eqb directory "ff" then inr ["martini22"; "notes"; "universal"]
else inl (IOError "No such file or directory").

Definition glob (pattern : string) : list string :=
if String.eqb pattern "ff/martini22/*.ff" then ["ff/martini22/aminoacids.ff"]
else if String.eqb pattern "ff/universal/*.rtp"
     then ["ff/universal/aminoacids.rtp"]
     else [].

Definition open_raises (source : string) : option error := None.

(** A parser that adds a link with the feature [go], one that cannot
  read its file and one that finds nothing in it. *)
Definition read_ff (source : string) (self : ForceField)
  : option error * ForceField :=
(None, mkForceField (blocks self) (links self ++ [mkLink ["go"]]) (name self)).

Definition read_rtp (source : string) (self : ForceField)
  : option error * ForceField :=
(Some (IOError "Unexpected end of file"), self).

Definition good_rtp (source : string) (self : ForceField)
  : option error * ForceField :=
(None, self).

(** A parser that stumbles on a key it does not know. *)
Definition bad_ff (source : string) (self : ForceField)
  : option error * ForceField :=
(Some (KeyError "resname"), self).

(** The dictionary the directory gives with the parsers that read, and
  what is left of it with the parser that cannot. *)
Definition found : list (string * ForceField) :=
snd (find_force_fields listdir glob open_raises good_rtp read_ff "ff" None).

Definition left_ : list (string * ForceField) :=
snd (find_force_fields listdir glob open_raises read_rtp read_ff "ff" None).

End Disk.

(* ================================================================== *)
(** * Properties *)
(* ================================================================== *)

Unset Implicit Arguments.

(** ** Association lists and optional values *)

Lemma option_eqb_eq {A} (eqb : A -> A -> bool)
    (H : forall a b, eqb a b = true <-> a = b) (x y : option A) :
option_eqb eqb x y = true <-> x = y.
Proof.
destruct x as [a|], y as [b|]; simpl; try (split; congruence).
rewrite H. split; congruence.
Qed.

Lemma assoc_In {A} (k : Z) (l : list (Z * A)) (a : A) :
Graph.assoc k l = Some a -> In k (map fst l).
Proof.
induction l as [|[k' a'] l IH]; simpl; [discriminate|].
destruct (Z.eqb_spec k k'); auto.
Qed.

Lemma In_assoc {A} (k : Z) (l : list (Z * A)) :
In k (map fst l) -> exists a, Graph.assoc k l = Some a.
Proof.
induction l as [|[k' a'] l IH]; simpl; [tauto|].
intros [->|H].
- rewrite Z.eqb_refl. eauto.
- destruct (Z.eqb k k'); eauto.
Qed.

Lemma existsb_Zeqb_In (x : Z) (l : list Z) :
existsb (Z.eqb x) l = true <-> In x l.
Proof.
rewrite existsb_exists. split.
- intros (y & Hy & E). apply Z.eqb_eq in E. now subst.
- intros H. exists x. split; [assumption | apply Z.eqb_refl].
Qed.

Lemma unique_key_value {K V} (l : list (K * V)) (k : K) (a b : V) :
NoDup (map fst l) -> In (k, a) l -> In (k, b) l -> a = b.
Proof.
induction l as [|[k' v] l IH]; simpl; [tauto|].
intros ND Ha Hb. inversion ND as [|? ? Hnotin ND']; subst.
destruct Ha as [Ea|Ha], Hb as [Eb|Hb].
- congruence.
- inversion Ea; subst. exfalso. apply Hnotin.
  change k with (fst (k, b)). now apply in_map.
- inversion Eb; subst. exfalso. apply Hnotin.
  change k with (fst (k, a)). now apply in_map.
- eauto.
Qed.

(** ** Residue grouping *)

Section Residues.

Import Graph make_bonds.

Lemma key_eqb_eq (k1 k2 : ResidueKey) : key_eqb k1 k2 = true <-> k1 = k2.
Proof.
destruct k1 as [[[m1 c1] i1] n1], k2 as [[[m2 c2] i2] n2]. unfold key_eqb.
rewrite !andb_true_iff.
rewrite (option_eqb_eq Nat.eqb Nat.eqb_eq),
        (option_eqb_eq String.eqb String.eqb_eq),
        (option_eqb_eq Z.eqb Z.eqb_eq),
        (option_eqb_eq String.eqb String.eqb_eq).
split.
- intros [[[-> ->] ->] ->]. reflexivity.
- intros E. inversion E. auto.
Qed.

Variable graph : Molecule.

Let groups_ok := groups_ok graph.
Let collect_from := collect_from graph.

Lemma group_add_keys residues key i :
(In key (map fst residues) /\
 map fst (group_add residues key i) = map fst residues) \/
(~ In key (map fst residues) /\
 map fst (group_add residues key i) = map fst residues ++ [key]).
Proof.
induction residues as [|[k s] rest IH]; simpl.
- right. split; [tauto | reflexivity].
- destruct (key_eqb key k) eqn:E.
  + apply key_eqb_eq in E. subst. left. simpl. split; [now left | reflexivity].
  + assert (key <> k) as NE.
    { intros ->. assert (key_eqb k k = true) by now apply key_eqb_eq.
      congruence. }
    simpl. destruct IH as [[Hin Hm]|[Hnin Hm]]; [left | right];
      (split; [|now rewrite Hm]); [tauto|].
    intros [?|?]; [congruence | tauto].
Qed.

Lemma group_add_In residues key i k s :
In (k, s) (group_add residues key i) ->
In (k, s) residues \/
(k = key /\
 forall x, In x s -> x = i \/ exists s0, In (k, s0) residues /\ In x s0).
Proof.
induction residues as [|[k' s'] rest IH]; simpl.
- intros [E|[]]. inversion E; subst. right. split; [reflexivity|].
  intros x [<-|[]]. now left.
- destruct (key_eqb key k') eqn:Ek.
  + apply key_eqb_eq in Ek. subst k'. simpl. intros [E|H]; [|tauto].
    inversion E; subst k s. clear E.
    destruct (existsb (Z.eqb i) s'); [tauto|].
    right. split; [reflexivity|]. intros x Hx.
    apply in_app_or in Hx. destruct Hx as [Hx|[<-|[]]]; [|now left].
    right. exists s'. auto.
  + simpl. intros [E|H]; [tauto|].
    destruct (IH H) as [?|(-> & Hs)]; [tauto|].
    right. split; [reflexivity|]. intros x Hx.
    destruct (Hs x Hx) as [?|(s0 & ? & ?)]; [tauto|].
    right. exists s0. tauto.
Qed.

Lemma group_add_ok residues i a :
node graph i = Some a -> groups_ok residues ->
groups_ok (group_add residues (_residue_key_func a) i).
Proof.
intros Hi [ND Hmem]. split.
- destruct (group_add_keys residues (_residue_key_func a) i)
    as [[_ ->]|[Hnin ->]]; [assumption|].
  apply NoDup_app; [assumption | repeat constructor; simpl; tauto |].
  intros x Hx [<-|[]]. tauto.
- intros k s x Hin Hx.
  destruct (group_add_In _ _ _ _ _ Hin) as [H|(-> & Hs)]; [eauto|].
  destruct (Hs x Hx) as [->|(s0 & H0 & Hx0)]; eauto.
Qed.

Lemma group_add_keeps residues key i k s x :
In (k, s) residues -> In x s ->
exists s', In (k, s') (group_add residues key i) /\ In x s'.
Proof.
induction residues as [|[k' s'] rest IH]; simpl; [tauto|].
intros [E|H] Hx.
- inversion E; subst k' s'. destruct (key_eqb key k).
  + destruct (existsb (Z.eqb i) s);
      eexists; (split; [left; reflexivity|]); auto using in_or_app.
  + exists s. simpl. auto.
- destruct (key_eqb key k').
  + exists s. simpl. auto.
  + destruct (IH H Hx) as (s1 & H1 & H2). exists s1. simpl. auto.
Qed.

Lemma group_add_member residues key i :
exists s, In (key, s) (group_add residues key i) /\ In i s.
Proof.
induction residues as [|[k' s'] rest IH]; simpl.
- exists [i]. simpl. auto.
- destruct (key_eqb key k') eqn:E.
  + apply key_eqb_eq in E. subst k'.
    destruct (existsb (Z.eqb i) s') eqn:Ei.
    * exists s'. simpl. split; [auto|]. now apply existsb_Zeqb_In.
    * exists (s' ++ [i]). simpl. split; [auto|].
      apply in_or_app. simpl. auto.
  + destruct IH as (s & H1 & H2). exists s. simpl. auto.
Qed.

Lemma collect_from_ok todo : forall residues,
groups_ok residues -> groups_ok (collect_from todo residues).
Proof.
induction todo as [|i todo IH]; intros residues Hok; simpl; [assumption|].
apply IH. destruct (node graph i) eqn:Hi; [|assumption].
now apply group_add_ok.
Qed.

Lemma collect_from_keeps todo : forall residues k s x,
In (k, s) residues -> In x s ->
exists s', In (k, s') (collect_from todo residues) /\ In x s'.
Proof.
induction todo as [|i todo IH]; intros residues k s x Hin Hx; simpl; [eauto|].
destruct (node graph i) eqn:Hi; [|eauto].
destruct (group_add_keeps residues (_residue_key_func a) i _ _ _ Hin Hx)
  as (s1 & H1 & H2).
eauto.
Qed.

Lemma collect_from_covers todo : forall residues i a,
In i todo -> node graph i = Some a ->
exists s, In (_residue_key_func a, s) (collect_from todo residues) /\ In i s.
Proof.
induction todo as [|j todo IH]; intros residues i a Hin Hi; simpl;
  [contradiction|].
destruct Hin as [->|Hin]; [|eauto].
rewrite Hi.
destruct (group_add_member residues (_residue_key_func a) i) as (s & H1 & H2).
eapply collect_from_keeps; eassumption.
Qed.

End Residues.

(** C6. Two nodes of a graph are put in the same residue group exactly
  when their residue keys (molecule index, chain, residue id, residue
  name) are equal; hence two atoms whose chains differ, or whose
  molecule indices differ, are never in the same group. *)
Theorem collect_residues_groups_by_key
      (graph : Molecule) (i j : Z) (atom_i atom_j : Atom)
      (Hi : Graph.node graph i = Some atom_i)
      (Hj : Graph.node graph j = Some atom_j) :
let grouped :=
  make_bonds.same_group (make_bonds._collect_residues graph) i j in
(grouped <->
 make_bonds._residue_key_func atom_i = make_bonds._residue_key_func atom_j)
/\ (chain atom_i <> chain atom_j -> ~ grouped)
/\ (mol_idx atom_i <> mol_idx atom_j -> ~ grouped).
Proof.
intros grouped.
assert (make_bonds.groups_ok graph (make_bonds._collect_residues graph))
  as [ND Hmem].
{ apply collect_from_ok. split; [constructor | intros ? ? ? []]. }
assert (grouped <->
        make_bonds._residue_key_func atom_i
        = make_bonds._residue_key_func atom_j) as Hiff.
{ split.
  - intros (k & s & Hin & His & Hjs).
    destruct (Hmem _ _ _ Hin His) as (a & Ha & Hk).
    destruct (Hmem _ _ _ Hin Hjs) as (b & Hb & Hk').
    congruence.
  - intros Hkey.
    destruct (@collect_from_covers graph (Graph.node_ids graph) [] i _
                (assoc_In _ _ _ Hi) Hi) as (s1 & H1 & Hi1).
    destruct (@collect_from_covers graph (Graph.node_ids graph) [] j _
                (assoc_In _ _ _ Hj) Hj) as (s2 & H2 & Hj2).
    rewrite <- Hkey in H2.
    assert (s1 = s2) by (eapply unique_key_value; eassumption).
    subst s2. exists (make_bonds._residue_key_func atom_i), s1. auto. }
split; [exact Hiff|].
split; intros Hne Hg; apply Hiff in Hg; inversion Hg; contradiction.
Qed.

(** The statement at work: of four atoms that agree on residue id and
  residue name, only the two that also share chain and molecule index
  are grouped. *)
Lemma collect_residues_groups_by_key_witness :
(make_bonds.same_group
   (make_bonds._collect_residues Examples.three_keys) 0 3 <->
 make_bonds._residue_key_func (Examples.keyed (Some 0%nat) "A")
 = make_bonds._residue_key_func (Examples.keyed (Some 0%nat) "A"))
/\ ~ make_bonds.same_group
       (make_bonds._collect_residues Examples.three_keys) 0 1
/\ ~ make_bonds.same_group
       (make_bonds._collect_residues Examples.three_keys) 0 2.
Proof.
split; [|split].
- destruct (@collect_residues_groups_by_key Examples.three_keys 0 3
              (Examples.keyed (Some 0%nat) "A")
              (Examples.keyed (Some 0%nat) "A") eq_refl eq_refl)
    as [H _].
  exact H.
- destruct (@collect_residues_groups_by_key Examples.three_keys 0 1
              (Examples.keyed (Some 0%nat) "A")
              (Examples.keyed (Some 0%nat) "B") eq_refl eq_refl)
    as [_ [H _]].
  apply H. simpl. discriminate.
- destruct (@collect_residues_groups_by_key Examples.three_keys 0 2
              (Examples.keyed (Some 0%nat) "A")
              (Examples.keyed (Some 1%nat) "A") eq_refl eq_refl)
    as [_ [_ H]].
  apply H. simpl. discriminate.
Defined.

(** ** Edges of a graph *)

Section GraphFacts.

Import Graph.

Lemma same_pair_true u v a b :
same_pair u v a b = true <-> (u = a /\ v = b) \/ (u = b /\ v = a).
Proof.
unfold same_pair. rewrite orb_true_iff, !andb_true_iff, !Z.eqb_eq. tauto.
Qed.

Lemma same_pair_shift u v a b x y :
same_pair u v a b = true -> same_pair x y u v = same_pair x y a b.
Proof.
intros H. apply same_pair_true in H.
destruct (same_pair x y u v) eqn:E1, (same_pair x y a b) eqn:E2;
  try reflexivity; exfalso.
- apply same_pair_true in E1.
  assert (same_pair x y a b = true) as C
    by (apply same_pair_true; intuition congruence).
  congruence.
- apply same_pair_true in E2.
  assert (same_pair x y u v = true) as C
    by (apply same_pair_true; intuition congruence).
  congruence.
Qed.

Lemma has_edge_same_pair g u v a b :
same_pair u v a b = true -> has_edge g u v = has_edge g a b.
Proof.
intros H. unfold has_edge. induction (edges g) as [|e es IH]; simpl;
  [reflexivity|].
now rewrite IH, (same_pair_shift _ _ _ _ _ _ H).
Qed.

Lemma node_has_node g n a : node g n = Some a -> has_node g n = true.
Proof.
intros H. apply existsb_Zeqb_In. exact (assoc_In _ _ _ H).
Qed.

Lemma touch_present g n : has_node g n = true -> touch_node g n = g.
Proof. unfold touch_node. now intros ->. Qed.

Lemma edges_touch g n : edges (touch_node g n) = edges g.
Proof. unfold touch_node. now destruct (has_node g n). Qed.

Lemma update_edge_keys es u v d a b :
existsb (fun e => same_pair (fst (fst e)) (snd (fst e)) a b)
        (update_edge es u v d)
= existsb (fun e => same_pair (fst (fst e)) (snd (fst e)) a b) es.
Proof.
induction es as [|[[x y] o] es IH]; simpl; [reflexivity|].
destruct (same_pair x y u v); simpl; now rewrite IH.
Qed.

(** Adding an edge makes its own pair adjacent and changes no other. *)
Lemma has_edge_add_edge g u v d a b :
has_edge (add_edge g u v d) a b = has_edge g a b || same_pair u v a b.
Proof.
unfold add_edge.
set (g1 := touch_node (touch_node g u) v).
assert (edges g1 = edges g) as Eg
  by (unfold g1; now rewrite !edges_touch).
assert (forall x y, has_edge g1 x y = has_edge g x y) as Hg
  by (intros; unfold has_edge; now rewrite Eg).
destruct (has_edge g1 u v) eqn:E; unfold has_edge, set_edges; simpl.
- rewrite update_edge_keys, Eg. fold (has_edge g a b).
  destruct (same_pair u v a b) eqn:S; [|now rewrite orb_false_r].
  rewrite <- (has_edge_same_pair g _ _ _ _ S), <- Hg, E. reflexivity.
- rewrite Eg, existsb_app. simpl. now rewrite orb_false_r.
Qed.

Lemma nodes_add_edge g u v d :
has_node g u = true -> has_node g v = true ->
nodes (add_edge g u v d) = nodes g.
Proof.
intros Hu Hv. unfold add_edge.
rewrite (touch_present _ _ Hu), (touch_present _ _ Hv).
now destruct (has_edge g u v).
Qed.

Lemma frame_add_edge g u v d :
meta (add_edge g u v d) = meta g /\
interactions (add_edge g u v d) = interactions g.
Proof.
unfold add_edge, touch_node.
destruct (has_node g u); simpl;
  match goal with |- context [has_node ?h v] => destruct (has_node h v) end;
  simpl;
  match goal with |- context [has_edge ?h u v] => destruct (has_edge h u v) end;
  simpl; auto.
Qed.

End GraphFacts.

(** ** The distance pass *)

Section DistancePass.

Import Graph make_bonds Plan.

Variable store : Store.

Lemma positions_of_pure graph keys (w : World) :
positions_of store graph keys w = (positions_pure store graph keys, w).
Proof.
induction keys as [|k keys IH]; simpl; [reflexivity|].
unfold bind, position_of, bind, subscript, ret, raise.
destruct (node graph (Z.of_nat k)) as [atom|]; [|reflexivity].
destruct (position atom) as [p|]; [|reflexivity].
rewrite IH. now destruct (positions_pure store graph keys).
Qed.

Lemma bond_pair_verdict idx_to_nodenum non_edges fudge entry (w : World) :
bond_pair idx_to_nodenum non_edges fudge entry w
= apply_verdict (verdict (fst w) idx_to_nodenum non_edges fudge entry) w.
Proof.
destruct entry as [[idx1 idx2] dist], w as [g log].
unfold bond_pair, verdict. destruct (Nat.leb idx2 idx1); [reflexivity|].
unfold bind, subscript, need, the_graph, ret, raise; simpl.
destruct (nth_error idx_to_nodenum idx1) as [n1|]; [|reflexivity].
destruct (nth_error idx_to_nodenum idx2) as [n2|]; [|reflexivity]. simpl.
destruct (node g n1) as [a1|]; [|reflexivity].
destruct (node g n2) as [a2|]; [|reflexivity].
destruct (element a1) as [e1|]; [|reflexivity].
destruct (element a2) as [e2|]; [|reflexivity].
destruct (in_non_edges non_edges n1 n2); [reflexivity|].
destruct (radius e1) as [r1|]; [|reflexivity].
destruct (radius e2) as [r2|]; [|reflexivity]. simpl.
destruct (PrimFloat.leb dist (0.5 * (r1 + r2) * fudge)); simpl;
  [|reflexivity].
destruct (has_edge g n1 n2); reflexivity.
Qed.

(** The pass is the loop over the pairs, unless a position is missing. *)
Lemma bonds_from_distance_plan nodes non_edges fudge (w : World) :
_bonds_from_distance store nodes non_edges fudge w
= match positions_pure store (fst w)
          (seq 0 (List.length (indexed_nodes (fst w) nodes))) with
  | Raise e => (Raise e, w)
  | Return positions =>
      for_each (pairs_of positions fudge)
               (bond_pair (indexed_nodes (fst w) nodes)
                          (effective_non_edges non_edges) fudge) w
  end.
Proof.
unfold _bonds_from_distance, bind at 1, the_graph. simpl.
unfold bind at 1. rewrite positions_of_pure. reflexivity.
Qed.

Lemma verdict_nodes_only g g' idx_to_nodenum non_edges fudge entry :
nodes g = nodes g' ->
verdict g idx_to_nodenum non_edges fudge entry
= verdict g' idx_to_nodenum non_edges fudge entry.
Proof.
intros H. unfold verdict, node. now rewrite H.
Qed.

Lemma verdict_candidate g idx_to_nodenum non_edges fudge entry n1 n2 d :
verdict g idx_to_nodenum non_edges fudge entry = Candidate n1 n2 d ->
has_node g n1 = true /\ has_node g n2 = true /\
in_non_edges non_edges n1 n2 = false /\
In n1 idx_to_nodenum /\ In n2 idx_to_nodenum.
Proof.
destruct entry as [[idx1 idx2] dist]. unfold verdict, need.
destruct (Nat.leb idx2 idx1); [discriminate|].
destruct (nth_error idx_to_nodenum idx1) as [m1|] eqn:E1; [|discriminate].
destruct (nth_error idx_to_nodenum idx2) as [m2|] eqn:E2; [|discriminate].
destruct (node g m1) as [a1|] eqn:N1; [|discriminate].
destruct (node g m2) as [a2|] eqn:N2; [|discriminate].
destruct (element a1) as [e1|]; [|discriminate].
destruct (element a2) as [e2|]; [|discriminate].
destruct (in_non_edges non_edges m1 m2) eqn:NE; [discriminate|].
destruct (radius e1) as [r1|]; [|discriminate].
destruct (radius e2) as [r2|]; [|discriminate].
destruct (PrimFloat.leb dist (0.5 * (r1 + r2) * fudge)); [|discriminate].
intros E. inversion E; subst.
repeat split; eauto using node_has_node, nth_error_In.
Qed.

End DistancePass.

Section PairLoop.

Import Graph make_bonds Plan.

Variables (idx_to_nodenum : list Z) (non_edges : list (Z * Z)).
Variable fudge : float.

Let loop (pairs : list ((nat * nat) * float)) : M World unit :=
for_each pairs (bond_pair idx_to_nodenum non_edges fudge).

(** A property of the graph that survives every bond the loop may add
  survives the loop. *)
Lemma loop_invariant (P : Molecule -> Prop) :
(forall g entry n1 n2 d,
    P g ->
    verdict g idx_to_nodenum non_edges fudge entry = Candidate n1 n2 d ->
    P (add_edge g n1 n2 d)) ->
forall pairs (w : World), P (fst w) -> P (fst (snd (loop pairs w))).
Proof.
intros Hstep pairs. induction pairs as [|entry pairs IH]; intros w Hw;
  [exact Hw|].
unfold loop. simpl. unfold bind. rewrite bond_pair_verdict.
destruct (verdict (fst w) idx_to_nodenum non_edges fudge entry)
  as [|e|n1 n2 d] eqn:V; simpl.
- now apply IH.
- exact Hw.
- destruct (has_edge (fst w) n1 n2); [now apply IH|].
  apply IH. simpl. eapply Hstep; eassumption.
Qed.

Lemma loop_nodes pairs (w : World) :
nodes (fst (snd (loop pairs w))) = nodes (fst w).
Proof.
apply (loop_invariant (fun g => nodes g = nodes (fst w))); [|reflexivity].
intros g entry n1 n2 d Hg V.
destruct (verdict_candidate _ _ _ _ _ _ _ _ V) as (H1 & H2 & _).
now rewrite nodes_add_edge.
Qed.

Lemma loop_frame pairs (w : World) :
meta (fst (snd (loop pairs w))) = meta (fst w) /\
interactions (fst (snd (loop pairs w))) = interactions (fst w).
Proof.
apply (loop_invariant
         (fun g => meta g = meta (fst w) /\
                   interactions g = interactions (fst w))); [|auto].
intros g entry n1 n2 d [Hm Hi] _.
destruct (frame_add_edge g n1 n2 d) as [-> ->]. auto.
Qed.

Lemma loop_monotone pairs (w : World) a b :
has_edge (fst w) a b = true -> has_edge (fst (snd (loop pairs w))) a b = true.
Proof.
intros H.
apply (loop_invariant (fun g => has_edge g a b = true)); [|exact H].
intros g entry n1 n2 d Hg _. now rewrite has_edge_add_edge, Hg.
Qed.

(** A pair of the non-edge set is as adjacent after the loop as before. *)
Lemma loop_non_edges pairs (w : World) a b :
in_non_edges non_edges a b = true ->
has_edge (fst (snd (loop pairs w))) a b = has_edge (fst w) a b.
Proof.
intros Hne.
apply (loop_invariant (fun g => has_edge g a b = has_edge (fst w) a b));
  [|reflexivity].
intros g entry n1 n2 d Hg V.
destruct (verdict_candidate _ _ _ _ _ _ _ _ V) as (_ & _ & Hfree & _).
rewrite has_edge_add_edge, Hg.
destruct (same_pair n1 n2 a b) eqn:S; [|apply orb_false_r].
exfalso. unfold in_non_edges in *.
assert (existsb (fun p => same_pair (fst p) (snd p) n1 n2) non_edges
        = existsb (fun p => same_pair (fst p) (snd p) a b) non_edges) as E.
{ clear -S. induction non_edges as [|p ps IH]; simpl; [reflexivity|].
  now rewrite IH, (same_pair_shift _ _ _ _ _ _ S). }
congruence.
Qed.

(** Run again on a graph with the same nodes and at least the edges the
  first run ended with, the loop ends the same way and changes nothing. *)
Lemma loop_stable pairs : forall (w w' w'' : World) o,
loop pairs w = (o, w') ->
nodes (fst w'') = nodes (fst w) ->
(forall a b, has_edge (fst w') a b = true -> has_edge (fst w'') a b = true) ->
loop pairs w'' = (o, w'').
Proof.
induction pairs as [|entry pairs IH]; intros w w' w'' o Hrun Hnodes Hsub.
- inversion Hrun; subst. reflexivity.
- unfold loop in *. simpl in *. unfold bind in *.
  rewrite bond_pair_verdict in *.
  rewrite (verdict_nodes_only _ _ _ _ _ _ Hnodes).
  destruct (verdict (fst w) idx_to_nodenum non_edges fudge entry)
    as [|e|n1 n2 d] eqn:V; simpl in *.
  + eapply IH; eassumption.
  + inversion Hrun; subst. reflexivity.
  + destruct (verdict_candidate _ _ _ _ _ _ _ _ V) as (H1 & H2 & _).
    assert (has_edge (fst w'') n1 n2 = true) as Hedge.
    { apply Hsub.
      destruct (has_edge (fst w) n1 n2) eqn:E.
      - pose proof (loop_monotone pairs w n1 n2 E) as Hm.
        unfold loop in Hm. now rewrite Hrun in Hm.
      - pose proof (loop_monotone pairs
                      (add_edge (fst w) n1 n2 d,
                       snd w ++ [Debug_guessed_bond n1 n2]) n1 n2) as Hm.
        unfold loop in Hm. rewrite Hrun in Hm. apply Hm. simpl.
        rewrite has_edge_add_edge.
        assert (same_pair n1 n2 n1 n2 = true) as ->
          by (apply same_pair_true; auto).
        apply orb_true_r. }
    rewrite Hedge.
    destruct (has_edge (fst w) n1 n2).
    * eapply IH; eassumption.
    * eapply IH; [eassumption| |assumption].
      simpl. now rewrite nodes_add_edge.
Qed.

End PairLoop.

Section WholePass.

Import Graph make_bonds Plan.

Variable store : Store.
Variables (restriction : option (list Z)) (non_edges : option (list (Z * Z))).
Variable fudge : float.

Let pass : M World unit :=
_bonds_from_distance store restriction non_edges fudge.

Lemma indexed_nodes_nodes_only g g' :
nodes g = nodes g' ->
indexed_nodes g restriction = indexed_nodes g' restriction.
Proof.
intros H.
unfold indexed_nodes, eligible_nodes, effective_nodes, node_ids, node.
now rewrite H.
Qed.

Lemma positions_pure_nodes_only g g' keys :
nodes g = nodes g' ->
positions_pure store g keys = positions_pure store g' keys.
Proof.
intros H. induction keys as [|k keys IH]; simpl; [reflexivity|].
unfold node. now rewrite H, IH.
Qed.

Lemma pass_nodes (w : World) : nodes (fst (snd (pass w))) = nodes (fst w).
Proof.
unfold pass. rewrite bonds_from_distance_plan.
destruct (positions_pure _ _ _); [apply loop_nodes | reflexivity].
Qed.

Lemma pass_frame (w : World) :
meta (fst (snd (pass w))) = meta (fst w) /\
interactions (fst (snd (pass w))) = interactions (fst w).
Proof.
unfold pass. rewrite bonds_from_distance_plan.
destruct (positions_pure _ _ _); [apply loop_frame | auto].
Qed.

Lemma pass_monotone (w : World) a b :
has_edge (fst w) a b = true -> has_edge (fst (snd (pass w))) a b = true.
Proof.
unfold pass. rewrite bonds_from_distance_plan.
destruct (positions_pure _ _ _); [apply loop_monotone | auto].
Qed.

Lemma pass_spares (w : World) a b :
in_non_edges (effective_non_edges non_edges) a b = true ->
has_edge (fst (snd (pass w))) a b = has_edge (fst w) a b.
Proof.
intros H. unfold pass. rewrite bonds_from_distance_plan.
destruct (positions_pure _ _ _); [now apply loop_non_edges | reflexivity].
Qed.

(** A second pass over the result of a first one ends as the first did
  and changes neither the graph nor the log. *)
Lemma pass_idempotent (w : World) :
pass (snd (pass w)) = (fst (pass w), snd (pass w)).
Proof.
pose proof (pass_nodes w) as Hn. unfold pass in *.
rewrite (bonds_from_distance_plan store restriction non_edges fudge
           (snd _)).
rewrite (indexed_nodes_nodes_only _ _ Hn),
        (positions_pure_nodes_only _ _ _ Hn).
rewrite (bonds_from_distance_plan store restriction non_edges fudge w)
  in *.
destruct (positions_pure store (fst w) _) as [positions|e];
  [|reflexivity].
eapply loop_stable.
- apply surjective_pairing.
- exact Hn.
- auto.
Qed.

End WholePass.

(** C2. Whatever the distances are, the geometric pass leaves every
  pair of the non-edge set it is given as it found it: such a pair is an
  edge afterwards only if it was one before, in whichever residues its
  two atoms are. *)
Theorem distance_pass_spares_non_edges
      (store : Store) (restriction : option (list Z))
      (non_edges : list (Z * Z)) (fudge : float) (w : make_bonds.World)
      (a b : Z)
      (Hin : make_bonds.in_non_edges non_edges a b = true) :
Graph.has_edge
  (fst (state_after
          (make_bonds._bonds_from_distance store restriction
                                           (Some non_edges) fudge w)))
  a b
= Graph.has_edge (fst w) a b.
Proof.
unfold state_after.
exact (pass_spares store restriction (Some non_edges) fudge w a b Hin).
Qed.

(** Two carbons 0.1 nm apart are bonded by the pass, and are not when
  their pair is in the non-edge set. *)
Lemma distance_pass_spares_non_edges_witness :
make_bonds.in_non_edges [(1, 0)] 0 1 = true /\
Graph.has_edge
  (fst (state_after
          (make_bonds._bonds_from_distance
             Examples.axis None None 1 (Examples.two_carbons, []))))
  0 1 = true /\
Graph.has_edge
  (fst (state_after
          (make_bonds._bonds_from_distance
             Examples.axis None (Some [(1, 0)]) 1
             (Examples.two_carbons, []))))
  0 1 = false.
Proof.
split; [reflexivity|]. split; [vm_compute; reflexivity|].
rewrite (distance_pass_spares_non_edges
           Examples.axis None [(1, 0)] 1 (Examples.two_carbons, []) 0 1
           eq_refl).
reflexivity.
Defined.

(** ** make_bonds *)

Section MakeBonds.

Import Graph make_bonds.

Variable store : Store.

Lemma group_add_not_empty residues key i : group_add residues key i <> [].
Proof.
destruct residues as [|[k s] rest]; simpl; [discriminate|].
destruct (key_eqb key k); discriminate.
Qed.

Lemma collect_from_not_empty graph todo : forall residues,
residues <> [] -> collect_from graph todo residues <> [].
Proof.
induction todo as [|i todo IH]; intros residues H; simpl; [exact H|].
apply IH. destruct (node graph i); [apply group_add_not_empty | exact H].
Qed.

(** A graph with a node has a residue group. *)
Lemma collect_residues_not_empty graph :
nodes graph <> [] -> _collect_residues graph <> [].
Proof.
unfold _collect_residues, node_ids.
destruct (nodes graph) as [|[n a] rest] eqn:E; [congruence|]. intros _.
simpl. apply collect_from_not_empty.
unfold node. rewrite E. simpl. rewrite Z.eqb_refl. discriminate.
Qed.

Lemma collect_residues_nodes_only g g' :
nodes g = nodes g' -> _collect_residues g = _collect_residues g'.
Proof.
intros H. unfold _collect_residues, collect_from, node_ids, node.
now rewrite H.
Qed.

(** With the name [force_field] unbound, the loop over the residues
  either does nothing or raises at its first turn; the molecule is not
  touched. *)
Lemma name_pass_unbound allow_name allow_dist fudge residue_groups
      non_edges (w : World) :
name_pass module_force_field store allow_name allow_dist fudge
          residue_groups non_edges w
= match residue_groups with
  | [] => (Return non_edges, w)
  | _ => if allow_name then (Raise (NameError "force_field"), w)
         else (Return non_edges, w)
  end.
Proof.
destruct residue_groups as [|[[[[m c] i] r] idxs] rest]; [reflexivity|].
simpl. destruct allow_name; reflexivity.
Qed.

Lemma make_bonds_cases allow_name allow_dist fudge (w : World) :
make_bonds store allow_name allow_dist fudge w
= match _collect_residues (fst w) with
  | _ :: _ =>
      if allow_name then (Raise (NameError "force_field"), w)
      else if allow_dist
           then (fst (_bonds_from_distance store None (Some []) fudge w),
                 snd (_bonds_from_distance store None (Some []) fudge w))
           else (Return tt, w)
  | [] =>
      if allow_dist
      then (fst (_bonds_from_distance store None (Some []) fudge w),
            snd (_bonds_from_distance store None (Some []) fudge w))
      else (Return tt, w)
  end.
Proof.
unfold make_bonds, make_bonds_under, bind at 1, the_graph. simpl.
unfold bind at 1. rewrite name_pass_unbound.
assert (forall c : M World unit,
           bind c (fun _ => ret tt) w = (fst (c w), snd (c w))) as Hc.
{ intros c. unfold bind, ret. destruct (c w) as [[[]|e] w']; reflexivity. }
destruct (_collect_residues (fst w)); destruct allow_name, allow_dist;
  try reflexivity; apply Hc.
Qed.

(** Whatever the switches and however the call ends, [make_bonds] keeps
  the nodes, the metadata, the interactions and every edge of the
  molecule it is given. *)
Lemma make_bonds_only_adds_edges allow_name allow_dist fudge (w : World) :
let w' := state_after (make_bonds store allow_name allow_dist fudge w) in
nodes (fst w') = nodes (fst w) /\
meta (fst w') = meta (fst w) /\
interactions (fst w') = interactions (fst w) /\
forall a b, has_edge (fst w) a b = true -> has_edge (fst w') a b = true.
Proof.
unfold state_after. rewrite make_bonds_cases.
pose proof (pass_nodes store None (Some []) fudge w) as Hn.
pose proof (pass_frame store None (Some []) fudge w) as [Hm Hi].
pose proof (pass_monotone store None (Some []) fudge w) as He.
destruct (_collect_residues (fst w)); destruct allow_name, allow_dist;
  simpl; auto.
Qed.

End MakeBonds.

(** As the module stands, a second run of [make_bonds] on the molecule a
  first run left behind ends as the first one did and changes nothing,
  neither in the molecule nor in the log. *)
Lemma make_bonds_again_changes_nothing
      (store : Store) (allow_name allow_dist : bool) (fudge : float)
      (w : make_bonds.World) :
let first := make_bonds.make_bonds store allow_name allow_dist fudge w in
let second :=
  make_bonds.make_bonds store allow_name allow_dist fudge
                        (state_after first) in
edges (fst (state_after second)) = edges (fst (state_after first))
/\ second = (fst first, state_after first).
Proof.
intros first second.
assert (second = (fst first, state_after first)) as H.
{ unfold second, first, state_after.
  pose proof (pass_nodes store None (Some []) fudge w) as Hn.
  pose proof (pass_idempotent store None (Some []) fudge w) as Hp.
  rewrite (make_bonds_cases store allow_name allow_dist fudge w).
  destruct (make_bonds._collect_residues (fst w)) as [|g gs] eqn:G;
    destruct allow_name, allow_dist; simpl;
    rewrite make_bonds_cases;
    try (rewrite (collect_residues_nodes_only _ _ Hn));
    rewrite G; try reflexivity;
    now rewrite Hp. }
split; [now rewrite H | exact H].
Qed.

(** C4, as the code has it. With name matching switched on and at least
  one atom in the molecule, [make_bonds] does not return the molecule:
  reading the unbound name [force_field] raises [NameError] at the first
  residue, before anything is done to the molecule. *)
Theorem make_bonds_raises_NameError
      (store : Store) (allow_dist : bool) (fudge : float)
      (w : make_bonds.World) (Hatoms : nodes (fst w) <> []) :
make_bonds.make_bonds store true allow_dist fudge w
= (Raise (NameError "force_field"), w).
Proof.
rewrite make_bonds_cases.
pose proof (collect_residues_not_empty _ Hatoms) as H.
destruct (make_bonds._collect_residues (fst w)); [congruence | reflexivity].
Qed.

(** The default call on two carbons. *)
Lemma make_bonds_raises_NameError_witness :
nodes (fst (Examples.two_carbons, @nil make_bonds.LogRecord)) <> [] /\
make_bonds.make_bonds Examples.axis true true 1 (Examples.two_carbons, [])
= (Raise (NameError "force_field"), (Examples.two_carbons, [])).
Proof.
split; [discriminate|].
apply (make_bonds_raises_NameError Examples.axis true 1
         (Examples.two_carbons, [])).
discriminate.
Defined.

(** C3, as the code has it. The residue [RES] of the two carbons is in no
  block of the force field, and the two carbons of the second molecule
  bear the same atom name. As the module stands, neither call falls
  back to distances or reports anything: [NameError] leaves
  [make_bonds], the molecule has no bond and the log no record. Were the
  name [force_field] bound to a force field, the handler would bond the
  carbons by distance, warn, and let the call return, in both cases. *)
Theorem make_bonds_unknown_residue_not_recovered :
make_bonds.make_bonds Examples.axis true true 1 (Examples.two_carbons, [])
= (Raise (NameError "force_field"), (Examples.two_carbons, []))
/\
make_bonds.make_bonds Examples.axis true true 1 (Examples.twin_names, [])
= (Raise (NameError "force_field"), (Examples.twin_names, []))
/\
(let bound :=
   make_bonds.make_bonds_under (Some Examples.no_blocks) Examples.axis
                               true true 1 (Examples.two_carbons, []) in
 fst bound = Return tt
 /\ Graph.has_edge (fst (state_after bound)) 0 1 = true
 /\ snd (state_after bound)
    = [make_bonds.Debug_guessed_bond 0 1;
       make_bonds.Warning_no_name_bonds
         (Some "A") (Some "RES") (Some 1)
         "Residue is not known to force field" true])
/\
(let bound :=
   make_bonds.make_bonds_under (Some Examples.one_block) Examples.axis
                               true true 1 (Examples.twin_names, []) in
 fst bound = Return tt
 /\ Graph.has_edge (fst (state_after bound)) 0 1 = true
 /\ snd (state_after bound)
    = [make_bonds.Debug_guessed_bond 0 1;
       make_bonds.Warning_no_name_bonds
         (Some "A") (Some "RES") (Some 1)
         "Residue has multiple atoms with atom name" true]).
Proof.
split; [vm_compute; reflexivity|].
split; [vm_compute; reflexivity|].
split; cbv zeta; repeat split; vm_compute; reflexivity.
Qed.

(** A second way out of [make_bonds]. The positions are read under the
  keys [0, 1, ...]: on a molecule whose keys start at 1 the distance pass
  raises [KeyError] on the key 0. With name matching off the error leaves
  [make_bonds]; with the name [force_field] bound and the residue
  unknown, it is raised by the handler itself, where nothing catches
  it. *)
Lemma make_bonds_raises_KeyError_on_shifted_keys :
make_bonds.make_bonds Examples.axis false true 1
                      (Examples.carbons_from_one, [])
= (Raise (KeyError "node"), (Examples.carbons_from_one, []))
/\
make_bonds.make_bonds_under (Some Examples.no_blocks) Examples.axis
                            true true 1 (Examples.carbons_from_one, [])
= (Raise (KeyError "node"), (Examples.carbons_from_one, [])).
Proof.
split; vm_compute; reflexivity.
Qed.

(** ** The threshold of the distance pass *)

(** C1, as the code has it. Two departures from the threshold rule.
  First, the positions given to the spatial index are read under the
  enumeration indices [0, 1, ...] used as node keys, not under the keys
  of the indexed nodes: behind a zinc ion, which has no radius, the two
  carbons 1 and 2 are 4.9 nm apart, far above 0.5 * (0.17 + 0.17), and
  are bonded all the same, with the distance between nodes 0 and 1.
  Second, the radius of the query is the largest radius multiplied by
  the fudge factor twice: with a factor of 0.5 two selenium atoms 0.6 nm
  apart are within their threshold of 0.95 nm and are not bonded. *)
Theorem distance_pass_departs_from_threshold :
(let apart := make_bonds.distance (Examples.axis 1%nat) (Examples.axis 2%nat) in
 let after :=
   fst (state_after
          (make_bonds._bonds_from_distance
             Examples.axis None None 1 (Examples.ion_and_carbons, []))) in
 Graph.has_edge Examples.ion_and_carbons 1 2 = false
 /\ make_bonds.radius "C" = Some 0.170%float
 /\ PrimFloat.leb apart (0.5 * (0.170 + 0.170) * 1)%float = false
 /\ Graph.has_edge after 1 2 = true
 /\ edges after
    = [((1, 2),
        Some (make_bonds.distance (Examples.axis 0%nat)
                                  (Examples.axis 1%nat)))])
/\
(let apart := make_bonds.distance (Examples.spread 0%nat)
                                  (Examples.spread 1%nat) in
 let after :=
   fst (state_after
          (make_bonds._bonds_from_distance
             Examples.spread None None 0.5 (Examples.two_seleniums, []))) in
 Graph.has_edge Examples.two_seleniums 0 1 = false
 /\ make_bonds.radius "Se" = Some 1.90%float
 /\ PrimFloat.leb apart (0.5 * (1.90 + 1.90) * 0.5)%float = true
 /\ Graph.has_edge after 0 1 = false).
Proof.
split; cbv zeta; repeat split; vm_compute; reflexivity.
Qed.

(** ** The processor *)

(** C7, as the code has it. Without several processes, [run_system]
  binds the name [system] anew to the fused graph, so the components it
  goes on to compute are stored on that graph: whatever the inherited
  method does with the graph, the system of the caller ends with the
  molecules it came with, annotated with their index, none of them
  bonded, merged or split. *)
Theorem run_system_keeps_the_molecules
      (inherited_on_graph : make_bonds.MakeBonds -> M make_bonds.World unit)
      (store : Store) (self : make_bonds.MakeBonds)
      (w : make_bonds.SystemWorld)
      (Hsequential : make_bonds.several_processes self = false) :
make_bonds.molecules
  (fst (state_after (make_bonds.run_system inherited_on_graph store self w)))
= make_bonds.annotate (make_bonds.molecules (fst w)).
Proof.
unfold state_after, make_bonds.run_system. rewrite Hsequential.
destruct (make_bonds.molecules (fst w)) as [|m ms] eqn:E;
  [simpl; rewrite E; reflexivity|].
destruct (inherited_on_graph self _) as [[[]|e] [fused' log']]; reflexivity.
Qed.

(** Two carbons 0.1 nm apart, one per molecule. Treated as one graph
  they are bonded and make one component, which the log reports; the
  system still holds two molecules without a bond. *)
Lemma run_system_keeps_the_molecules_witness :
make_bonds.several_processes Examples.by_distance = false /\
(let after :=
   state_after (make_bonds.run_system Examples.as_one_molecule
                                      Examples.axis Examples.by_distance
                                      (Examples.two_molecules, [])) in
 make_bonds.molecules (fst after)
 = make_bonds.annotate (make_bonds.molecules Examples.two_molecules)
 /\ map edges (make_bonds.molecules (fst after)) = [[]; []]
 /\ snd after = [make_bonds.Debug_guessed_bond 0 1;
                 make_bonds.Info_molecules 1]).
Proof.
split; [reflexivity|]. cbv zeta. split; [|split].
- apply (run_system_keeps_the_molecules
           Examples.as_one_molecule Examples.axis Examples.by_distance
           (Examples.two_molecules, [])).
  reflexivity.
- vm_compute. reflexivity.
- vm_compute. reflexivity.
Defined.

(** ** Virtual sites *)

Section VirtualSites.

Import Graph go_vs_includes Sites.

Variables (prefix atomname_ : string) (charge_ : Z).

Lemma virtual_site_attrs_complete cg a (m : Molecule) :
has_site_keys a = true ->
exists attrs,
  virtual_site_attrs prefix atomname_ charge_ cg a m = (Return attrs, m)
  /\ resid attrs = resid a /\ resname attrs = resname a
  /\ chain attrs = chain a /\ position attrs = position a.
Proof.
unfold has_site_keys, virtual_site_attrs, bind, subscript, ret.
destruct (resid a), (resname a), (chain a), (position a); try discriminate.
intros _. eexists. split; [reflexivity|]. simpl. auto.
Qed.

(** The loop yields one site and one interaction per backbone atom, under
  keys that grow by one from the largest key of the molecule. *)
Lemma collect_virtual_sites_spec todo :
forall id cg acc_nodes acc_sites (m : Molecule),
forallb (fun na => has_site_keys (snd na))
        (filter (fun na => is_backbone "BB" (snd na)) todo) = true ->
exists sites new,
  collect_virtual_sites prefix "BB" atomname_ charge_ todo id cg
                        acc_nodes acc_sites m
  = (Return (acc_nodes ++ sites, acc_sites ++ new), m)
  /\ Forall2 shares (filter (fun na => is_backbone "BB" (snd na)) todo) sites
  /\ Forall2 (fun bs i => ties (fst bs) (snd bs) i)
             (combine (filter (fun na => is_backbone "BB" (snd na)) todo)
                      sites)
             new
  /\ ascending id (map fst sites).
Proof.
induction todo as [|[node_id atom] todo IH];
  intros id cg acc_nodes acc_sites m Hkeys; simpl in *.
- exists [], []. rewrite !app_nil_r. repeat split; constructor.
- destruct (is_backbone "BB" atom) eqn:B; simpl in *.
  + apply andb_true_iff in Hkeys. destruct Hkeys as [Ha Hrest].
    destruct (virtual_site_attrs_complete (cg + 1) atom m Ha)
      as (attrs & Hattrs & S1 & S2 & S3 & S4).
    unfold bind at 1. rewrite Hattrs.
    destruct (IH (id + 1) (cg + 1) (acc_nodes ++ [(id + 1, attrs)])
                 (acc_sites ++ [virtual_site (id + 1) node_id]) m Hrest)
      as (sites & new & Hrun & Hshare & Hties & Hasc).
    exists ((id + 1, attrs) :: sites), (virtual_site (id + 1) node_id :: new).
    rewrite Hrun, <- !app_assoc. simpl.
    repeat split; try constructor; auto; try lia.
    * unfold shares. simpl. auto.
    * reflexivity.
  + apply IH. exact Hkeys.
Qed.

Lemma fold_max_bounds l : forall acc,
acc <= fold_left Z.max l acc /\
forall x, In x l -> x <= fold_left Z.max l acc.
Proof.
induction l as [|y l IH]; intros acc; simpl.
- split; [lia | tauto].
- destruct (IH (Z.max acc y)) as [H1 H2]. split; [lia|].
  intros x [->|Hx]; [lia | auto].
Qed.

Lemma max_of_upper first others x :
In x (first :: others) -> x <= max_of first others.
Proof.
unfold max_of. destruct (fold_max_bounds others first) as [H1 H2].
intros [->|Hx]; auto.
Qed.

Lemma add_nodes_from_fresh new : forall g below,
ascending below (map fst new) ->
(forall n, In n (node_ids g) -> n <= below) ->
add_nodes_from g new = set_nodes g (nodes g ++ new).
Proof.
induction new as [|[k a] new IH]; intros g below Hasc Hbelow; simpl in *.
- unfold set_nodes. rewrite app_nil_r. now destruct g.
- destruct Hasc as [Hk Hasc].
  unfold add_nodes_from in *. simpl. unfold add_node at 2.
  assert (has_node g k = false) as ->.
  { destruct (has_node g k) eqn:E; [|reflexivity].
    apply existsb_Zeqb_In in E. apply Hbelow in E. lia. }
  rewrite (IH _ k Hasc).
  + unfold set_nodes. simpl. now rewrite <- app_assoc.
  + unfold node_ids, set_nodes. simpl. intros n Hn.
    rewrite map_app in Hn. apply in_app_or in Hn.
    destruct Hn as [Hn|[<-|[]]]; [|simpl; lia].
    apply Hbelow in Hn. lia.
Qed.

Lemma interactions_get_set d k v :
interactions_get (interactions_set d k v) k = Some v.
Proof.
induction d as [|[k' v'] d IH]; simpl.
- now rewrite String.eqb_refl.
- destruct (String.eqb k k') eqn:E; simpl; rewrite E; auto.
Qed.

(** What [add_virtual_sites] does to a molecule whose backbone atoms have
  the keys it reads. *)
Lemma add_virtual_sites_spec (m : Molecule) :
forallb (fun na => has_site_keys (snd na)) (backbone_atoms m) = true ->
exists m' sites new,
  add_virtual_sites prefix "BB" atomname_ charge_ m = (Return tt, m')
  /\ nodes m' = nodes m ++ sites
  /\ edges m' = edges m
  /\ meta m' = meta m
  /\ virtual_sitesn m' = virtual_sitesn m ++ new
  /\ Forall2 shares (backbone_atoms m) sites
  /\ Forall2 (fun bs i => ties (fst bs) (snd bs) i)
             (combine (backbone_atoms m) sites) new.
Proof.
intros Hkeys. unfold add_virtual_sites, bind at 1, get.
destruct (node_ids m) as [|first others] eqn:Ids.
- assert (nodes m = []) as Hnil
    by (unfold node_ids in Ids; now destruct (nodes m)).
  exists m, [], []. unfold backbone_atoms. rewrite Hnil, !app_nil_r. simpl.
  repeat split; constructor.
- destruct (collect_virtual_sites_spec
              (nodes m) (max_of first others)
              match charge_groups m with
              | [] => 0
              | c :: cs => max_of c cs
              end [] [] m Hkeys)
    as (sites & new & Hrun & Hshare & Hties & Hasc).
  simpl in Hrun. unfold bind at 1. rewrite Hrun.
  unfold bind, modify. simpl.
  rewrite (add_nodes_from_fresh sites m (max_of first others) Hasc).
  + eexists _, sites, new. split; [reflexivity|].
    unfold extend_virtual_sitesn, virtual_sitesn. simpl.
    rewrite interactions_get_set.
    repeat split; assumption.
  + intros n Hn. apply max_of_upper. now rewrite <- Ids.
Qed.

End VirtualSites.

Section Includes.

Import go_vs_includes.

Lemma includes_get_set d k v k' :
includes_get (includes_set d k v) k'
= if String.eqb k' k then v else includes_get d k'.
Proof.
induction d as [|[k0 v0] d IH]; simpl; [reflexivity|].
destruct (String.eqb_spec k k0) as [->|Hk]; simpl.
- now destruct (String.eqb k' k0).
- rewrite IH.
  destruct (String.eqb_spec k' k0) as [->|Hk0]; [|reflexivity].
  destruct (String.eqb_spec k0 k); [congruence | reflexivity].
Qed.

Variable moltype_ : string.

Lemma get_add_include includes section s :
includes_get (add_include moltype_ includes section) s
= if String.eqb s section
  then includes_get includes section ++ [include_line moltype_ section]
  else includes_get includes s.
Proof. unfold add_include. apply includes_get_set. Qed.

Lemma fold_add_include_other sections : forall includes s,
~ In s sections ->
includes_get (fold_left (add_include moltype_) sections includes) s
= includes_get includes s.
Proof.
induction sections as [|sec sections IH]; intros includes s Hs; simpl;
  [reflexivity|].
rewrite IH by (simpl in Hs; tauto).
rewrite get_add_include.
destruct (String.eqb_spec s sec); [subst; simpl in Hs; tauto | reflexivity].
Qed.

(** Each configured section gets one line more, at its end. *)
Lemma fold_add_include_one sections : forall includes s,
NoDup sections -> In s sections ->
includes_get (fold_left (add_include moltype_) sections includes) s
= includes_get includes s ++ [include_line moltype_ s].
Proof.
induction sections as [|sec sections IH]; intros includes s ND Hs; simpl;
  [contradiction|].
inversion ND as [|? ? Hnotin ND']; subst.
destruct Hs as [->|Hs].
- rewrite fold_add_include_other by assumption.
  rewrite get_add_include. now rewrite String.eqb_refl.
- rewrite IH by assumption. rewrite get_add_include.
  destruct (String.eqb_spec s sec) as [->|]; [contradiction | reflexivity].
Qed.

End Includes.

(** C8, the scenario as the spec words it, at five backbone beads and
  three others: the pass does not end with 8 atoms and 3 new virtual
  sites. *)
Lemma five_and_three_is_not_eight_atoms :
let after :=
  state_after (go_vs_includes.run_molecule go_vs_includes.default_processor
                                           Examples.five_and_three) in
List.length (Sites.backbone_atoms Examples.five_and_three) = 5%nat
/\ List.length (nodes Examples.five_and_three) = 8%nat
/\ ~ (List.length (nodes after) = 8%nat
      /\ List.length (Sites.virtual_sitesn after) = 3%nat).
Proof.
cbv zeta. split; [reflexivity|]. split; [reflexivity|].
intros [H _]. vm_compute in H. discriminate.
Qed.

(** C8, amended. On a molecule that has a type name and whose backbone
  atoms carry residue id, residue name, chain and position, the pass
  returns and appends one atom per backbone atom, in order, after all
  the atoms there were: each shares residue id, residue name and chain
  with its backbone atom and holds the same position array (the
  attribute is the reference, so an edit of the array shows through
  both). It appends as many virtual-site interactions, each from the
  new atom to its backbone atom, and one include line to each configured
  section. Five backbone beads among eight atoms thus give 13 atoms and 5
  new interactions. *)
Theorem run_molecule_adds_a_site_per_backbone_atom
      (self : go_vs_includes.GoVirtIncludes) (m : Molecule) (name_ : string)
      (Htype : moltype (meta m) = Some name_)
      (Hname : name_ <> EmptyString)
      (Hkeys : forallb (fun na => Sites.has_site_keys (snd na))
                       (Sites.backbone_atoms m) = true)
      (Hsections : NoDup (go_vs_includes.sections self)) :
let result := go_vs_includes.run_molecule self m in
let m' := state_after result in
fst result = Return tt
/\ exists sites new,
     nodes m' = nodes m ++ sites
     /\ Forall2 Sites.shares (Sites.backbone_atoms m) sites
     /\ (forall store : Store,
            map (fun s => option_map store (position (snd s))) sites
            = map (fun b => option_map store (position (snd b)))
                  (Sites.backbone_atoms m))
     /\ Sites.virtual_sitesn m' = Sites.virtual_sitesn m ++ new
     /\ Forall2 (fun bs i => Sites.ties (fst bs) (snd bs) i)
                (combine (Sites.backbone_atoms m) sites) new
     /\ List.length (nodes m')
        = (List.length (nodes m)
           + List.length (Sites.backbone_atoms m))%nat
     /\ List.length new = List.length (Sites.backbone_atoms m)
     /\ forall section,
          In section (go_vs_includes.sections self) ->
          Sites.lines_of m' section
          = Sites.lines_of m section
            ++ [go_vs_includes.include_line name_ section].
Proof.
intros result m'.
destruct (add_virtual_sites_spec name_ "CA" 0 m Hkeys)
  as (m1 & sites & new & Hrun & Hnodes & Hedges & Hmeta & Hvs & Hshare
      & Hties).
assert (result
        = (Return tt,
           go_vs_includes.set_post_section_lines
             m1 (fold_left (go_vs_includes.add_include name_)
                           (go_vs_includes.sections self)
                           match post_section_lines (meta m) with
                           | Some d => d
                           | None => []
                           end))) as Hres.
{ unfold result, go_vs_includes.run_molecule, bind at 1, get.
  rewrite Htype. destruct name_ as [|c rest]; [congruence|].
  unfold bind at 1. rewrite Hrun. unfold bind, get, modify.
  now rewrite Hmeta. }
unfold m', state_after. rewrite Hres. simpl.
pose proof (Forall2_length Hshare) as Hlen.
split; [reflexivity|]. exists sites, new.
split; [exact Hnodes|]. split; [exact Hshare|]. split.
{ intros store. clear -Hshare.
  induction Hshare as [|b s bs ss (_ & _ & _ & Hp) _ IH]; simpl;
    [reflexivity|].
  now rewrite Hp, IH. }
split; [exact Hvs|]. split; [exact Hties|]. split.
{ rewrite Hnodes, length_app. lia. }
split.
{ pose proof (Forall2_length Hties) as Hl.
  rewrite length_combine in Hl. lia. }
intros section Hsec. unfold Sites.lines_of. simpl.
rewrite (fold_add_include_one name_ _ _ _ Hsections Hsec).
now destruct (post_section_lines (meta m)).
Qed.

(** The scenario of five backbone beads and three others. *)
Lemma run_molecule_adds_a_site_per_backbone_atom_witness :
let after :=
  state_after (go_vs_includes.run_molecule go_vs_includes.default_processor
                                           Examples.five_and_three) in
List.length (Sites.backbone_atoms Examples.five_and_three) = 5%nat
/\ List.length (nodes after) = 13%nat
/\ List.length (Sites.virtual_sitesn after) = 5%nat
/\ Sites.lines_of after "exclusions"
   = [go_vs_includes.include_line "molecule_0" "exclusions"].
Proof.
cbv zeta.
destruct (run_molecule_adds_a_site_per_backbone_atom
            go_vs_includes.default_processor Examples.five_and_three
            "molecule_0" eq_refl)
  as (_ & sites & new & _ & _ & _ & Hvs & _ & Hatoms & Hnew & Hlines).
- discriminate.
- reflexivity.
- repeat constructor; simpl; tauto.
- split; [reflexivity|]. split; [exact Hatoms|]. split.
  + rewrite Hvs, length_app, Hnew. reflexivity.
  + apply (Hlines "exclusions"). simpl. auto.
Defined.

(** C9, as the spec words it, at a molecule type without atoms: the pass
  does not leave it as it was, its metadata gain an include line. *)
Lemma run_molecule_marks_a_molecule_without_atoms :
let after :=
  state_after (go_vs_includes.run_molecule go_vs_includes.default_processor
                                           Examples.no_atoms) in
nodes Examples.no_atoms = []
/\ Sites.lines_of Examples.no_atoms "exclusions" = []
/\ Sites.lines_of after "exclusions"
   = [go_vs_includes.include_line "molecule_0" "exclusions"]
/\ after <> Examples.no_atoms.
Proof.
cbv zeta. repeat split; try reflexivity.
intros H. apply (f_equal (fun m => post_section_lines (meta m))) in H.
vm_compute in H. discriminate.
Qed.

(** C9, amended. On a molecule without atoms [add_virtual_sites] changes
  nothing at all, and the pass adds no atom, no edge and no interaction.
  The pass is not a no-op on the metadata: without a type name it raises
  [ValueError] and leaves the molecule alone, with one it returns after
  appending the include line of every configured section. *)
Theorem run_molecule_without_atoms
      (self : go_vs_includes.GoVirtIncludes) (m : Molecule)
      (Hempty : nodes m = []) :
(forall prefix backbone atomname_ charge_,
    go_vs_includes.add_virtual_sites prefix backbone atomname_ charge_ m
    = (Return tt, m))
/\
let result := go_vs_includes.run_molecule self m in
let m' := state_after result in
nodes m' = [] /\ edges m' = edges m /\ interactions m' = interactions m
/\ moltype (meta m') = moltype (meta m)
/\ match moltype (meta m) with
   | None | Some EmptyString =>
       result
       = (Raise (ValueError "The molecule does not have a moltype name."), m)
   | Some name_ =>
       result
       = (Return tt,
          go_vs_includes.set_post_section_lines
            m (fold_left (go_vs_includes.add_include name_)
                         (go_vs_includes.sections self)
                         match post_section_lines (meta m) with
                         | Some d => d
                         | None => []
                         end))
   end.
Proof.
assert (forall prefix backbone atomname_ charge_,
           go_vs_includes.add_virtual_sites prefix backbone atomname_
                                            charge_ m
           = (Return tt, m)) as Hsites.
{ intros. unfold go_vs_includes.add_virtual_sites, bind, get, Graph.node_ids.
  now rewrite Hempty. }
split; [exact Hsites|].
intros result m'.
assert (result
        = match moltype (meta m) with
          | None | Some EmptyString =>
              (Raise (ValueError "The molecule does not have a moltype name."),
               m)
          | Some name_ =>
              (Return tt,
               go_vs_includes.set_post_section_lines
                 m (fold_left (go_vs_includes.add_include name_)
                              (go_vs_includes.sections self)
                              match post_section_lines (meta m) with
                              | Some d => d
                              | None => []
                              end))
          end) as Hres.
{ unfold result, go_vs_includes.run_molecule, bind at 1, get.
  destruct (moltype (meta m)) as [[|c rest]|]; try reflexivity.
  unfold bind at 1. rewrite Hsites. reflexivity. }
unfold m', state_after. rewrite Hres.
destruct (moltype (meta m)) as [[|c rest]|] eqn:T; simpl; rewrite ?T; auto.
Qed.

(** The molecule type without atoms, under the default sections. *)
Lemma run_molecule_without_atoms_witness :
nodes Examples.no_atoms = []
/\ go_vs_includes.add_virtual_sites "molecule_0" "BB" "CA" 0
                                    Examples.no_atoms
   = (Return tt, Examples.no_atoms)
/\ interactions
     (state_after (go_vs_includes.run_molecule
                     go_vs_includes.default_processor Examples.no_atoms))
   = [].
Proof.
destruct (run_molecule_without_atoms go_vs_includes.default_processor
                                     Examples.no_atoms eq_refl)
  as (Hsites & _ & _ & Hinter & _).
split; [reflexivity|]. split; [apply Hsites | exact Hinter].
Defined.

(** ** What the log tells of a run of make_bonds *)

Section Trace.

Import Graph make_bonds Plan.

Variable store : Store.

(** The bonds a distance pass reports join indexed nodes that are not a
  pair of its non-edge set. *)
Lemma loop_log idx_to_nodenum non_edges fudge pairs (w : World) x y :
guessed
  (snd (snd (for_each pairs (bond_pair idx_to_nodenum non_edges fudge) w)))
  x y ->
guessed (snd w) x y \/
(In x idx_to_nodenum /\ In y idx_to_nodenum /\
 in_non_edges non_edges x y = false).
Proof.
revert w. induction pairs as [|entry pairs IH]; intros w H; [now left|].
simpl in H. unfold bind in H. rewrite bond_pair_verdict in H.
destruct (verdict (fst w) idx_to_nodenum non_edges fudge entry)
  as [|e|n1 n2 d] eqn:V; simpl in H.
- now apply IH.
- now left.
- destruct (has_edge (fst w) n1 n2); [now apply IH|].
  apply IH in H. destruct H as [H|H]; [|now right].
  unfold guessed in H. simpl in H. apply in_app_or in H.
  destruct H as [H|[E|[]]]; [now left|].
  inversion E; subst. right.
  destruct (verdict_candidate _ _ _ _ _ _ _ _ V) as (_ & _ & ? & ? & ?).
  auto.
Qed.

Lemma eligible_nodes_sub graph nodes x :
In x (eligible_nodes graph nodes) -> In x nodes.
Proof.
unfold eligible_nodes. intros H. apply filter_In in H.
destruct H as [_ H]. apply andb_true_iff in H.
now apply existsb_Zeqb_In.
Qed.

Lemma pass_log restriction non_edges fudge (w : World) x y :
guessed
  (snd (snd (_bonds_from_distance store restriction non_edges fudge w)))
  x y ->
guessed (snd w) x y \/
(In x (effective_nodes (fst w) restriction) /\
 In y (effective_nodes (fst w) restriction) /\
 in_non_edges (effective_non_edges non_edges) x y = false).
Proof.
rewrite bonds_from_distance_plan.
destruct (positions_pure _ _ _); [|now left].
intros H. apply loop_log in H.
destruct H as [H|(Hx & Hy & Hne)]; [now left | right].
unfold indexed_nodes in *. eauto using eligible_nodes_sub.
Qed.

(** *** The name pass leaves the log alone and records pairs of the
    residue it is given *)

Lemma name_add_In table nm idx k s x :
In (k, s) (name_add table nm idx) -> In x s ->
x = idx \/ exists s0, In (k, s0) table /\ In x s0.
Proof.
induction table as [|[k0 s0] table IH]; simpl.
- intros [E|[]] Hx. inversion E; subst. destruct Hx as [<-|[]]. now left.
- destruct (String.eqb nm k0).
  + intros [E|H] Hx.
    * inversion E; subst.
      destruct (existsb (Z.eqb idx) s0); [right; eauto|].
      apply in_app_or in Hx. destruct Hx as [Hx|[<-|[]]]; [right; eauto|].
      now left.
    * right. eauto.
  + intros [E|H] Hx.
    * inversion E; subst. right. eauto.
    * destruct (IH H Hx) as [?|(s1 & ? & ?)]; [now left | right; eauto].
Qed.

Lemma names_of_spec graph nodes : forall table (w : World),
exists o, names_of graph nodes table w = (o, w) /\
forall table', o = Return table' ->
forall nm s x, In (nm, s) table' -> In x s ->
               In x nodes \/ exists s0, In (nm, s0) table /\ In x s0.
Proof.
induction nodes as [|i nodes IH]; intros table w; simpl.
- eexists. split; [reflexivity|]. intros ? E. inversion E; subst. eauto.
- unfold bind, subscript. destruct (node graph i) as [atom|]; simpl.
  + destruct (IH match atomname atom with
                 | Some nm => name_add table nm i
                 | None => table
                 end w) as (o & Hrun & Hspec).
    exists o. split; [exact Hrun|].
    intros table' E nm s x Hin Hx.
    destruct (Hspec table' E nm s x Hin Hx) as [?|(s0 & H0 & Hx0)];
      [now left; right|].
    destruct (atomname atom) as [nm0|]; [|right; eauto].
    destruct (name_add_In _ _ _ _ _ _ H0 Hx0) as [->|?]; [left; now left|].
    now right.
  + eexists. split; [reflexivity|]. discriminate.
Qed.

Lemma unique_names_spec table : forall (w : World),
exists o, unique_names table w = (o, w) /\
forall l, o = Return l ->
forall nm idx, In (nm, idx) l -> exists s, In (nm, s) table /\ In idx s.
Proof.
induction table as [|[nm0 s0] table IH]; intros w; simpl.
- eexists. split; [reflexivity|]. intros l E. inversion E; subst.
  intros ? ? [].
- destruct s0 as [|i [|j s0]];
    try (eexists; split; [reflexivity | discriminate]).
  unfold bind. destruct (IH w) as (o & Hrun & Hspec). rewrite Hrun.
  destruct o as [others|e].
  + eexists. split; [reflexivity|]. intros l E. inversion E; subst.
    intros nm idx [E'|Hin].
    * inversion E'; subst. exists [idx]. simpl. auto.
    * destruct (Hspec others eq_refl nm idx Hin) as (s & ? & ?).
      exists s. simpl. auto.
  + eexists. split; [reflexivity | discriminate].
Qed.

Lemma name_get_In table nm idx :
name_get table nm = Some idx -> In (nm, idx) table.
Proof.
induction table as [|[k i] table IH]; simpl; [discriminate|].
destruct (String.eqb_spec nm k) as [->|].
- intros E. inversion E. now left.
- auto.
Qed.

Lemma bond_named_log block table edge (w : World) :
snd (snd (bond_named store block table edge w)) = snd w.
Proof.
unfold bond_named, block_atomname, position_or_nan, bind, subscript,
  the_graph, mutate, modify, ret, raise.
destruct (node block (fst (fst edge))) as [a1|]; [|reflexivity].
destruct (atomname a1); [|reflexivity].
destruct (node block (snd (fst edge))) as [a2|]; [|reflexivity].
destruct (atomname a2); [|reflexivity].
destruct (name_get table _) as [i|]; [|reflexivity].
destruct (name_get table _) as [j|]; [|reflexivity]. simpl.
destruct (node (fst w) i); [|reflexivity].
destruct (node (fst w) j); reflexivity.
Qed.

Lemma for_each_bond_named_log block table es : forall (w : World),
snd (snd (for_each es (bond_named store block table) w)) = snd w.
Proof.
induction es as [|e es IH]; intros w; [reflexivity|].
simpl. unfold bind.
pose proof (bond_named_log block table e w) as H.
destruct (bond_named store block table e w) as [[[]|x] w1]; simpl in *;
  [|exact H].
now rewrite IH.
Qed.

Lemma named_non_edges_spec block table pairs : forall acc (w : World),
exists o, named_non_edges block table pairs acc w = (o, w) /\
forall found, o = Return found ->
forall a b, In (a, b) found ->
            In (a, b) acc \/
            exists n1 n2, name_get table n1 = Some a /\
                          name_get table n2 = Some b.
Proof.
induction pairs as [|[i j] pairs IH]; intros acc w; simpl.
- eexists. split; [reflexivity|]. intros ? E. inversion E; subst. auto.
- unfold bind, block_atomname, bind, subscript, ret, raise.
  destruct (node block i) as [a1|];
    [|eexists; split; [reflexivity | discriminate]].
  destruct (atomname a1) as [n1|];
    [|eexists; split; [reflexivity | discriminate]].
  destruct (node block j) as [a2|];
    [|eexists; split; [reflexivity | discriminate]].
  destruct (atomname a2) as [n2|];
    [|eexists; split; [reflexivity | discriminate]].
  match goal with
  | |- context [named_non_edges block table pairs ?acc' w] =>
      destruct (IH acc' w) as (o & Hrun & Hspec)
  end.
  exists o. split; [exact Hrun|].
  intros found E a b Hin.
  destruct (Hspec found E a b Hin) as [H|H]; [|now right].
  destruct (name_get table n1) as [x|] eqn:E1; [|now left].
  destruct (name_get table n2) as [y|] eqn:E2; [|now left].
  apply in_app_or in H. destruct H as [H|[H|[]]]; [now left|].
  inversion H; subst. right. eauto.
Qed.

(** [_bonds_from_names] emits nothing, and the pairs it returns are pairs
  of the nodes it was given. *)
Lemma bonds_from_names_spec resname nodes force_field (w : World) :
exists o w',
  _bonds_from_names store resname nodes force_field w = (o, w') /\
  snd w' = snd w /\
  forall found, o = Return found ->
  forall a b, In (a, b) found -> In a nodes /\ In b nodes.
Proof.
unfold _bonds_from_names.
destruct (usable_block _) as [block|];
  [|eexists _, _; split; [reflexivity | split; [reflexivity|discriminate]]].
unfold bind at 1, the_graph. simpl. unfold bind at 1.
destruct (names_of_spec (fst w) nodes [] w) as (o1 & H1 & S1). rewrite H1.
destruct o1 as [table|e];
  [|eexists _, _; split; [reflexivity | split; [reflexivity|discriminate]]].
unfold bind at 1.
destruct (unique_names_spec table w) as (o2 & H2 & S2). rewrite H2.
destruct o2 as [names|e];
  [|eexists _, _; split; [reflexivity | split; [reflexivity|discriminate]]].
unfold bind at 1.
pose proof (for_each_bond_named_log block names (edges block) w) as Hlog.
destruct (for_each (edges block) (bond_named store block names) w)
  as [[[]|e] w1]; simpl in Hlog;
  [|eexists _, _; split; [reflexivity | split; [exact Hlog|discriminate]]].
destruct (named_non_edges_spec block names (nx_non_edges block) [] w1)
  as (o3 & H3 & S3).
rewrite H3. eexists _, _. split; [reflexivity|]. split; [exact Hlog|].
intros found E a b Hin.
destruct (S3 found E a b Hin) as [[]|(n1 & n2 & G1 & G2)].
assert (forall nm idx, name_get names nm = Some idx -> In idx nodes) as Hn.
{ intros nm idx G. apply name_get_In in G.
  destruct (S2 names eq_refl nm idx G) as (s & Hs & Hidx).
  destruct (S1 table eq_refl nm s idx Hs Hidx) as [?|(s0 & [] & _)].
  assumption. }
eauto.
Qed.

(** *** Residue groups share no node *)

Lemma group_add_inhabited residues key i :
(forall k s, In (k, s) residues -> s <> []) ->
forall k s, In (k, s) (group_add residues key i) -> s <> [].
Proof.
induction residues as [|[k0 s0] rest IH]; simpl; intros Hne k s.
- intros [E|[]]. inversion E. discriminate.
- destruct (key_eqb key k0).
  + intros [E|H]; [|eauto]. inversion E; subst.
    destruct (existsb (Z.eqb i) s0); [eauto|].
    destruct s0; discriminate.
  + intros [E|H]; [inversion E; subst; eauto|].
    eapply IH; eauto.
Qed.

Lemma collect_from_inhabited graph todo : forall residues,
(forall k s, In (k, s) residues -> s <> []) ->
forall k s, In (k, s) (collect_from graph todo residues) -> s <> [].
Proof.
induction todo as [|i todo IH]; intros residues Hne; simpl; [exact Hne|].
apply IH. destruct (node graph i); [|exact Hne].
now apply group_add_inhabited.
Qed.

Lemma groups_ok_apart graph groups :
groups_ok graph groups ->
(forall k s, In (k, s) groups -> s <> []) ->
apart groups.
Proof.
induction groups as [|[k s] rest IH]; simpl; [auto|].
intros [ND Hmem] Hne. inversion ND as [|? ? Hnotin ND']; subst.
split; [eapply Hne; eauto|]. split.
- intros x k' s' Hx Hin' Hx'.
  destruct (Hmem k s x (or_introl eq_refl) Hx) as (a & Ha & Hk).
  destruct (Hmem k' s' x (or_intror Hin') Hx') as (a' & Ha' & Hk').
  assert (k = k') as E by congruence.
  apply Hnotin. apply (in_map fst) in Hin'. simpl in Hin'.
  rewrite E. exact Hin'.
- apply IH; [|eauto].
  split; [assumption|]. intros k' s' x Hin. apply Hmem. now right.
Qed.

Lemma collect_residues_apart graph : apart (_collect_residues graph).
Proof.
apply (groups_ok_apart graph).
- apply collect_from_ok. split; [constructor | intros ? ? ? []].
- apply collect_from_inhabited. intros ? ? [].
Qed.

(** *** The handler and the loop over the residues *)

Lemma fall_back_log binding allow_dist fudge key idxs non_edges error
      (w : World) :
idxs <> [] ->
exists o w',
  fall_back binding store allow_dist fudge key idxs non_edges error w
  = (o, w') /\
  (forall found, o = Return found -> found = non_edges) /\
  forall x y, guessed (snd w') x y ->
              guessed (snd w) x y \/ (In x idxs /\ In y idxs).
Proof.
intros Hidxs. unfold fall_back, bind at 1.
assert (forall g, effective_nodes g (Some idxs) = idxs) as Heff
  by (intros; destruct idxs; [congruence | reflexivity]).
assert (exists o1 w1,
           (if allow_dist
            then _bonds_from_distance store (Some idxs) None fudge
            else ret tt) w = (o1, w1) /\
           forall x y, guessed (snd w1) x y ->
                       guessed (snd w) x y \/ (In x idxs /\ In y idxs))
  as (o1 & w1 & Hrun & Hlog).
{ destruct allow_dist.
  - eexists _, _. split; [apply surjective_pairing|].
    intros x y H. apply pass_log in H. rewrite Heff in H. tauto.
  - eexists _, _. split; [reflexivity|]. auto. }
rewrite Hrun. destruct o1 as [[]|e];
  [|eexists _, _; split; [reflexivity|]; split; [discriminate | exact Hlog]].
unfold bind, global_force_field, emit, modify, ret, raise.
destruct binding as [ff|]; simpl;
  [|eexists _, _; split; [reflexivity|]; split; [discriminate | exact Hlog]].
eexists _, _. split; [reflexivity|]. split.
- intros found E. now inversion E.
- simpl. intros x y H. apply Hlog. unfold guessed in *.
  apply in_app_or in H. destruct H as [H|[H|[]]]; [exact H | discriminate].
Qed.

Lemma name_pass_cons binding allow_name allow_dist fudge key idxs rest
      non_edges :
name_pass binding store allow_name allow_dist fudge ((key, idxs) :: rest)
          non_edges
= if negb allow_name then ret non_edges
  else
    bind (try_except_KeyError
            (bind (global_force_field binding) (fun force_field =>
             bind (_bonds_from_names store (snd key) idxs force_field)
                  (fun found => ret (non_edges ++ found))))
            (fall_back binding store allow_dist fudge key idxs non_edges))
         (name_pass binding store allow_name allow_dist fudge rest).
Proof. destruct key as [[[m c] r] n]. reflexivity. Qed.

(** Through the loop, the recorded pairs lie among the nodes [Sn] of the
  residues whose names matched and the reported bonds among the nodes
  [Fn] of the residues that fell back; the two sets never meet. *)
Lemma name_pass_trace binding allow_name allow_dist fudge remaining :
forall non_edges (w : World) Sn Fn,
apart remaining ->
(forall x k s, In x Sn \/ In x Fn -> In (k, s) remaining -> ~ In x s) ->
(forall x, In x Sn -> In x Fn -> False) ->
(forall a b, In (a, b) non_edges -> In a Sn /\ In b Sn) ->
(forall x y, guessed (snd w) x y -> In x Fn /\ In y Fn) ->
exists o w' Sn' Fn',
  name_pass binding store allow_name allow_dist fudge remaining non_edges w
  = (o, w') /\
  (forall x, In x Sn' -> In x Fn' -> False) /\
  (forall found, o = Return found ->
                 forall a b, In (a, b) found -> In a Sn' /\ In b Sn') /\
  (forall x y, guessed (snd w') x y -> In x Fn' /\ In y Fn').
Proof.
induction remaining as [|[key idxs] rest IH];
  intros ne w Sn Fn Hapart Hfresh Hdisj Hne Hlog.
- exists (Return ne), w, Sn, Fn.
  split; [reflexivity|]. split; [exact Hdisj|]. split; [|exact Hlog].
  intros found E a b Hin. inversion E; subst. now apply Hne.
- rewrite name_pass_cons. destruct Hapart as (Hidxs & Hhead & Hrest).
  destruct allow_name; simpl.
  2:{ exists (Return ne), w, Sn, Fn.
      split; [reflexivity|]. split; [exact Hdisj|]. split; [|exact Hlog].
      intros found E a b Hin. inversion E; subst. now apply Hne. }
  assert (forall x k s, In x (Sn ++ idxs) \/ In x (Fn ++ idxs) ->
                        In (k, s) rest -> ~ In x s) as Hfresh'.
  { intros x k s Hx Hin.
    assert (In x idxs \/ (In x Sn \/ In x Fn)) as [H|H]
      by (destruct Hx as [Hx|Hx]; apply in_app_or in Hx; tauto).
    - eapply Hhead; eassumption.
    - apply (Hfresh x k s H). now right. }
  assert (forall x, In x idxs -> In x Sn \/ In x Fn -> False) as Hnew.
  { intros x Hx H. apply (Hfresh x key idxs H); [now left | exact Hx]. }
  unfold bind at 1, try_except_KeyError.
  assert (exists o1 w1,
             bind (global_force_field binding) (fun force_field =>
             bind (_bonds_from_names store (snd key) idxs force_field)
                  (fun found => ret (ne ++ found))) w = (o1, w1) /\
             snd w1 = snd w /\
             forall found, o1 = Return found ->
             forall a b, In (a, b) found ->
                         In a (Sn ++ idxs) /\ In b (Sn ++ idxs))
    as (o1 & w1 & Htry & Hlog1 & Hfound).
  { unfold bind, global_force_field, ret, raise.
    destruct binding as [ff|];
      [|eexists _, _; split; [reflexivity|];
        split; [reflexivity | discriminate]].
    destruct (bonds_from_names_spec (snd key) idxs ff w)
      as (o & w' & Hrun & Hl & Hf).
    rewrite Hrun. destruct o as [found|e];
      [|eexists _, _; split; [reflexivity|];
        split; [exact Hl | discriminate]].
    eexists _, _. split; [reflexivity|]. split; [exact Hl|].
    intros f E a b Hin. inversion E; subst.
    apply in_app_or in Hin. destruct Hin as [H|H].
    - apply Hne in H. destruct H. split; apply in_or_app; auto.
    - apply (Hf found eq_refl) in H. destruct H.
      split; apply in_or_app; auto. }
  rewrite Htry.
  destruct o1 as [found|e].
  + destruct (IH found w1 (Sn ++ idxs) Fn Hrest) as
        (o & w' & Sn' & Fn' & Hrun & H1 & H2 & H3).
    * intros x k s [Hx|Hx]; apply Hfresh'; auto.
      right. apply in_or_app. auto.
    * intros x Hx HF. apply in_app_or in Hx. destruct Hx; eauto.
    * now apply Hfound.
    * now rewrite Hlog1.
    * exists o, w', Sn', Fn'. auto.
  + assert (forall e', exists o w' Sn' Fn',
               (@Raise (list (Z * Z)) e', w1) = (o, w') /\
               (forall x, In x Sn' -> In x Fn' -> False) /\
               (forall found, o = Return found ->
                  forall a b, In (a, b) found -> In a Sn' /\ In b Sn') /\
               (forall x y, guessed (snd w') x y -> In x Fn' /\ In y Fn'))
      as Hstop.
    { intros e'. exists (Raise e'), w1, Sn, Fn.
      split; [reflexivity|]. split; [exact Hdisj|].
      split; [discriminate | now rewrite Hlog1]. }
    destruct e as [msg|nm|msg|attr]; try apply Hstop.
    destruct (fall_back_log binding allow_dist fudge key idxs ne msg w1 Hidxs)
      as (o2 & w2 & Hfb & Hret & Hlog2).
    rewrite Hfb.
    assert (forall x y, guessed (snd w2) x y ->
                        In x (Fn ++ idxs) /\ In y (Fn ++ idxs)) as Hlog'.
    { intros x y H. destruct (Hlog2 x y H) as [H'|[Hx Hy]].
      - rewrite Hlog1 in H'. apply Hlog in H'. destruct H'.
        split; apply in_or_app; auto.
      - split; apply in_or_app; auto. }
    assert (forall x, In x Sn -> In x (Fn ++ idxs) -> False) as Hdisj'.
    { intros x Hx HF. apply in_app_or in HF. destruct HF; eauto. }
    destruct o2 as [found|e2].
    * rewrite (Hret found eq_refl).
      destruct (IH ne w2 Sn (Fn ++ idxs) Hrest) as
          (o & w' & Sn' & Fn' & Hrun & H1 & H2 & H3); auto.
      { intros x k s [Hx|Hx]; apply Hfresh'; auto.
        left. apply in_or_app. auto. }
      exists o, w', Sn', Fn'. auto.
    * exists (Raise e2), w2, Sn, (Fn ++ idxs).
      split; [reflexivity|]. split; [exact Hdisj'|].
      split; [discriminate | exact Hlog'].
Qed.

Lemma in_non_edges_same_pair non_edges x y a b :
same_pair x y a b = true ->
in_non_edges non_edges x y = in_non_edges non_edges a b.
Proof.
intros S. unfold in_non_edges.
induction non_edges as [|p ps IH]; simpl; [reflexivity|].
now rewrite IH, (same_pair_shift _ _ _ _ _ _ S).
Qed.

(** Under any binding of the name [force_field]: when the loop over the
  residues returns a set of recorded pairs, no distance pass of the run,
  neither a fall-back on a residue nor the final one, reports a bond on
  a recorded pair, and the final pass leaves such a pair as the loop
  left it. *)
Lemma make_bonds_spares_recorded_pairs
      binding allow_name allow_dist fudge (m : Molecule) recorded w1 a b :
name_pass binding store allow_name allow_dist fudge
          (_collect_residues m) [] (m, [])
= (Return recorded, w1) ->
in_non_edges recorded a b = true ->
let final :=
  state_after (make_bonds_under binding store allow_name allow_dist fudge
                                (m, [])) in
(forall x y, guessed (snd final) x y -> same_pair x y a b = false)
/\ has_edge (fst final) a b = has_edge (fst w1) a b.
Proof.
intros Hpass Hrec.
destruct (name_pass_trace binding allow_name allow_dist fudge
            (_collect_residues m) [] (m, []) [] []
            (collect_residues_apart m))
  as (o & w' & Sn & Fn & Hrun & Hdisj & Hfound & Hlog);
  try (simpl; tauto).
rewrite Hpass in Hrun. inversion Hrun; subst o w'. clear Hrun.
specialize (Hfound recorded eq_refl).
assert (forall x y, guessed (snd w1) x y -> same_pair x y a b = false)
  as Hbefore.
{ intros x y Hg. destruct (same_pair x y a b) eqn:S; [exfalso|reflexivity].
  unfold in_non_edges in Hrec. apply existsb_exists in Hrec.
  destruct Hrec as ([p q] & Hin & Hpq). simpl in Hpq.
  destruct (Hfound p q Hin) as [Hp Hq].
  destruct (Hlog x y Hg) as [Hx _].
  apply same_pair_true in S. apply same_pair_true in Hpq.
  assert (x = p \/ x = q) as [->| ->] by (destruct S, Hpq; intuition congruence);
    eauto. }
assert (state_after (make_bonds_under binding store allow_name allow_dist
                                      fudge (m, []))
        = if allow_dist
          then snd (_bonds_from_distance store None (Some recorded) fudge w1)
          else w1) as Hfinal.
{ unfold state_after, make_bonds_under, bind at 1, the_graph. simpl.
  unfold bind at 1. rewrite Hpass.
  destruct allow_dist; unfold bind, ret; simpl; [|reflexivity].
  now destruct (_bonds_from_distance store None (Some recorded) fudge w1)
    as [[[]|e] w2]. }
cbv zeta. rewrite Hfinal. destruct allow_dist; [|auto].
split; [|exact (pass_spares store None (Some recorded) fudge w1 a b Hrec)].
intros x y Hg.
destruct (pass_log None (Some recorded) fudge w1 x y Hg)
  as [H|(_ & _ & H)]; [auto|].
destruct (same_pair x y a b) eqn:S; [|reflexivity].
simpl in H. rewrite (in_non_edges_same_pair recorded _ _ _ _ S) in H.
congruence.
Qed.

End Trace.

(** With the name bound to a force field whose block [RES] does not
  bond [CA] and [CG], the two atoms, 0.1 nm apart, stay unbonded, while
  distances alone bond them. *)
Lemma recorded_pair_stays_unbonded :
fst (make_bonds.name_pass (Some Examples.one_block) Examples.axis true true 1
       (make_bonds._collect_residues Examples.unbonded_names) []
       (Examples.unbonded_names, []))
= Return [(0, 1)]
/\ Graph.has_edge
     (fst (state_after
             (make_bonds.make_bonds_under
                (Some Examples.one_block) Examples.axis true true 1
                (Examples.unbonded_names, []))))
     0 1 = false
/\ Graph.has_edge
     (fst (state_after
             (make_bonds.make_bonds_under
                (Some Examples.one_block) Examples.axis false true 1
                (Examples.unbonded_names, []))))
     0 1 = true.
Proof.
repeat split; vm_compute; reflexivity.
Qed.

(** ** Running a computation again *)

Section Replay.

Import Graph make_bonds Plan.

Lemma covers_refl w : covers w w.
Proof. intros a b H. exact H. Qed.

Lemma covers_trans u v w : covers u v -> covers v w -> covers u w.
Proof. intros H1 H2 a b H. apply H1, H2, H. Qed.

Lemma pure_ret {A} (a : A) : Pure (ret a).
Proof. exists (Return a). reflexivity. Qed.

Lemma pure_raise {A} e : Pure (@raise World A e).
Proof. exists (Raise e). reflexivity. Qed.

Lemma pure_subscript {A} what (o : option A) : Pure (subscript what o).
Proof. destruct o; [apply pure_ret | apply pure_raise]. Qed.

Lemma pure_bind {A B} (c : M World A) (k : A -> M World B) :
Pure c -> (forall a, Pure (k a)) -> Pure (bind c k).
Proof.
intros [[a|e] Hc] Hk.
- destruct (Hk a) as [o Ho]. exists o. intros w. unfold bind.
  rewrite Hc. apply Ho.
- exists (Raise e). intros w. unfold bind. now rewrite Hc.
Qed.

Lemma replays_pure {A} (c : M World A) : Pure c -> Replays c.
Proof.
intros [o0 H] w o w' E. rewrite H in E. inversion E; subst.
split; [split; [reflexivity | apply covers_refl]|].
intros u _ _. exists u. rewrite H. auto.
Qed.

Lemma replays_bind {A B} (c : M World A) (k : A -> M World B) :
Replays c -> (forall a, Replays (k a)) -> Replays (bind c k).
Proof.
intros Hc Hk w o w' E. unfold bind in E.
destruct (c w) as [[a|e] w1] eqn:Ec.
- destruct (Hc w _ _ Ec) as [[Hn1 Hcov1] Hrep1].
  destruct (Hk a w1 _ _ E) as [[Hn2 Hcov2] Hrep2].
  split; [split; [congruence | eapply covers_trans; eassumption]|].
  intros u Hu Hcov.
  destruct (Hrep1 u Hu (covers_trans _ _ _ Hcov Hcov2))
    as (u1 & Eu1 & Hnu1 & Heu1 & Hku1).
  destruct (Hrep2 u1) as (u' & Eu' & Hnu' & Heu' & Hku').
  + congruence.
  + intros a0 b0 H. rewrite Heu1. now apply Hcov.
  + exists u'. unfold bind. rewrite Eu1. split; [exact Eu'|].
    split; [congruence|]. split; [|congruence].
    intros a0 b0. now rewrite Heu', Heu1.
- inversion E; subst. destruct (Hc w _ _ Ec) as [Hm Hrep].
  split; [exact Hm|]. intros u Hu Hcov.
  destruct (Hrep u Hu Hcov) as (u' & Eu & Hrest).
  exists u'. unfold bind. rewrite Eu. auto.
Qed.

(** Reading the graph is harmless where only its nodes are used. *)
Lemma replays_with_graph {A} (k : Molecule -> M World A) :
(forall g, Replays (k g)) ->
(forall g g' w, nodes g = nodes g' -> k g w = k g' w) ->
Replays (bind the_graph k).
Proof.
intros Hk Hext w o w' E. unfold bind, the_graph in E. simpl in E.
destruct (Hk (fst w) w o w' E) as [Hm Hrep].
split; [exact Hm|]. intros u Hu Hcov.
destruct (Hrep u Hu Hcov) as (u' & Eu & Hrest).
exists u'. unfold bind, the_graph. simpl.
rewrite (Hext (fst u) (fst w) u Hu). auto.
Qed.

Lemma replays_for_each {A} (body : A -> M World unit) xs :
(forall x, Replays (body x)) -> Replays (for_each xs body).
Proof.
intros Hbody. induction xs as [|x xs IH]; simpl.
- apply replays_pure, pure_ret.
- apply replays_bind; [apply Hbody | intros _; exact IH].
Qed.

Lemma replays_try {A} (c : M World A) (handler : string -> M World A) :
Replays c -> (forall msg, Replays (handler msg)) ->
Replays (try_except_KeyError c handler).
Proof.
intros Hc Hh w o w' E. unfold try_except_KeyError in E.
destruct (c w) as [o1 w1] eqn:Ec.
destruct (Hc w _ _ Ec) as [[Hn1 Hcov1] Hrep1].
assert ((exists msg, o1 = Raise (KeyError msg)) \/
        (forall u1, match o1 with
                    | Raise (KeyError msg) => handler msg u1
                    | _ => (o1, u1)
                    end = (o1, u1))) as [[msg ->]|Hother].
{ destruct o1 as [a|[msg|nm|msg|attr]]; eauto. }
- destruct (Hh msg w1 _ _ E) as [[Hn2 Hcov2] Hrep2].
  split; [split; [congruence | eapply covers_trans; eassumption]|].
  intros u Hu Hcov.
  destruct (Hrep1 u Hu (covers_trans _ _ _ Hcov Hcov2))
    as (u1 & Eu1 & Hnu1 & Heu1 & Hku1).
  destruct (Hrep2 u1) as (u' & Eu' & Hnu' & Heu' & Hku').
  + congruence.
  + intros a0 b0 H. rewrite Heu1. now apply Hcov.
  + exists u'. unfold try_except_KeyError. rewrite Eu1. split; [exact Eu'|].
    split; [congruence|]. split; [|congruence].
    intros a0 b0. now rewrite Heu', Heu1.
- assert ((o, w') = (o1, w1)) as E'.
  { rewrite <- E. destruct o1 as [a|[msg|nm|msg|attr]];
      try reflexivity. apply (Hother w1). }
  inversion E'; subst.
  split; [auto|]. intros u Hu Hcov.
  destruct (Hrep1 u Hu Hcov) as (u' & Eu & Hrest).
  exists u'. unfold try_except_KeyError. rewrite Eu.
  split; [|exact Hrest].
  destruct o1 as [a|[msg|nm|msg|attr]]; try reflexivity. apply (Hother u').
Qed.

Lemma replays_emit r : Replays (emit r).
Proof.
intros w o w' E. unfold emit, modify in E. inversion E; subst. simpl.
split; [split; [reflexivity | intros a b H; exact H]|].
intros u _ _. eexists. split; [reflexivity|]. simpl. auto.
Qed.

Variable store : Store.

(** *** The distance pass *)

Lemma pass_stable restriction non_edges fudge (w u : World) :
nodes (fst u) = nodes (fst w) ->
covers u (snd (_bonds_from_distance store restriction non_edges fudge w)) ->
_bonds_from_distance store restriction non_edges fudge u
= (fst (_bonds_from_distance store restriction non_edges fudge w), u).
Proof.
intros Hu Hcov.
rewrite (bonds_from_distance_plan store restriction non_edges fudge u).
rewrite (bonds_from_distance_plan store restriction non_edges fudge w)
  in *.
rewrite (indexed_nodes_nodes_only restriction _ _ Hu),
        (positions_pure_nodes_only store _ _ _ Hu).
destruct (positions_pure store (fst w) _) as [positions|e];
  [|reflexivity].
eapply loop_stable; [apply surjective_pairing | exact Hu | exact Hcov].
Qed.

Lemma replays_pass restriction non_edges fudge :
Replays (_bonds_from_distance store restriction non_edges fudge).
Proof.
intros w o w' E.
pose proof (pass_nodes store restriction non_edges fudge w) as Hn.
pose proof (pass_monotone store restriction non_edges fudge w) as Hm.
pose proof (pass_stable restriction non_edges fudge w) as Hs.
rewrite E in *. simpl in *.
split; [split; [exact Hn | exact Hm]|].
intros u Hu Hcov. exists u. rewrite (Hs u Hu Hcov). auto.
Qed.

(** *** Bonds from names *)

Lemma update_edge_map_fst es u v d :
map fst (update_edge es u v d) = map fst es.
Proof.
induction es as [|[[x y] o] es IH]; simpl; [reflexivity|].
destruct (same_pair x y u v); simpl; now rewrite IH.
Qed.

(** On an edge that is there, [add_edge] only rewrites the attribute. *)
Lemma add_edge_present g u v d :
has_node g u = true -> has_node g v = true -> has_edge g u v = true ->
nodes (add_edge g u v d) = nodes g /\
map fst (edges (add_edge g u v d)) = map fst (edges g) /\
forall a b, has_edge (add_edge g u v d) a b = has_edge g a b.
Proof.
intros Hu Hv He. split; [now apply nodes_add_edge|]. split.
- unfold add_edge. rewrite (touch_present _ _ Hu), (touch_present _ _ Hv), He.
  simpl. apply update_edge_map_fst.
- intros a b. rewrite has_edge_add_edge.
  destruct (same_pair u v a b) eqn:S; [|apply orb_false_r].
  rewrite <- (has_edge_same_pair g _ _ _ _ S), He. reflexivity.
Qed.

Lemma bond_named_verdict block table edge (w : World) :
bond_named store block table edge w
= apply_named (named_verdict store block table edge (fst w)) w.
Proof.
unfold bond_named, named_verdict, block_atomname, position_or_nan, bind,
  subscript, need, the_graph, mutate, modify, ret, raise.
destruct (node block (fst (fst edge))) as [a1|]; [|reflexivity].
destruct (atomname a1); [|reflexivity].
destruct (node block (snd (fst edge))) as [a2|]; [|reflexivity].
destruct (atomname a2); [|reflexivity].
destruct (name_get table _) as [i|]; [|reflexivity].
destruct (name_get table _) as [j|]; [|reflexivity]. simpl.
destruct (node (fst w) i); [|reflexivity].
destruct (node (fst w) j); reflexivity.
Qed.

Lemma named_verdict_nodes_only block table edge g g' :
nodes g = nodes g' ->
named_verdict store block table edge g
= named_verdict store block table edge g'.
Proof. intros H. unfold named_verdict, node. now rewrite H. Qed.

Lemma named_verdict_candidate block table edge g i j d :
named_verdict store block table edge g = Candidate i j d ->
has_node g i = true /\ has_node g j = true.
Proof.
unfold named_verdict, need.
destruct (node block (fst (fst edge))) as [a1|]; [|discriminate].
destruct (atomname a1); [|discriminate].
destruct (node block (snd (fst edge))) as [a2|]; [|discriminate].
destruct (atomname a2); [|discriminate].
destruct (name_get table _) as [i0|]; [|discriminate].
destruct (name_get table _) as [j0|]; [|discriminate].
destruct (node g i0) eqn:Ni; [|discriminate].
destruct (node g j0) eqn:Nj; [|discriminate].
intros E. inversion E; subst. eauto using node_has_node.
Qed.

Lemma replays_bond_named block table edge :
Replays (bond_named store block table edge).
Proof.
intros w o w' E.
rewrite bond_named_verdict in E.
destruct (named_verdict store block table edge (fst w)) as [|e|i j d] eqn:V;
  simpl in E; inversion E; subst; clear E.
- split; [split; [reflexivity | apply covers_refl]|].
  intros u Hu _. exists u. rewrite bond_named_verdict.
  rewrite (named_verdict_nodes_only block table edge _ _ Hu), V. auto.
- split; [split; [reflexivity | apply covers_refl]|].
  intros u Hu _. exists u. rewrite bond_named_verdict.
  rewrite (named_verdict_nodes_only block table edge _ _ Hu), V. auto.
- destruct (named_verdict_candidate _ _ _ _ _ _ _ V) as [Hi Hj]. simpl.
  split.
  + split; [now apply nodes_add_edge|].
    intros a b H. simpl. rewrite has_edge_add_edge, H. reflexivity.
  + intros u Hu Hcov. rewrite bond_named_verdict.
    rewrite (named_verdict_nodes_only block table edge _ _ Hu), V. simpl.
    assert (has_node (fst u) i = true /\ has_node (fst u) j = true)
      as [Hui Huj]
      by (unfold has_node, node_ids in *; rewrite Hu; auto).
    assert (has_edge (fst u) i j = true) as He.
    { apply Hcov. simpl. rewrite has_edge_add_edge.
      assert (same_pair i j i j = true) as ->
        by (apply same_pair_true; auto).
      apply orb_true_r. }
    destruct (add_edge_present (fst u) i j d Hui Huj He) as (N & K & H).
    eexists. split; [reflexivity|]. simpl. auto.
Qed.

Lemma pure_names_of graph nodes : forall table,
Pure (names_of graph nodes table).
Proof.
induction nodes as [|i nodes IH]; intros table; simpl.
- apply pure_ret.
- apply pure_bind; [apply pure_subscript | intros atom; apply IH].
Qed.

Lemma names_of_nodes_only g g' todo : forall table (w : World),
nodes g = nodes g' ->
names_of g todo table w = names_of g' todo table w.
Proof.
induction todo as [|i todo IH]; intros table w H; simpl; [reflexivity|].
unfold bind, node. rewrite H.
destruct (subscript "node" (assoc i (nodes g')) w) as [[atom|e] w1];
  [|reflexivity].
now apply IH.
Qed.

Lemma pure_unique_names table : Pure (unique_names table).
Proof.
induction table as [|[nm idxs] table IH]; simpl.
- apply pure_ret.
- destruct idxs as [|i [|j idxs]]; try apply pure_raise.
  apply pure_bind; [exact IH | intros others; apply pure_ret].
Qed.

Lemma pure_block_atomname block idx : Pure (block_atomname block idx).
Proof.
unfold block_atomname.
apply pure_bind; [apply pure_subscript | intros atom; apply pure_subscript].
Qed.

Lemma pure_named_non_edges block table pairs : forall acc,
Pure (named_non_edges block table pairs acc).
Proof.
induction pairs as [|[i j] pairs IH]; intros acc; simpl.
- apply pure_ret.
- apply pure_bind; [apply pure_block_atomname | intros n1].
  apply pure_bind; [apply pure_block_atomname | intros n2]. apply IH.
Qed.

Lemma replays_bonds_from_names resname idxs force_field :
Replays (_bonds_from_names store resname idxs force_field).
Proof.
unfold _bonds_from_names.
destruct (usable_block _) as [block|];
  [|apply replays_pure, pure_raise].
apply replays_with_graph.
- intros g.
  apply replays_bind; [apply replays_pure, pure_names_of | intros table].
  apply replays_bind; [apply replays_pure, pure_unique_names | intros names].
  apply replays_bind;
    [apply replays_for_each; intros e; apply replays_bond_named | intros _].
  apply replays_pure, pure_named_non_edges.
- intros g g' w H. unfold bind at 1. unfold bind at 3.
  now rewrite (names_of_nodes_only g g' idxs [] w H).
Qed.

Lemma replays_global_force_field binding :
Replays (global_force_field binding).
Proof.
apply replays_pure. destruct binding; [apply pure_ret | apply pure_raise].
Qed.

Lemma replays_fall_back binding allow_dist fudge key idxs non_edges error :
Replays (fall_back binding store allow_dist fudge key idxs non_edges error).
Proof.
unfold fall_back.
apply replays_bind.
- destruct allow_dist; [apply replays_pass | apply replays_pure, pure_ret].
- intros _. apply replays_bind; [apply replays_global_force_field|].
  intros ff. apply replays_bind; [apply replays_emit|].
  intros _. apply replays_pure, pure_ret.
Qed.

Lemma replays_name_pass binding allow_name allow_dist fudge groups :
forall non_edges,
Replays (name_pass binding store allow_name allow_dist fudge groups
                   non_edges).
Proof.
induction groups as [|[key idxs] rest IH]; intros non_edges.
- apply replays_pure, pure_ret.
- rewrite name_pass_cons.
  destruct allow_name; simpl; [|apply replays_pure, pure_ret].
  apply replays_bind; [|exact IH].
  apply replays_try; [|intros msg; apply replays_fall_back].
  apply replays_bind; [apply replays_global_force_field | intros ff].
  apply replays_bind; [apply replays_bonds_from_names | intros found].
  apply replays_pure, pure_ret.
Qed.

(** [make_bonds] replays, whatever the name [force_field] is bound to. *)
Lemma replays_make_bonds_under binding allow_name allow_dist fudge :
Replays (make_bonds_under binding store allow_name allow_dist fudge).
Proof.
unfold make_bonds_under.
apply replays_with_graph.
- intros g.
  apply replays_bind; [apply replays_name_pass | intros non_edges].
  apply replays_bind; [|intros _; apply replays_pure, pure_ret].
  destruct allow_dist; [apply replays_pass | apply replays_pure, pure_ret].
- intros g g' w H. now rewrite (collect_residues_nodes_only g g' H).
Qed.

End Replay.

(** Under any binding of the name [force_field] and however the call
  ends, [make_bonds] keeps the nodes of the molecule and every edge it
  had. *)
Lemma make_bonds_under_only_adds_edges
      (binding : option make_bonds.ForceField) (store : Store)
      (allow_name allow_dist : bool) (fudge : float) (w : make_bonds.World) :
let w' :=
  state_after (make_bonds.make_bonds_under binding store allow_name
                                           allow_dist fudge w) in
nodes (fst w') = nodes (fst w) /\
forall a b, Graph.has_edge (fst w) a b = true ->
            Graph.has_edge (fst w') a b = true.
Proof.
destruct (replays_make_bonds_under store binding allow_name allow_dist fudge
            w _ _ (surjective_pairing _)) as [[Hn Hc] _].
split; [exact Hn | exact Hc].
Qed.

(** C5. Running [make_bonds] again on the molecule a first run left
  behind gives the same edge set. As the module stands, the second run
  ends as the first one did and changes nothing at all, neither in the
  molecule nor in the log. The edge set is also kept under any binding
  of the name [force_field]: the second run ends as the first, with the
  same nodes and the same edges (the bonds found by name have their
  distance written again). *)
Theorem make_bonds_idempotent
      (store : Store) (allow_name allow_dist : bool) (fudge : float)
      (w : make_bonds.World) :
(let first := make_bonds.make_bonds store allow_name allow_dist fudge w in
 let second :=
   make_bonds.make_bonds store allow_name allow_dist fudge
                         (state_after first) in
 edges (fst (state_after second)) = edges (fst (state_after first))
 /\ second = (fst first, state_after first))
/\
forall binding,
  let first :=
    make_bonds.make_bonds_under binding store allow_name allow_dist fudge w in
  let second :=
    make_bonds.make_bonds_under binding store allow_name allow_dist fudge
                                (state_after first) in
  fst second = fst first
  /\ Plan.edge_keys (state_after second) = Plan.edge_keys (state_after first)
  /\ nodes (fst (state_after second)) = nodes (fst (state_after first))
  /\ forall a b, Graph.has_edge (fst (state_after second)) a b
                 = Graph.has_edge (fst (state_after first)) a b.
Proof.
split; [apply make_bonds_again_changes_nothing|].
intros binding first second. unfold second, state_after.
destruct (replays_make_bonds_under store binding allow_name allow_dist fudge
            w _ _ (surjective_pairing first)) as [[Hn Hc] Hrep].
destruct (Hrep (snd first) Hn (covers_refl _)) as (u' & Eu & Hnu & Heu & Hk).
fold first in Eu. rewrite Eu. simpl. auto.
Qed.

(* ================================================================== *)
(** * Further properties of the two modules *)
(* ================================================================== *)

(** ** The residue groups are a partition *)

Section Partition.

Import Graph make_bonds.

Lemma group_add_nodup residues key i :
(forall k s, In (k, s) residues -> NoDup s) ->
forall k s, In (k, s) (group_add residues key i) -> NoDup s.
Proof.
induction residues as [|[k0 s0] rest IH]; simpl; intros H k s Hin.
- destruct Hin as [E|[]]. inversion E; subst.
  constructor; [intros []|constructor].
- destruct (key_eqb key k0).
  + destruct Hin as [E|Hin]; [|eauto].
    inversion E; subst.
    destruct (existsb (Z.eqb i) s0) eqn:X; [eauto|].
    apply NoDup_app; [eauto | constructor; [intros []|constructor] |].
    intros a Ha [<-|[]].
    apply existsb_Zeqb_In in Ha. congruence.
  + destruct Hin as [E|Hin]; [inversion E; subst; eauto|].
    eapply IH; eauto.
Qed.

Lemma collect_from_nodup graph todo : forall residues,
(forall k s, In (k, s) residues -> NoDup s) ->
forall k s, In (k, s) (collect_from graph todo residues) -> NoDup s.
Proof.
induction todo as [|i todo IH]; intros residues H; [exact H|].
unfold collect_from in *. simpl.
destruct (node graph i) as [a|]; [|now apply IH].
apply IH. now apply group_add_nodup.
Qed.

End Partition.

(** X1. [_collect_residues] partitions the nodes of the graph: no key
  heads two groups; a group is never empty, lists a node once and holds
  nodes of the graph only; every node is in a group; and a node is in one
  group only. *)
Theorem collect_residues_partitions_the_nodes (graph : Molecule) :
let groups := make_bonds._collect_residues graph in
NoDup (map fst groups)
/\ (forall key idxs,
       In (key, idxs) groups ->
       idxs <> [] /\ NoDup idxs /\
       forall i, In i idxs -> In i (Graph.node_ids graph))
/\ (forall i, In i (Graph.node_ids graph) ->
              exists key idxs, In (key, idxs) groups /\ In i idxs)
/\ (forall i key1 idxs1 key2 idxs2,
       In (key1, idxs1) groups -> In (key2, idxs2) groups ->
       In i idxs1 -> In i idxs2 -> key1 = key2 /\ idxs1 = idxs2).
Proof.
intros groups.
assert (make_bonds.groups_ok graph groups) as [Hkeys Hmem].
{ apply collect_from_ok. split; [constructor|]. intros k s x []. }
split; [exact Hkeys|]. split.
{ intros key idxs Hin. split.
  - eapply (collect_from_inhabited graph (Graph.node_ids graph) []);
      [intros k s [] | exact Hin].
  - split.
    + eapply (collect_from_nodup graph (Graph.node_ids graph) []);
        [intros k s [] | exact Hin].
    + intros i Hi. destruct (Hmem _ _ _ Hin Hi) as (a & Ha & _).
      eapply assoc_In. exact Ha. }
split.
{ intros i Hi. destruct (In_assoc _ _ Hi) as [a Ha].
  destruct (collect_from_covers graph (Graph.node_ids graph) [] i a Hi Ha)
    as (s & Hs & His).
  eauto. }
intros i key1 idxs1 key2 idxs2 H1 H2 Hi1 Hi2.
destruct (Hmem _ _ _ H1 Hi1) as (a1 & Ha1 & K1).
destruct (Hmem _ _ _ H2 Hi2) as (a2 & Ha2 & K2).
assert (key1 = key2) as -> by congruence.
split; [reflexivity|].
eapply unique_key_value; eassumption.
Qed.

(** ** What the distance pass adds *)

Section Appends.

Import Graph make_bonds Plan Shape.

Local Open Scope float_scope.

Lemma verdict_candidate_sound g idx_to_nodenum non_edges fudge entry n1 n2 d :
verdict g idx_to_nodenum non_edges fudge entry = Candidate n1 n2 d ->
exists atom1 atom2 element1 element2 r1 r2,
  node g n1 = Some atom1 /\ node g n2 = Some atom2 /\
  element atom1 = Some element1 /\ element atom2 = Some element2 /\
  radius element1 = Some r1 /\ radius element2 = Some r2 /\
  PrimFloat.leb d (0.5 * (r1 + r2) * fudge) = true.
Proof.
destruct entry as [[idx1 idx2] dist]. unfold verdict, need.
destruct (Nat.leb idx2 idx1); [discriminate|].
destruct (nth_error idx_to_nodenum idx1) as [m1|] eqn:E1; [|discriminate].
destruct (nth_error idx_to_nodenum idx2) as [m2|] eqn:E2; [|discriminate].
destruct (node g m1) as [a1|] eqn:N1; [|discriminate].
destruct (node g m2) as [a2|] eqn:N2; [|discriminate].
destruct (element a1) as [e1|] eqn:L1; [|discriminate].
destruct (element a2) as [e2|] eqn:L2; [|discriminate].
destruct (in_non_edges non_edges m1 m2) eqn:NE; [discriminate|].
destruct (radius e1) as [r1|] eqn:R1; [|discriminate].
destruct (radius e2) as [r2|] eqn:R2; [|discriminate].
destruct (PrimFloat.leb dist (0.5 * (r1 + r2) * fudge)) eqn:D; [|discriminate].
intros E. inversion E; subst.
exists a1, a2, e1, e2, r1, r2. auto 10.
Qed.

Lemma add_edge_fresh g u v d :
has_node g u = true -> has_node g v = true -> has_edge g u v = false ->
add_edge g u v d = set_edges g (edges g ++ [((u, v), Some d)]).
Proof.
intros Hu Hv He. unfold add_edge.
rewrite (touch_present g u Hu), (touch_present g v Hv), He. reflexivity.
Qed.

(** The loop over the pairs appends edges and debug records, one record
  per edge, and every edge it appends is a sound bond of the graph [g0]
  the pass started from. *)
Lemma loop_appends g0 idx_to_nodenum non_edges fudge among pairs :
(forall x, In x idx_to_nodenum -> In x among) ->
forall w : World,
nodes (fst w) = nodes g0 ->
(forall a b, has_edge g0 a b = true -> has_edge (fst w) a b = true) ->
exists added,
  edges (fst (snd (for_each pairs
                            (bond_pair idx_to_nodenum non_edges fudge) w)))
  = edges (fst w) ++ added
  /\ Forall (sound_bond g0 among non_edges fudge) added
  /\ snd (snd (for_each pairs
                        (bond_pair idx_to_nodenum non_edges fudge) w))
     = snd w ++ map debug_record added.
Proof.
intros Hsub. induction pairs as [|entry pairs IH]; intros w Hn Hcov.
- exists []. simpl. rewrite !app_nil_r. auto.
- simpl. unfold bind. rewrite bond_pair_verdict.
  destruct (verdict (fst w) idx_to_nodenum non_edges fudge entry)
    as [|e|n1 n2 d] eqn:V; simpl.
  + now apply IH.
  + exists []. simpl. rewrite !app_nil_r. auto.
  + destruct (has_edge (fst w) n1 n2) eqn:E; [now apply IH|].
    destruct (verdict_candidate _ _ _ _ _ _ _ _ V)
      as (H1 & H2 & Hfree & I1 & I2).
    destruct (verdict_candidate_sound _ _ _ _ _ _ _ _ V)
      as (a1 & a2 & e1 & e2 & r1 & r2 & N1 & N2 & L1 & L2 & R1 & R2 & D).
    destruct (IH (add_edge (fst w) n1 n2 d,
                  snd w ++ [Debug_guessed_bond n1 n2]))
      as (added & He & Hs & Hl).
    * simpl. now rewrite nodes_add_edge.
    * intros a b Hab. simpl. rewrite has_edge_add_edge, (Hcov _ _ Hab).
      reflexivity.
    * exists (((n1, n2), Some d) :: added).
      rewrite He, Hl. simpl. rewrite (add_edge_fresh _ _ _ _ H1 H2 E). simpl.
      rewrite <- !app_assoc. simpl. split; [reflexivity|].
      split; [|reflexivity].
      constructor; [|exact Hs].
      exists a1, a2, e1, e2, r1, r2, d. simpl.
      unfold node in *. rewrite <- Hn.
      repeat split; auto.
      destruct (has_edge g0 n1 n2) eqn:E0; [|reflexivity].
      apply Hcov in E0. congruence.
Qed.

End Appends.

(** X2. However it ends, [_bonds_from_distance] keeps the nodes, the
  metadata, the interactions and every edge with its attribute: it only
  appends edges. Each edge it appends joins two nodes of the restriction
  whose elements have a radius, that were not adjacent before and are no
  pair of the non-edge set, and stores a distance that is at most
  [0.5 * (r1 + r2) * fudge] for the radii of its two elements. The log
  gains one debug record per appended edge, in the same order. *)
Theorem distance_pass_appends_sound_bonds
      (store : Store) (restriction : option (list Z))
      (non_edges : option (list (Z * Z))) (fudge : float)
      (w : make_bonds.World) :
let w' :=
  state_after (make_bonds._bonds_from_distance store restriction non_edges
                                               fudge w) in
nodes (fst w') = nodes (fst w)
/\ meta (fst w') = meta (fst w)
/\ interactions (fst w') = interactions (fst w)
/\ exists added,
     edges (fst w') = edges (fst w) ++ added
     /\ Forall (Shape.sound_bond
                  (fst w) (make_bonds.effective_nodes (fst w) restriction)
                  (make_bonds.effective_non_edges non_edges) fudge)
               added
     /\ snd w' = snd w ++ map Shape.debug_record added.
Proof.
intros w'. unfold w', state_after.
split; [apply pass_nodes|].
split; [apply pass_frame|]. split; [apply pass_frame|].
rewrite bonds_from_distance_plan.
destruct (Plan.positions_pure store (fst w) _) as [positions|e].
- apply loop_appends with (g0 := fst w); auto.
  intros x. apply eligible_nodes_sub.
- exists []. simpl. rewrite !app_nil_r. auto.
Qed.

(** ** How the distance pass fails *)

Section Atomic.

Import Graph make_bonds Plan.

Lemma positions_pure_length store g keys ps :
positions_pure store g keys = Return ps -> List.length ps = List.length keys.
Proof.
revert ps. induction keys as [|k keys IH]; simpl; intros ps H.
- now inversion H.
- destruct (node g (Z.of_nat k)) as [atom|]; [|discriminate].
  destruct (position atom) as [p|]; [|discriminate].
  destruct (positions_pure store g keys) as [qs|e]; [|discriminate].
  inversion H; subst. simpl. now rewrite (IH qs).
Qed.

Lemma positions_pure_raise store g keys e :
positions_pure store g keys = Raise e ->
exists k, In k keys /\
  ((node g (Z.of_nat k) = None /\ e = KeyError "node") \/
   (exists atom, node g (Z.of_nat k) = Some atom /\ position atom = None
                 /\ e = KeyError "position")).
Proof.
induction keys as [|k keys IH]; simpl; intros H; [discriminate|].
destruct (node g (Z.of_nat k)) as [atom|] eqn:N.
- destruct (position atom) as [p|] eqn:P.
  + destruct (positions_pure store g keys) as [qs|e'] eqn:Q; [discriminate|].
    inversion H; subst. destruct (IH eq_refl) as (k' & Hk & Hc).
    exists k'. split; [now right|exact Hc].
  + inversion H; subst. exists k. split; [now left|].
    right. exists atom. rewrite N. auto.
- inversion H; subst. exists k. split; [now left|]. left. rewrite N. auto.
Qed.

Lemma enumerate_In {A} (l : list A) i x :
In (i, x) (enumerate l) -> (i < List.length l)%nat /\ nth_error l i = Some x.
Proof.
unfold enumerate.
assert (forall start, In (i, x) (combine (seq start (List.length l)) l) ->
                      (start <= i < start + List.length l)%nat
                      /\ nth_error l (i - start) = Some x) as H.
{ induction l as [|y l IH]; simpl; intros start Hin; [tauto|].
  destruct Hin as [E|Hin].
  - inversion E; subst. rewrite Nat.sub_diag. split; [lia|reflexivity].
  - destruct (IH _ Hin) as [Hr Hn]. split; [lia|].
    replace (i - start)%nat with (S (i - S start)) by lia. exact Hn. }
intros Hin. destruct (H 0%nat Hin) as [Hr Hn].
rewrite Nat.sub_0_r in Hn. split; [lia|exact Hn].
Qed.

Lemma sparse_distance_matrix_In positions max_distance i j d :
In ((i, j), d) (sparse_distance_matrix positions max_distance) ->
exists p q, nth_error positions i = Some p /\ nth_error positions j = Some q
            /\ d = distance p q
            /\ PrimFloat.leb d max_distance = true.
Proof.
unfold sparse_distance_matrix. rewrite in_flat_map.
intros ([i' p] & Hi & Hin). rewrite in_flat_map in Hin.
destruct Hin as ([j' q] & Hj & Hin). simpl in Hin.
destruct (PrimFloat.leb (distance p q) max_distance) eqn:L; [|destruct Hin].
destruct Hin as [E|[]]. inversion E; subst.
apply enumerate_In in Hi, Hj. exists p, q. tauto.
Qed.

Lemma pairs_of_In positions fudge i j d :
In ((i, j), d) (pairs_of positions fudge) ->
(i < List.length positions)%nat /\ (j < List.length positions)%nat.
Proof.
unfold pairs_of. destruct positions as [|p ps]; [intros []|].
intros H. apply sparse_distance_matrix_In in H.
destruct H as (p' & q' & Hi & Hj & _).
split; apply nth_error_Some; congruence.
Qed.

Lemma eligible_nodes_known graph among x :
In x (eligible_nodes graph among) ->
exists atom el r, node graph x = Some atom /\ element atom = Some el
                  /\ radius el = Some r.
Proof.
unfold eligible_nodes. rewrite filter_In. intros [_ H].
apply andb_prop in H. destruct H as [_ H].
destruct (node graph x) as [atom|]; [|discriminate].
unfold known_element in H.
destruct (element atom) as [el|] eqn:L; [|discriminate].
destruct (radius el) as [r|] eqn:R; [|discriminate].
exists atom, el, r. auto.
Qed.

(** A turn of the loop on indices the dictionary has, whose nodes have
  elements with radii, raises nothing. *)
Lemma verdict_in_range g idx_to_nodenum non_edges fudge i j d :
(i < List.length idx_to_nodenum)%nat ->
(j < List.length idx_to_nodenum)%nat ->
(forall x, In x idx_to_nodenum ->
           exists atom el r, node g x = Some atom /\ element atom = Some el
                             /\ radius el = Some r) ->
forall e, verdict g idx_to_nodenum non_edges fudge ((i, j), d) <> Fail e.
Proof.
intros Hi Hj Hknown e. unfold verdict, need.
destruct (Nat.leb j i); [discriminate|].
destruct (nth_error idx_to_nodenum i) as [n1|] eqn:E1;
  [|apply nth_error_None in E1; lia].
destruct (nth_error idx_to_nodenum j) as [n2|] eqn:E2;
  [|apply nth_error_None in E2; lia].
destruct (Hknown n1 (nth_error_In _ _ E1)) as (a1 & e1 & r1 & -> & -> & R1).
destruct (Hknown n2 (nth_error_In _ _ E2)) as (a2 & e2 & r2 & -> & -> & R2).
destruct (in_non_edges non_edges n1 n2); [discriminate|].
rewrite R1, R2.
destruct (PrimFloat.leb d _); discriminate.
Qed.

Lemma loop_returns g0 idx_to_nodenum non_edges fudge pairs :
(forall entry e, In entry pairs ->
                 verdict g0 idx_to_nodenum non_edges fudge entry <> Fail e) ->
forall w : World,
nodes (fst w) = nodes g0 ->
fst (for_each pairs (bond_pair idx_to_nodenum non_edges fudge) w) = Return tt.
Proof.
induction pairs as [|entry pairs IH]; intros Hok w Hn; [reflexivity|].
simpl. unfold bind. rewrite bond_pair_verdict.
rewrite (verdict_nodes_only _ g0 _ _ _ _ Hn).
destruct (verdict g0 idx_to_nodenum non_edges fudge entry)
  as [|e|n1 n2 d] eqn:V; simpl.
- apply IH; [intros; apply Hok; now right | exact Hn].
- exfalso. apply (Hok entry e); [now left | exact V].
- rewrite <- (verdict_nodes_only _ g0 _ _ _ _ Hn) in V.
  destruct (verdict_candidate _ _ _ _ _ _ _ _ V) as (H1 & H2 & _).
  destruct (has_edge (fst w) n1 n2).
  + apply IH; [intros; apply Hok; now right | exact Hn].
  + apply IH; [intros; apply Hok; now right |].
    simpl. now rewrite nodes_add_edge.
Qed.

(** Once the positions are read, the pass returns. *)
Lemma pass_loop_returns store restriction non_edges fudge (w : World)
      positions :
positions_pure store (fst w)
               (seq 0 (List.length (indexed_nodes (fst w) restriction)))
= Return positions ->
fst (for_each (pairs_of positions fudge)
              (bond_pair (indexed_nodes (fst w) restriction)
                         (effective_non_edges non_edges) fudge) w)
= Return tt.
Proof.
intros Hp. apply positions_pure_length in Hp. rewrite length_seq in Hp.
apply loop_returns with (g0 := fst w); [|reflexivity].
intros [[i j] d] e Hin. apply pairs_of_In in Hin. destruct Hin as [Hi Hj].
apply verdict_in_range; try lia.
intros x. apply eligible_nodes_known.
Qed.

End Atomic.

(** X3. [_bonds_from_distance] fails before it bonds. When it raises, it
  has changed neither the graph nor the log, and the exception is a
  [KeyError] from the reading of the positions: for an index [k] below
  the number of eligible nodes, the graph has no node under the key [k],
  or that node has no position. The loop over the pairs raises
  nothing. *)
Theorem distance_pass_fails_before_it_bonds
      (store : Store) (restriction : option (list Z))
      (non_edges : option (list (Z * Z))) (fudge : float)
      (w w' : make_bonds.World) (e : exn)
      (Hraise : make_bonds._bonds_from_distance store restriction non_edges
                                                fudge w
                = (Raise e, w')) :
w' = w
/\ exists k : nat,
     (k < List.length
            (make_bonds.eligible_nodes
               (fst w) (make_bonds.effective_nodes (fst w) restriction)))%nat
     /\ ((Graph.node (fst w) (Z.of_nat k) = None /\ e = KeyError "node")
         \/ (exists atom, Graph.node (fst w) (Z.of_nat k) = Some atom
                          /\ position atom = None
                          /\ e = KeyError "position")).
Proof.
rewrite bonds_from_distance_plan in Hraise.
destruct (Plan.positions_pure store (fst w) _) as [positions|e'] eqn:P.
- pose proof (pass_loop_returns store restriction non_edges fudge w
                                positions P) as R.
  rewrite Hraise in R. discriminate.
- inversion Hraise; subst. split; [reflexivity|].
  destruct (positions_pure_raise _ _ _ _ P) as (k & Hk & Hc).
  exists k. split; [|exact Hc].
  apply in_seq in Hk. unfold Plan.indexed_nodes in Hk. lia.
Qed.

(** Two carbons under the keys 1 and 2: the pass looks for a node 0. *)
Lemma distance_pass_fails_before_it_bonds_witness :
make_bonds._bonds_from_distance Examples.axis None None 1
                                (Examples.carbons_from_one, [])
= (Raise (KeyError "node"), (Examples.carbons_from_one, []))
/\ exists k : nat,
     (k < List.length
            (make_bonds.eligible_nodes
               Examples.carbons_from_one
               (make_bonds.effective_nodes Examples.carbons_from_one None)))%nat
     /\ ((Graph.node Examples.carbons_from_one (Z.of_nat k) = None
          /\ KeyError "node" = KeyError "node")
         \/ (exists atom,
                Graph.node Examples.carbons_from_one (Z.of_nat k) = Some atom
                /\ position atom = None
                /\ KeyError "node" = KeyError "position")).
Proof.
assert (make_bonds._bonds_from_distance Examples.axis None None 1
                                        (Examples.carbons_from_one, [])
        = (Raise (KeyError "node"), (Examples.carbons_from_one, []))) as H
  by (vm_compute; reflexivity).
split; [exact H|].
exact (proj2 (distance_pass_fails_before_it_bonds _ _ _ _ _ _ _ H)).
Defined.

(** X4. When no node of the restriction has an element with a known
  radius, [_bonds_from_distance] returns without reading a position and
  changes nothing, whatever the nodes lack. *)
Theorem distance_pass_without_eligible_atoms
      (store : Store) (restriction : option (list Z))
      (non_edges : option (list (Z * Z))) (fudge : float)
      (w : make_bonds.World)
      (Hnone : forall n atom,
          In n (make_bonds.effective_nodes (fst w) restriction) ->
          Graph.node (fst w) n = Some atom ->
          make_bonds.known_element atom = false) :
make_bonds._bonds_from_distance store restriction non_edges fudge w
= (Return tt, w).
Proof.
rewrite bonds_from_distance_plan.
assert (Plan.indexed_nodes (fst w) restriction = []) as ->.
{ unfold Plan.indexed_nodes, make_bonds.eligible_nodes.
  induction (Graph.node_ids (fst w)) as [|x l IH]; simpl; [reflexivity|].
  destruct (existsb (Z.eqb x) _) eqn:X; simpl; [|exact IH].
  apply existsb_Zeqb_In in X.
  destruct (Graph.node (fst w) x) as [atom|] eqn:N; [|exact IH].
  now rewrite (Hnone x atom X N). }
reflexivity.
Qed.

(** A zinc ion without a position. *)
Lemma distance_pass_without_eligible_atoms_witness :
make_bonds._bonds_from_distance Examples.axis None None 1
                                (Cases.lone_zinc, [])
= (Return tt, (Cases.lone_zinc, [])).
Proof.
apply distance_pass_without_eligible_atoms.
intros n atom _. unfold Graph.node. simpl.
destruct (Z.eqb n 7); [|discriminate].
intros E. inversion E. reflexivity.
Defined.

(** ** The pairs the distance pass bonds *)

Section Exact.

Import Graph make_bonds Plan.

Local Open Scope float_scope.

(** After the loop a pair is adjacent when it was, or when a turn of the
  loop bonds it. *)
Lemma loop_adjacency g0 idx_to_nodenum non_edges fudge pairs a b :
(forall entry e, In entry pairs ->
                 verdict g0 idx_to_nodenum non_edges fudge entry <> Fail e) ->
forall w : World,
nodes (fst w) = nodes g0 ->
has_edge (fst (snd (for_each pairs
                             (bond_pair idx_to_nodenum non_edges fudge) w)))
         a b
= has_edge (fst w) a b
  || existsb (Shape.bonded_by g0 idx_to_nodenum non_edges fudge a b) pairs.
Proof.
induction pairs as [|entry pairs IH]; intros Hok w Hn.
- simpl. now rewrite orb_false_r.
- simpl. unfold bind. rewrite bond_pair_verdict.
  rewrite (verdict_nodes_only _ g0 _ _ _ _ Hn). unfold Shape.bonded_by at 1.
  destruct (verdict g0 idx_to_nodenum non_edges fudge entry)
    as [|e|n1 n2 d] eqn:V; simpl.
  + apply IH; [intros; apply Hok; now right | exact Hn].
  + exfalso. apply (Hok entry e); [now left | exact V].
  + rewrite <- (verdict_nodes_only _ g0 _ _ _ _ Hn) in V.
    destruct (verdict_candidate _ _ _ _ _ _ _ _ V) as (H1 & H2 & _).
    destruct (has_edge (fst w) n1 n2) eqn:E.
    * rewrite IH; [|intros; apply Hok; now right | exact Hn].
      destruct (same_pair n1 n2 a b) eqn:S; [|reflexivity].
      rewrite <- (has_edge_same_pair _ _ _ _ _ S), E. reflexivity.
    * rewrite IH; [|intros; apply Hok; now right
                   |simpl; now rewrite nodes_add_edge].
      simpl. rewrite has_edge_add_edge. now rewrite orb_assoc.
Qed.

Lemma enumerate_complete {A} (l : list A) i x :
nth_error l i = Some x -> In (i, x) (enumerate l).
Proof.
unfold enumerate.
assert (forall start, nth_error l i = Some x ->
                      In ((start + i)%nat, x)
                         (combine (seq start (List.length l)) l)) as H.
{ revert i. induction l as [|y l IH]; intros i start Hn.
  - destruct i; discriminate.
  - destruct i as [|i]; simpl in *.
    + inversion Hn; subst. left. f_equal. lia.
    + right. replace (start + S i)%nat with (S start + i)%nat by lia.
      now apply IH. }
intros Hn. exact (H 0%nat Hn).
Qed.

Lemma sparse_distance_matrix_complete positions max_distance i j p q :
nth_error positions i = Some p -> nth_error positions j = Some q ->
PrimFloat.leb (distance p q) max_distance = true ->
In ((i, j), distance p q) (sparse_distance_matrix positions max_distance).
Proof.
intros Hi Hj L. unfold sparse_distance_matrix. apply in_flat_map.
exists (i, p). split; [now apply enumerate_complete|].
apply in_flat_map. exists (j, q). split; [now apply enumerate_complete|].
simpl. rewrite L. now left.
Qed.

Lemma filter_all {A} (f : A -> bool) (l : list A) :
(forall x, In x l -> f x = true) -> filter f l = l.
Proof.
induction l as [|x l IH]; simpl; intros H; [reflexivity|].
rewrite (H x (or_introl eq_refl)), IH; auto.
Qed.

(** A graph whose keys are [0 .. n-1] in this order, every node with an
  element that has a radius and with a position. *)
Variable store : Store.
Variable g : Molecule.
Variable n : nat.

Hypothesis Hkeys : node_ids g = map Z.of_nat (seq 0 n).
Hypothesis Hatoms : forall k atom,
    node g k = Some atom ->
    known_element atom = true /\ position atom <> None.

Lemma indexed_atom k :
(k < n)%nat ->
exists atom el r p,
  node g (Z.of_nat k) = Some atom /\ element atom = Some el /\
  radius el = Some r /\ position atom = Some p.
Proof.
intros Hk.
assert (In (Z.of_nat k) (node_ids g)) as Hin.
{ rewrite Hkeys. apply in_map. apply in_seq. lia. }
destruct (In_assoc _ _ Hin) as [atom Ha].
destruct (Hatoms _ _ Ha) as [Hel Hp].
unfold known_element in Hel.
destruct (element atom) as [el|] eqn:L; [|discriminate].
destruct (radius el) as [r|] eqn:R; [|discriminate].
destruct (position atom) as [p|] eqn:P; [|congruence].
exists atom, el, r, p. auto.
Qed.

Lemma indexed_all restriction :
restriction = None \/ restriction = Some [] ->
indexed_nodes g restriction = map Z.of_nat (seq 0 n).
Proof.
intros Hr. unfold indexed_nodes.
assert (effective_nodes g restriction = node_ids g) as ->
  by (destruct Hr as [-> | ->]; reflexivity).
unfold eligible_nodes. rewrite <- Hkeys. apply filter_all.
intros x Hx. rewrite (proj2 (existsb_Zeqb_In x _) Hx). simpl.
destruct (In_assoc _ _ Hx) as [atom Ha]. unfold node. rewrite Ha.
apply (Hatoms _ _ Ha).
Qed.

Lemma indexed_positions keys :
(forall k, In k keys -> (k < n)%nat) ->
positions_pure store g keys
= Return (map (fun k => Shape.coordinates store g (Z.of_nat k)) keys).
Proof.
induction keys as [|k keys IH]; intros H; [reflexivity|].
simpl. destruct (indexed_atom k (H k (or_introl eq_refl)))
  as (atom & el & r & p & Ha & _ & _ & Hp).
unfold Shape.coordinates at 1. rewrite Ha, Hp, IH; [reflexivity|].
intros; apply H; now right.
Qed.

Lemma indexed_verdict non_edges fudge i j d :
(i < j < n)%nat ->
verdict g (map Z.of_nat (seq 0 n)) non_edges fudge ((i, j), d)
= if in_non_edges non_edges (Z.of_nat i) (Z.of_nat j) then Skip
  else if PrimFloat.leb d (0.5 * (Shape.radius_of g (Z.of_nat i)
                                  + Shape.radius_of g (Z.of_nat j)) * fudge)
       then Candidate (Z.of_nat i) (Z.of_nat j) d
       else Skip.
Proof.
intros Hij. unfold verdict, need.
destruct (Nat.leb_spec j i); [lia|].
rewrite !nth_error_map, !nth_error_seq.
destruct (Nat.ltb_spec i n); [|lia]. destruct (Nat.ltb_spec j n); [|lia].
simpl.
destruct (indexed_atom i) as (a1 & e1 & r1 & p1 & A1 & L1 & R1 & _); [lia|].
destruct (indexed_atom j) as (a2 & e2 & r2 & p2 & A2 & L2 & R2 & _); [lia|].
unfold Shape.radius_of. rewrite A1, A2, L1, L2, R1, R2.
destruct (in_non_edges _ _ _); reflexivity.
Qed.

Lemma indexed_nth k p :
nth_error (map (fun k => Shape.coordinates store g (Z.of_nat k)) (seq 0 n)) k
= Some p ->
(k < n)%nat /\ p = Shape.coordinates store g (Z.of_nat k).
Proof.
rewrite nth_error_map, nth_error_seq.
destruct (Nat.ltb_spec k n); simpl; [|discriminate].
intros E. inversion E. auto.
Qed.

(** Among the pairs the spatial index returns, one bonds [i] and [j]
  when the pair is no non-edge and passes the two distance tests. *)
Lemma indexed_pairs non_edges fudge i j :
(i < j < n)%nat ->
existsb (Shape.bonded_by g (map Z.of_nat (seq 0 n)) non_edges fudge
                         (Z.of_nat i) (Z.of_nat j))
        (pairs_of (map (fun k => Shape.coordinates store g (Z.of_nat k))
                       (seq 0 n))
                  fudge)
= negb (in_non_edges non_edges (Z.of_nat i) (Z.of_nat j))
  && Shape.within_reach store g fudge (Z.of_nat i) (Z.of_nat j).
Proof.
intros Hij.
set (positions := map (fun k => Shape.coordinates store g (Z.of_nat k))
                      (seq 0 n)).
assert (pairs_of positions fudge
        = sparse_distance_matrix positions (max_radius * fudge * fudge)) as ->.
{ unfold positions. destruct n as [|n']; [lia|]. reflexivity. }
apply eq_true_iff_eq. rewrite existsb_exists. split.
- intros ([[i' j'] d] & Hin & Hb).
  apply sparse_distance_matrix_In in Hin.
  destruct Hin as (p & q & Hp & Hq & Hd & HR).
  apply indexed_nth in Hp, Hq. destruct Hp as [Hi' ->], Hq as [Hj' ->].
  unfold Shape.bonded_by in Hb.
  destruct (Nat.leb_spec j' i') as [Hle|Hlt].
  { unfold verdict in Hb.
    rewrite (proj2 (Nat.leb_le j' i') Hle) in Hb. discriminate. }
  rewrite indexed_verdict in Hb by lia.
  destruct (in_non_edges non_edges (Z.of_nat i') (Z.of_nat j')) eqn:NE;
    [discriminate|].
  destruct (PrimFloat.leb d (0.5 * (Shape.radius_of g (Z.of_nat i')
                                    + Shape.radius_of g (Z.of_nat j'))
                             * fudge)) eqn:T; [|discriminate].
  apply same_pair_true in Hb.
  assert (i' = i /\ j' = j) as [-> ->] by lia.
  rewrite NE. simpl. unfold Shape.within_reach.
  rewrite <- Hd, HR, T. reflexivity.
- intros H. apply andb_prop in H. destruct H as [NE W].
  apply negb_true_iff in NE. unfold Shape.within_reach in W.
  apply andb_prop in W. destruct W as [HR T].
  exists ((i, j),
          distance (Shape.coordinates store g (Z.of_nat i))
                   (Shape.coordinates store g (Z.of_nat j))).
  split.
  + apply sparse_distance_matrix_complete; [| |exact HR];
      unfold positions; rewrite nth_error_map, nth_error_seq.
    * destruct (Nat.ltb_spec i n); [reflexivity|lia].
    * destruct (Nat.ltb_spec j n); [reflexivity|lia].
  + unfold Shape.bonded_by. rewrite indexed_verdict by lia.
    rewrite NE, T. apply same_pair_true. auto.
Qed.

End Exact.

(** X5. On a molecule whose node keys are [0 .. n-1] in this order, each
  node with an element that has a radius and with a position, the
  unrestricted distance pass returns, and two nodes [i < j] are adjacent
  afterwards exactly when they were before, or when the pair is not in
  the non-edge set and the distance between their positions is at most
  [max(VDW_RADII) * fudge * fudge], the radius of the query, and at
  most [0.5 * (r_i + r_j) * fudge]. The spatial index is taken to
  return every pair within the radius of the query. *)
Theorem distance_pass_on_indexed_molecule
      (store : Store) (non_edges : option (list (Z * Z))) (fudge : float)
      (w : make_bonds.World) (n : nat)
      (Hkeys : Graph.node_ids (fst w) = map Z.of_nat (seq 0 n))
      (Hatoms : forall k atom,
          Graph.node (fst w) k = Some atom ->
          make_bonds.known_element atom = true /\ position atom <> None) :
let result := make_bonds._bonds_from_distance store None non_edges fudge w in
fst result = Return tt
/\ forall i j : nat,
     (i < j < n)%nat ->
     Graph.has_edge (fst (state_after result)) (Z.of_nat i) (Z.of_nat j)
     = Graph.has_edge (fst w) (Z.of_nat i) (Z.of_nat j)
       || negb (make_bonds.in_non_edges
                  (make_bonds.effective_non_edges non_edges)
                  (Z.of_nat i) (Z.of_nat j))
          && Shape.within_reach store (fst w) fudge (Z.of_nat i) (Z.of_nat j).
Proof.
intros result. unfold result, state_after.
rewrite bonds_from_distance_plan.
pose proof (pass_loop_returns store None non_edges fudge w) as Hret.
rewrite (indexed_all (fst w) n Hkeys Hatoms None (or_introl eq_refl)) in *.
rewrite length_map, length_seq in *.
rewrite (indexed_positions store (fst w) n Hkeys Hatoms) in *
  by (intros k Hk; apply in_seq in Hk; lia).
split; [now apply Hret|].
intros i j Hij.
rewrite (loop_adjacency (fst w)); [| |reflexivity].
- now rewrite (indexed_pairs store (fst w) n Hkeys Hatoms).
- intros [[i' j'] d] e Hin. apply pairs_of_In in Hin.
  rewrite length_map, length_seq in Hin.
  apply verdict_in_range; rewrite ?length_map, ?length_seq; try lia.
  intros x Hx. apply in_map_iff in Hx. destruct Hx as (k & <- & Hk).
  apply in_seq in Hk.
  destruct (indexed_atom (fst w) n Hkeys Hatoms k) as (a & el & r & p & H);
    [lia|].
  exists a, el, r. tauto.
Qed.

(** Two carbons 0.1 nm apart under the keys 0 and 1 are bonded. *)
Lemma distance_pass_on_indexed_molecule_witness :
Graph.has_edge
  (fst (state_after
          (make_bonds._bonds_from_distance Examples.axis None None 1
                                           (Examples.two_carbons, []))))
  0 1
= true.
Proof.
destruct (distance_pass_on_indexed_molecule
            Examples.axis None 1 (Examples.two_carbons, []) 2 eq_refl)
  as [_ H].
- intros k atom. unfold Graph.node. simpl.
  destruct (Z.eqb k 0);
    [intros E; inversion E; split; [reflexivity|discriminate]|].
  destruct (Z.eqb k 1);
    [intros E; inversion E; split; [reflexivity|discriminate]|].
  discriminate.
- etransitivity;
    [exact (H 0%nat 1%nat (conj Nat.lt_0_1 (Nat.lt_succ_diag_r 1)))|].
  reflexivity.
Defined.

(** C10. An empty collection given as the node restriction is replaced
  by the node set of the graph, as a missing one is. The call is the
  call without a restriction, with the same outcome and the same graph
  and log; the nodes that take part are all the nodes of the graph whose
  element has a radius; and bonds are made: on a molecule whose node
  keys are [0 .. n-1] in this order, each node with an element that has
  a radius and with a position, the call returns and two nodes [i < j]
  are adjacent afterwards exactly when they were before, or when the
  pair is no non-edge and lies within the radius of the query and within
  the bond distance of its elements. *)
Theorem empty_restriction_is_no_restriction
      (store : Store) (non_edges : option (list (Z * Z))) (fudge : float)
      (w : make_bonds.World) :
let result := make_bonds._bonds_from_distance store (Some []) non_edges
                                              fudge w in
result = make_bonds._bonds_from_distance store None non_edges fudge w
/\ make_bonds.eligible_nodes
     (fst w) (make_bonds.effective_nodes (fst w) (Some []))
   = filter (fun n => match Graph.node (fst w) n with
                      | Some atom => make_bonds.known_element atom
                      | None => false
                      end)
            (Graph.node_ids (fst w))
/\ forall n : nat,
     Graph.node_ids (fst w) = map Z.of_nat (seq 0 n) ->
     (forall k atom,
         Graph.node (fst w) k = Some atom ->
         make_bonds.known_element atom = true /\ position atom <> None) ->
     fst result = Return tt
     /\ forall i j : nat,
          (i < j < n)%nat ->
          Graph.has_edge (fst (state_after result)) (Z.of_nat i) (Z.of_nat j)
          = Graph.has_edge (fst w) (Z.of_nat i) (Z.of_nat j)
            || negb (make_bonds.in_non_edges
                       (make_bonds.effective_non_edges non_edges)
                       (Z.of_nat i) (Z.of_nat j))
               && Shape.within_reach store (fst w) fudge
                                     (Z.of_nat i) (Z.of_nat j).
Proof.
intros result. split; [reflexivity|]. split.
{ unfold make_bonds.eligible_nodes, make_bonds.effective_nodes.
  apply filter_ext_in. intros n Hn.
  apply existsb_Zeqb_In in Hn. now rewrite Hn. }
intros n Hkeys Hatoms. unfold result, state_after.
rewrite bonds_from_distance_plan.
pose proof (pass_loop_returns store (Some []) non_edges fudge w) as Hret.
rewrite (indexed_all (fst w) n Hkeys Hatoms (Some []) (or_intror eq_refl))
  in *.
rewrite length_map, length_seq in *.
rewrite (indexed_positions store (fst w) n Hkeys Hatoms) in *
  by (intros k Hk; apply in_seq in Hk; lia).
split; [now apply Hret|].
intros i j Hij.
rewrite (loop_adjacency (fst w)); [| |reflexivity].
- now rewrite (indexed_pairs store (fst w) n Hkeys Hatoms).
- intros [[i' j'] d] e Hin. apply pairs_of_In in Hin.
  rewrite length_map, length_seq in Hin.
  apply verdict_in_range; rewrite ?length_map, ?length_seq; try lia.
  intros x Hx. apply in_map_iff in Hx. destruct Hx as (k & <- & Hk).
  apply in_seq in Hk.
  destruct (indexed_atom (fst w) n Hkeys Hatoms k) as (a & el & r & p & H);
    [lia|].
  exists a, el, r. tauto.
Qed.

(** Two carbons 0.1 nm apart are bonded under the empty restriction, and
  are not when the restriction is the first of them alone. *)
Lemma empty_restriction_is_no_restriction_witness :
Graph.has_edge
  (fst (state_after
          (make_bonds._bonds_from_distance Examples.axis (Some []) None 1
                                           (Examples.two_carbons, []))))
  0 1
= true
/\ Graph.has_edge
     (fst (state_after
             (make_bonds._bonds_from_distance Examples.axis (Some [0]) None 1
                                              (Examples.two_carbons, []))))
     0 1
   = false.
Proof.
split; [|vm_compute; reflexivity].
destruct (empty_restriction_is_no_restriction
            Examples.axis None 1 (Examples.two_carbons, []))
  as (_ & _ & H).
destruct (H 2%nat eq_refl) as [_ Hadj].
- intros k atom. unfold Graph.node. simpl.
  destruct (Z.eqb k 0);
    [intros E; inversion E; split; [reflexivity|discriminate]|].
  destruct (Z.eqb k 1);
    [intros E; inversion E; split; [reflexivity|discriminate]|].
  discriminate.
- etransitivity;
    [exact (Hadj 0%nat 1%nat (conj Nat.lt_0_1 (Nat.lt_succ_diag_r 1)))|].
  reflexivity.
Defined.

(** ** Bonds by name *)


Section Names.

Import Graph make_bonds Plan Naming.

Variable store : Store.

Lemma name_add_keys table nm idx :
NoDup (map fst table) -> NoDup (map fst (name_add table nm idx)).
Proof.
induction table as [|[k s] table IH]; simpl; intros ND.
- constructor; [intros []|constructor].
- destruct (String.eqb_spec nm k) as [->|Hne]; simpl; [exact ND|].
  inversion ND as [|? ? Hnotin ND']; subst.
  constructor; [|now apply IH].
  intros Hin. apply in_map_iff in Hin. destruct Hin as ([k' s'] & E & Hin).
  simpl in E. subst k'.
  assert (forall t, In (k, s') (name_add t nm idx) -> In k (map fst t)) as H.
  { clear -Hne. induction t as [|[k0 s0] t IHt]; simpl.
    - intros [E|[]]. inversion E. congruence.
    - destruct (String.eqb_spec nm k0) as [->|].
      + intros [E|Hin]; [inversion E; now left|].
        right. change k with (fst (k, s')). now apply in_map.
      + intros [E|Hin]; [inversion E; now left|]. right. now apply IHt. }
  apply Hnotin. eapply H. exact Hin.
Qed.

Lemma name_add_member table nm idx :
exists s, In (nm, s) (name_add table nm idx) /\ In idx s.
Proof.
induction table as [|[k s] table IH]; simpl.
- exists [idx]. simpl. auto.
- destruct (String.eqb_spec nm k) as [->|Hne].
  + destruct (existsb (Z.eqb idx) s) eqn:X.
    * exists s. split; [now left|]. now apply existsb_Zeqb_In.
    * exists (s ++ [idx]). split; [now left|]. apply in_or_app. simpl. auto.
  + destruct IH as (s' & H1 & H2). exists s'. split; [now right|exact H2].
Qed.

Lemma name_add_keeps table nm idx k s x :
In (k, s) table -> In x s ->
exists s', In (k, s') (name_add table nm idx) /\ In x s'.
Proof.
induction table as [|[k0 s0] table IH]; simpl; [tauto|].
intros [E|Hin] Hx.
- inversion E; subst. destruct (String.eqb_spec nm k) as [->|Hne].
  + destruct (existsb (Z.eqb idx) s).
    * exists s. split; [now left|exact Hx].
    * exists (s ++ [idx]). split; [now left|]. apply in_or_app. auto.
  + exists s. split; [now left|exact Hx].
- destruct (String.eqb_spec nm k0) as [->|Hne].
  + exists s. split; [now right|exact Hx].
  + destruct (IH Hin Hx) as (s' & H1 & H2). exists s'. split; [now right|auto].
Qed.

Lemma name_add_origin table nm idx k s x :
In (k, s) (name_add table nm idx) -> In x s ->
(k = nm /\ x = idx) \/ exists s0, In (k, s0) table /\ In x s0.
Proof.
induction table as [|[k0 s0] table IH]; simpl.
- intros [E|[]] Hx. inversion E; subst. destruct Hx as [<-|[]]. now left.
- destruct (String.eqb_spec nm k0) as [->|Hne].
  + intros [E|Hin] Hx.
    * inversion E; subst.
      destruct (existsb (Z.eqb idx) s0); [right; eauto|].
      apply in_app_or in Hx. destruct Hx as [Hx|[<-|[]]];
        [right; eauto | now left].
    * right. eauto.
  + intros [E|Hin] Hx.
    * inversion E; subst. right. eauto.
    * destruct (IH Hin Hx) as [?|(s1 & ? & ?)]; [now left | right; eauto].
Qed.

(** What the table of names holds once the first loop has returned. *)
Lemma names_of_complete graph nodes : forall table (w : World) table' w',
names_of graph nodes table w = (Return table', w') ->
NoDup (map fst table) ->
(forall k s x, In (k, s) table -> In x s -> bears graph x k) ->
NoDup (map fst table')
/\ (forall k s x, In (k, s) table' -> In x s ->
                  bears graph x k /\
                  (In x nodes \/ exists s0, In (k, s0) table /\ In x s0))
/\ (forall k s x, In (k, s) table -> In x s ->
                  exists s', In (k, s') table' /\ In x s')
/\ (forall i nm, In i nodes -> bears graph i nm ->
                 exists s, In (nm, s) table' /\ In i s).
Proof.
induction nodes as [|i nodes IH]; intros table w table' w' Hrun ND Hb.
- simpl in Hrun. inversion Hrun; subst.
  split; [exact ND|]. split; [|split; [eauto|intros ? ? []]].
  intros k s x Hin Hx. split; [eauto|right; eauto].
- simpl in Hrun. unfold bind, subscript in Hrun.
  destruct (node graph i) as [atom|] eqn:N; simpl in Hrun; [|discriminate].
  destruct (atomname atom) as [nm0|] eqn:A.
  + destruct (IH _ _ _ _ Hrun (name_add_keys _ _ _ ND))
      as (ND' & Hb' & Hk' & Hc').
    { intros k s x Hin Hx.
      destruct (name_add_origin _ _ _ _ _ _ Hin Hx)
        as [[-> ->]|(s0 & H0 & Hx0)]; [exists atom; auto | eauto]. }
    split; [exact ND'|]. split; [|split].
    * intros k s x Hin Hx. destruct (Hb' _ _ _ Hin Hx) as [B [?|(s0 & H0 & Hx0)]].
      { split; [exact B|]. left. now right. }
      split; [exact B|].
      destruct (name_add_origin _ _ _ _ _ _ H0 Hx0)
        as [[-> ->]|?]; [left; now left | now right].
    * intros k s x Hin Hx.
      destruct (name_add_keeps table nm0 i k s x Hin Hx) as (s1 & H1 & Hx1).
      eauto.
    * intros j nm [<-|Hj] Hbj.
      { destruct Hbj as (a' & Na & Aa). rewrite N in Na. inversion Na; subst.
        assert (nm = nm0) as -> by congruence.
        destruct (name_add_member table nm0 i) as (s1 & H1 & Hx1). eauto. }
      eauto.
  + destruct (IH _ _ _ _ Hrun ND Hb) as (ND' & Hb' & Hk' & Hc').
    split; [exact ND'|]. split; [|split; [exact Hk'|]].
    * intros k s x Hin Hx. destruct (Hb' _ _ _ Hin Hx) as [B [?|?]];
        (split; [exact B|]); [left; now right | now right].
    * intros j nm [<-|Hj] Hbj; [|eauto].
      destruct Hbj as (a' & Na & Aa). congruence.
Qed.

Lemma names_of_state graph nodes table (w : World) o w' :
names_of graph nodes table w = (o, w') -> w' = w.
Proof.
destruct (names_of_spec graph nodes table w) as (o1 & H1 & _).
rewrite H1. intros E. now inversion E.
Qed.

Lemma unique_names_state table (w : World) o w' :
unique_names table w = (o, w') -> w' = w.
Proof.
destruct (unique_names_spec table w) as (o1 & H1 & _).
rewrite H1. intros E. now inversion E.
Qed.

(** The second loop returns when every name is held by one node, and
  then maps the name to that node. *)
Lemma unique_names_shape table : forall (w : World) l w',
unique_names table w = (Return l, w') ->
map fst l = map fst table
/\ (forall nm s, In (nm, s) table -> exists idx, s = [idx] /\ In (nm, idx) l)
/\ (forall nm idx, In (nm, idx) l -> In (nm, [idx]) table).
Proof.
induction table as [|[nm0 s0] table IH]; intros w l w' Hrun; simpl in Hrun.
- inversion Hrun; subst. split; [reflexivity|]. split; intros ? ? [].
- destruct s0 as [|i [|j s0]]; try discriminate.
  unfold bind in Hrun.
  destruct (unique_names table w) as [[others|e] w1] eqn:U; [|discriminate].
  inversion Hrun; subst.
  destruct (IH _ _ _ U) as (Hk & Hs & Hl).
  split; [simpl; now rewrite Hk|]. split.
  + intros nm s [E|Hin].
    * inversion E; subst. exists i. simpl. auto.
    * destruct (Hs _ _ Hin) as (idx & -> & H). exists idx. simpl. auto.
  + intros nm idx [E|Hin].
    * inversion E; subst. now left.
    * right. now apply Hl.
Qed.

Lemma unique_names_raise table : forall (w : World) e w',
unique_names table w = (Raise e, w') ->
exists nm s, In (nm, s) table /\ (forall idx, s <> [idx]).
Proof.
induction table as [|[nm0 s0] table IH]; intros w e w' Hrun; simpl in Hrun.
- discriminate.
- destruct s0 as [|i [|j s0]].
  + exists nm0, []. split; [now left | discriminate].
  + unfold bind in Hrun.
    destruct (unique_names table w) as [[others|e1] w1] eqn:U; [discriminate|].
    destruct (IH _ _ _ U) as (nm & s & Hin & Hs). exists nm, s.
    split; [now right | exact Hs].
  + exists nm0, (i :: j :: s0). split; [now left | discriminate].
Qed.

Lemma name_get_unique (l : list (string * Z)) nm idx :
NoDup (map fst l) -> In (nm, idx) l -> name_get l nm = Some idx.
Proof.
induction l as [|[k i] l IH]; simpl; [tauto|].
intros ND [E|Hin].
- inversion E; subst. now rewrite String.eqb_refl.
- inversion ND as [|? ? Hnotin ND']; subst.
  destruct (String.eqb_spec nm k) as [->|]; [|auto].
  exfalso. apply Hnotin. change k with (fst (k, idx)). now apply in_map.
Qed.

(** The dictionary [mol_name_to_idx] of a residue whose names are read:
  a name is mapped to the node of the residue that bears it. *)
Lemma names_resolved graph idxs (w : World) table w1 l w2 :
names_of graph idxs [] w = (Return table, w1) ->
unique_names table w1 = (Return l, w2) ->
(forall i nm, In i idxs -> bears graph i nm -> name_get l nm = Some i)
/\ (forall nm i, name_get l nm = Some i -> In i idxs /\ bears graph i nm).
Proof.
intros Hn Hu.
destruct (names_of_complete graph idxs [] w table w1 Hn)
  as (ND & Hb & _ & Hc); [constructor | intros ? ? ? [] |].
destruct (unique_names_shape _ _ _ _ Hu) as (Hk & Hs & Hl).
split.
- intros i nm Hi Hbi. destruct (Hc i nm Hi Hbi) as (s & Hin & His).
  destruct (Hs _ _ Hin) as (idx & -> & Hidx).
  destruct His as [->|[]].
  apply name_get_unique; [now rewrite Hk | exact Hidx].
- intros nm i G. apply name_get_In in G. apply Hl in G.
  destruct (Hb nm [i] i G (or_introl eq_refl)) as [B [?|(s0 & [] & _)]].
  auto.
Qed.

End Names.

Section NamedLoop.

Import Graph make_bonds Plan Naming.

Variable store : Store.

(** The loop over the edges of the block keeps the nodes and the edges,
  and leaves every pair it settles on adjacent. *)
Lemma named_loop_bonds block l es : forall (w : World) o w1,
for_each es (bond_named store block l) w = (o, w1) ->
nodes (fst w1) = nodes (fst w)
/\ covers w1 w
/\ (o = Return tt ->
    forall edge i j d,
      In edge es ->
      named_verdict store block l edge (fst w) = Candidate i j d ->
      has_edge (fst w1) i j = true).
Proof.
induction es as [|edge0 es IH]; intros w o w1 Hrun.
- simpl in Hrun. inversion Hrun; subst.
  split; [reflexivity|]. split; [apply covers_refl|]. intros _ ? ? ? ? [].
- simpl in Hrun. unfold bind in Hrun. rewrite bond_named_verdict in Hrun.
  destruct (named_verdict store block l edge0 (fst w)) as [|e|i0 j0 d0] eqn:V;
    simpl in Hrun.
  + destruct (IH _ _ _ Hrun) as (Hn & Hc & Hb).
    split; [exact Hn|]. split; [exact Hc|].
    intros Ho edge i j d [<-|Hin] V'; [congruence|]. eapply Hb; eauto.
  + inversion Hrun; subst. split; [reflexivity|].
    split; [apply covers_refl|]. discriminate.
  + destruct (named_verdict_candidate _ _ _ _ _ _ _ _ V) as [H1 H2].
    destruct (IH _ _ _ Hrun) as (Hn & Hc & Hb). simpl in Hn, Hc.
    rewrite nodes_add_edge in Hn by assumption.
    split; [exact Hn|]. split.
    * intros a b Hab. apply Hc. simpl. rewrite has_edge_add_edge, Hab.
      reflexivity.
    * intros Ho edge i j d [<-|Hin] V'.
      -- rewrite V in V'. inversion V'; subst. apply Hc. simpl.
         rewrite has_edge_add_edge.
         assert (same_pair i j i j = true) as -> by (apply same_pair_true; auto).
         apply orb_true_r.
      -- eapply Hb; eauto. simpl.
         rewrite <- V'. apply named_verdict_nodes_only. simpl.
         now rewrite nodes_add_edge.
Qed.

Lemma named_loop_returns block l g0 es :
(forall edge e, In edge es -> named_verdict store block l edge g0 <> Fail e) ->
forall w : World,
nodes (fst w) = nodes g0 ->
fst (for_each es (bond_named store block l) w) = Return tt.
Proof.
induction es as [|edge0 es IH]; intros Hok w Hn; [reflexivity|].
simpl. unfold bind. rewrite bond_named_verdict.
rewrite (named_verdict_nodes_only store block l edge0 _ g0 Hn).
destruct (named_verdict store block l edge0 g0) as [|e|i j d] eqn:V; simpl.
- apply IH; [intros; apply Hok; now right | exact Hn].
- exfalso. apply (Hok edge0 e); [now left | exact V].
- apply IH; [intros; apply Hok; now right|]. simpl.
  rewrite <- (named_verdict_nodes_only store block l edge0 _ g0 Hn) in V.
  destruct (named_verdict_candidate _ _ _ _ _ _ _ _ V) as [H1 H2].
  now rewrite nodes_add_edge.
Qed.

Lemma all_pairs_In l u v : In (u, v) (all_pairs l) -> In u l /\ In v l.
Proof.
induction l as [|x l IH]; simpl; [tauto|].
intros H. apply in_app_or in H. destruct H as [H|H].
- apply in_map_iff in H. destruct H as (y & E & Hy). inversion E; subst. auto.
- destruct (IH H). auto.
Qed.

Lemma nx_non_edges_In block u v :
In (u, v) (nx_non_edges block) ->
In u (node_ids block) /\ In v (node_ids block) /\ has_edge block u v = false.
Proof.
unfold nx_non_edges. rewrite filter_In. simpl. intros [H E].
apply all_pairs_In in H. apply negb_true_iff in E. tauto.
Qed.

(** The last loop: what it returns, and that it returns on pairs of
  named nodes of the block. *)
Lemma named_non_edges_origin block l pairs : forall acc (w : World) found w',
named_non_edges block l pairs acc w = (Return found, w') ->
forall a b, In (a, b) found ->
  In (a, b) acc \/
  exists u v nu nv, In (u, v) pairs /\ bears block u nu /\ bears block v nv
                    /\ name_get l nu = Some a /\ name_get l nv = Some b.
Proof.
induction pairs as [|[u v] pairs IH]; intros acc w found w' Hrun a b Hin.
- simpl in Hrun. inversion Hrun; subst. now left.
- simpl in Hrun. unfold bind, block_atomname, bind, subscript, ret, raise in Hrun.
  destruct (node block u) as [a1|] eqn:N1; [|discriminate].
  destruct (atomname a1) as [n1|] eqn:A1; [|discriminate].
  destruct (node block v) as [a2|] eqn:N2; [|discriminate].
  destruct (atomname a2) as [n2|] eqn:A2; [|discriminate].
  destruct (IH _ _ _ _ Hrun a b Hin) as [H|(u' & v' & nu & nv & Hp & H)].
  + destruct (name_get l n1) as [x|] eqn:E1; [|now left].
    destruct (name_get l n2) as [y|] eqn:E2; [|now left].
    apply in_app_or in H. destruct H as [H|[H|[]]]; [now left|].
    inversion H; subst. right. exists u, v, n1, n2.
    split; [now left|]. unfold bears. rewrite N1, N2. eauto 10.
  + right. exists u', v', nu, nv. split; [now right | exact H].
Qed.

Lemma named_non_edges_returns block l pairs : forall acc (w : World),
(forall u v, In (u, v) pairs ->
             exists nu nv, bears block u nu /\ bears block v nv) ->
exists found, named_non_edges block l pairs acc w = (Return found, w).
Proof.
induction pairs as [|[u v] pairs IH]; intros acc w Hok; simpl.
- eexists. reflexivity.
- destruct (Hok u v (or_introl eq_refl))
    as (nu & nv & (a1 & N1 & A1) & (a2 & N2 & A2)).
  unfold bind, block_atomname, bind, subscript, ret.
  rewrite N1, A1, N2, A2. apply IH. intros; apply Hok; now right.
Qed.

Lemma usable_block_Some o block :
usable_block o = Some block -> o = Some block.
Proof.
unfold usable_block. destruct o as [b|]; [|discriminate].
destruct (nodes b); [discriminate|]. auto.
Qed.

End NamedLoop.

Section NameTable.

Import Graph make_bonds Plan Naming.

Lemma name_add_sets table nm idx :
(forall k s, In (k, s) table -> s <> [] /\ NoDup s) ->
forall k s, In (k, s) (name_add table nm idx) -> s <> [] /\ NoDup s.
Proof.
induction table as [|[k0 s0] table IH]; simpl; intros H k s Hin.
- destruct Hin as [E|[]]. inversion E; subst.
  split; [discriminate|]. constructor; [intros []|constructor].
- destruct (String.eqb nm k0).
  + destruct Hin as [E|Hin]; [|eauto].
    inversion E; subst.
    destruct (H k s0 (or_introl eq_refl)) as [Hne Hnd].
    destruct (existsb (Z.eqb idx) s0) eqn:X; [auto|].
    split; [destruct s0; discriminate|].
    apply NoDup_app; [exact Hnd | constructor; [intros []|constructor] |].
    intros a Ha [<-|[]]. apply existsb_Zeqb_In in Ha. congruence.
  + destruct Hin as [E|Hin]; [inversion E; subst; eauto|].
    eapply IH; eauto.
Qed.

Lemma names_of_sets graph nodes : forall table (w : World) table' w',
names_of graph nodes table w = (Return table', w') ->
(forall k s, In (k, s) table -> s <> [] /\ NoDup s) ->
forall k s, In (k, s) table' -> s <> [] /\ NoDup s.
Proof.
induction nodes as [|i nodes IH]; intros table w table' w' Hrun H.
- simpl in Hrun. inversion Hrun; subst. exact H.
- simpl in Hrun. unfold bind, subscript in Hrun.
  destruct (node graph i) as [atom|]; simpl in Hrun; [|discriminate].
  eapply IH; [exact Hrun|].
  destruct (atomname atom); [now apply name_add_sets | exact H].
Qed.

Lemma names_of_raise graph nodes : forall table (w : World) e w',
names_of graph nodes table w = (Raise e, w') ->
e = KeyError "node" /\ exists i, In i nodes /\ node graph i = None.
Proof.
induction nodes as [|i nodes IH]; intros table w e w' Hrun.
- discriminate.
- simpl in Hrun. unfold bind, subscript in Hrun.
  destruct (node graph i) as [atom|] eqn:N; simpl in Hrun.
  + destruct (IH _ _ _ _ Hrun) as (E & j & Hj & Nj).
    split; [exact E|]. exists j. split; [now right | exact Nj].
  + inversion Hrun; subst. split; [reflexivity|]. exists i.
    split; [now left | exact N].
Qed.

Lemma unique_names_KeyError table : forall (w : World) e w',
unique_names table w = (Raise e, w') -> exists msg, e = KeyError msg.
Proof.
induction table as [|[nm0 s0] table IH]; intros w e w' Hrun; simpl in Hrun.
- discriminate.
- destruct s0 as [|i [|j s0]].
  + inversion Hrun; eauto.
  + unfold bind in Hrun.
    destruct (unique_names table w) as [[others|e1] w1] eqn:U; [discriminate|].
    inversion Hrun; subst. eapply IH; eauto.
  + inversion Hrun; eauto.
Qed.

End NameTable.

(** X6. [_bonds_from_names] fails before it bonds. With a block whose
  nodes all have an atom name and whose edges join nodes of the block,
  a call that raises has changed neither the graph nor the log; it
  raises a [KeyError], and it does so because the force field has no
  block with nodes for the residue name, or because a node it was given
  is no node of the graph, or because two of the nodes it was given bear
  the same atom name. *)
Theorem bonds_from_names_fails_before_it_bonds
      (store : Store) (resname : option string) (idxs : list Z)
      (force_field : make_bonds.ForceField) (w w' : make_bonds.World)
      (e : exn)
      (Hblocks : forall block,
          make_bonds.blocks_get (make_bonds.blocks force_field) resname
          = Some block ->
          Naming.block_ok block)
      (Hraise : make_bonds._bonds_from_names store resname idxs force_field w
                = (Raise e, w')) :
w' = w
/\ (exists msg, e = KeyError msg)
/\ (make_bonds.usable_block
      (make_bonds.blocks_get (make_bonds.blocks force_field) resname) = None
    \/ (exists i, In i idxs /\ Graph.node (fst w) i = None)
    \/ (exists i j nm, i <> j /\ In i idxs /\ In j idxs
                       /\ Naming.bears (fst w) i nm
                       /\ Naming.bears (fst w) j nm)).
Proof.
unfold make_bonds._bonds_from_names in Hraise.
destruct (make_bonds.usable_block _) as [block|] eqn:B.
2:{ inversion Hraise; subst. split; [reflexivity|]. split; [eauto|].
    now left. }
destruct (Hblocks block (usable_block_Some _ _ B)) as [Hnames Hedges].
unfold bind at 1, make_bonds.the_graph in Hraise. simpl in Hraise.
unfold bind at 1 in Hraise.
destruct (make_bonds.names_of (fst w) idxs [] w) as [[table|e1] w1] eqn:N.
2:{ pose proof (names_of_state _ _ _ _ _ _ N) as ->.
    inversion Hraise; subst.
    destruct (names_of_raise _ _ _ _ _ _ N) as (-> & i & Hi & Ni).
    split; [reflexivity|]. split; [eauto|]. right. left. eauto. }
pose proof (names_of_state _ _ _ _ _ _ N) as ->.
unfold bind at 1 in Hraise.
destruct (make_bonds.unique_names table w) as [[l|e1] w1] eqn:U.
2:{ pose proof (unique_names_state _ _ _ _ U) as ->.
    inversion Hraise. subst e w'.
    split; [reflexivity|]. split; [eapply unique_names_KeyError; eauto|].
    right. right.
    destruct (unique_names_raise _ _ _ _ U) as (nm & s & Hin & Hs).
    destruct (names_of_complete (fst w) idxs [] w table w N)
      as (_ & Hb & _); [constructor | intros ? ? ? [] |].
    destruct (names_of_sets (fst w) idxs [] w table w N) with (k := nm) (s := s)
      as [Hne Hnd]; [intros ? ? [] | exact Hin |].
    destruct s as [|i [|j s]]; [congruence | exfalso; now apply (Hs i) |].
    exists i, j, nm.
    destruct (Hb nm _ i Hin (or_introl eq_refl)) as [Bi [Ii|(? & [] & _)]].
    destruct (Hb nm _ j Hin (or_intror (or_introl eq_refl)))
      as [Bj [Ij|(? & [] & _)]].
    inversion Hnd as [|? ? Hnotin _]; subst.
    repeat split; auto. intros ->. apply Hnotin. now left. }
pose proof (unique_names_state _ _ _ _ U) as ->.
destruct (names_resolved (fst w) idxs w table w l w N U) as [_ Hres].
exfalso.
unfold bind at 1 in Hraise.
pose proof (named_loop_returns store block l (fst w) (edges block)) as Hloop.
destruct (for_each (edges block) (make_bonds.bond_named store block l) w)
  as [[[]|e1] w1] eqn:F.
- destruct (named_non_edges_returns block l (make_bonds.nx_non_edges block)
                                    [] w1) as [found Hf].
  + intros u v Hin. apply nx_non_edges_In in Hin. destruct Hin as (Hu & Hv & _).
    destruct (In_assoc _ _ Hu) as [a1 N1]. destruct (In_assoc _ _ Hv) as [a2 N2].
    pose proof (Hnames _ _ N1) as A1. pose proof (Hnames _ _ N2) as A2.
    destruct (atomname a1) as [n1|] eqn:E1; [|congruence].
    destruct (atomname a2) as [n2|] eqn:E2; [|congruence].
    exists n1, n2. split; [exists a1 | exists a2]; auto.
  + rewrite Hf in Hraise. discriminate.
- assert (fst (Raise e1 : outcome unit, w1) = Return tt) as X;
    [|discriminate].
  rewrite <- F. apply Hloop; [|reflexivity].
  intros edge e2 Hin. unfold Plan.named_verdict, Plan.need.
  destruct (Hedges _ Hin) as [H1 H2].
  apply existsb_Zeqb_In in H1, H2.
  destruct (In_assoc _ _ H1) as [a1 N1]. destruct (In_assoc _ _ H2) as [a2 N2].
  unfold Graph.node. rewrite N1, N2.
  pose proof (Hnames _ _ N1) as A1. pose proof (Hnames _ _ N2) as A2.
  destruct (atomname a1) as [n1|]; [|congruence].
  destruct (atomname a2) as [n2|]; [|congruence].
  destruct (make_bonds.name_get l n1) as [i|] eqn:G1; [|discriminate].
  destruct (make_bonds.name_get l n2) as [j|] eqn:G2; [|discriminate].
  destruct (Hres _ _ G1) as (_ & ai & Ni & _).
  destruct (Hres _ _ G2) as (_ & aj & Nj & _).
  unfold Graph.node in Ni, Nj. rewrite Ni, Nj. discriminate.
Qed.



Section NamesReturn.

Import Graph make_bonds Plan Naming.

(** What a call of [_bonds_from_names] that returns went through. *)
Lemma bonds_from_names_returned store resname idxs force_field
      (w w' : World) found :
_bonds_from_names store resname idxs force_field w = (Return found, w') ->
exists block table l,
  blocks_get (blocks force_field) resname = Some block
  /\ names_of (fst w) idxs [] w = (Return table, w)
  /\ unique_names table w = (Return l, w)
  /\ for_each (edges block) (bond_named store block l) w = (Return tt, w')
  /\ named_non_edges block l (nx_non_edges block) [] w' = (Return found, w').
Proof.
unfold _bonds_from_names. intros Hret.
destruct (usable_block _) as [block|] eqn:B; [|discriminate].
apply usable_block_Some in B.
unfold bind at 1, the_graph in Hret. simpl in Hret. unfold bind at 1 in Hret.
destruct (names_of (fst w) idxs [] w) as [[table|e1] w1] eqn:N; [|discriminate].
pose proof (names_of_state _ _ _ _ _ _ N) as ->.
unfold bind at 1 in Hret.
destruct (unique_names table w) as [[l|e1] w1] eqn:U; [|discriminate].
pose proof (unique_names_state _ _ _ _ U) as ->.
unfold bind at 1 in Hret.
destruct (for_each (edges block) (bond_named store block l) w)
  as [[[]|e1] w1] eqn:F; [|discriminate].
destruct (named_non_edges_spec block l (nx_non_edges block) [] w1)
  as (o & Ho & _).
rewrite Ho in Hret. inversion Hret; subst.
exists block, table, l. auto.
Qed.

End NamesReturn.

(** X7. When [_bonds_from_names] returns, it has kept the nodes, emitted
  nothing and removed no adjacency; no two of the nodes it was given
  bear the same atom name; and for every edge of the block whose two
  atom names are borne by nodes of the residue, these two nodes are
  adjacent. *)
Theorem bonds_from_names_bonds_the_block_edges
      (store : Store) (resname : option string) (idxs : list Z)
      (force_field : make_bonds.ForceField) (w w' : make_bonds.World)
      (found : list (Z * Z))
      (Hret : make_bonds._bonds_from_names store resname idxs force_field w
              = (Return found, w')) :
nodes (fst w') = nodes (fst w)
/\ snd w' = snd w
/\ (forall a b, Graph.has_edge (fst w) a b = true ->
                Graph.has_edge (fst w') a b = true)
/\ (forall i j nm, In i idxs -> In j idxs ->
                   Naming.bears (fst w) i nm -> Naming.bears (fst w) j nm ->
                   i = j)
/\ forall block u v x nu nv i j,
     make_bonds.blocks_get (make_bonds.blocks force_field) resname
     = Some block ->
     In ((u, v), x) (edges block) ->
     Naming.bears block u nu -> Naming.bears block v nv ->
     In i idxs -> Naming.bears (fst w) i nu ->
     In j idxs -> Naming.bears (fst w) j nv ->
     Graph.has_edge (fst w') i j = true.
Proof.
destruct (bonds_from_names_returned _ _ _ _ _ _ _ Hret)
  as (block & table & l & B & N & U & F & _).
destruct (names_resolved (fst w) idxs w table w l w N U) as [Hres _].
destruct (named_loop_bonds store block l (edges block) w _ _ F)
  as (Hn & Hc & Hb).
split; [exact Hn|]. split.
{ pose proof (for_each_bond_named_log store block l (edges block) w) as L.
  now rewrite F in L. }
split; [exact Hc|]. split.
{ intros i j nm Hi Hj Bi Bj.
  pose proof (Hres i nm Hi Bi). pose proof (Hres j nm Hj Bj). congruence. }
intros block' u v x nu nv i j B' Hedge Bu Bv Hi Bi Hj Bj.
assert (block' = block) as -> by congruence.
destruct Bu as (a1 & N1 & A1), Bv as (a2 & N2 & A2).
pose proof (Hres i nu Hi Bi) as G1. pose proof (Hres j nv Hj Bj) as G2.
destruct Bi as (ai & Ni & _), Bj as (aj & Nj & _).
eapply (Hb eq_refl ((u, v), x)); [exact Hedge|].
unfold Plan.named_verdict, Plan.need. simpl.
rewrite N1, A1, N2, A2, G1, G2, Ni, Nj. reflexivity.
Qed.

(** The atoms [CA] and [CB] of the residue [RES]. *)
Lemma bonds_from_names_bonds_the_block_edges_witness :
Graph.has_edge
  (fst (state_after
          (make_bonds._bonds_from_names Examples.axis (Some "RES") [0; 1]
                                        Examples.one_block
                                        (Cases.bonded_names, []))))
  0 1 = true.
Proof.
destruct (make_bonds._bonds_from_names Examples.axis (Some "RES") [0; 1]
                                       Examples.one_block
                                       (Cases.bonded_names, []))
  as [[found|e] w'] eqn:H; [|vm_compute in H; discriminate].
destruct (bonds_from_names_bonds_the_block_edges _ _ _ _ _ _ _ H)
  as (_ & _ & _ & _ & Hb).
apply (Hb Examples.block_RES 0 1 None "CA" "CB" 0 1); simpl; auto;
  eexists; split; reflexivity.
Defined.

(** X8. Every pair [_bonds_from_names] returns as a non-edge joins two
  of the nodes it was given, and these bear the atom names of two nodes
  of the block that the block does not join. *)
Theorem bonds_from_names_records_block_non_edges
      (store : Store) (resname : option string) (idxs : list Z)
      (force_field : make_bonds.ForceField) (w w' : make_bonds.World)
      (found : list (Z * Z)) (a b : Z)
      (Hret : make_bonds._bonds_from_names store resname idxs force_field w
              = (Return found, w'))
      (Hin : In (a, b) found) :
In a idxs /\ In b idxs
/\ exists block u v nu nv,
     make_bonds.blocks_get (make_bonds.blocks force_field) resname
     = Some block
     /\ In u (Graph.node_ids block) /\ In v (Graph.node_ids block)
     /\ Graph.has_edge block u v = false
     /\ Naming.bears block u nu /\ Naming.bears block v nv
     /\ Naming.bears (fst w) a nu /\ Naming.bears (fst w) b nv.
Proof.
destruct (bonds_from_names_returned _ _ _ _ _ _ _ Hret)
  as (block & table & l & B & N & U & _ & F).
destruct (names_resolved (fst w) idxs w table w l w N U) as [_ Hres].
destruct (named_non_edges_origin _ _ _ _ _ _ _ F a b Hin)
  as [[]|(u & v & nu & nv & Hp & Bu & Bv & G1 & G2)].
apply nx_non_edges_In in Hp. destruct Hp as (Hu & Hv & He).
destruct (Hres _ _ G1) as [Ia Ba]. destruct (Hres _ _ G2) as [Ib Bb].
split; [exact Ia|]. split; [exact Ib|].
exists block, u, v, nu, nv. auto 10.
Qed.

(** The atoms [CA] and [CG] of the residue [RES]. *)
Lemma bonds_from_names_records_block_non_edges_witness :
In 0 [0; 1] /\ In 1 [0; 1]
/\ exists block u v nu nv,
     make_bonds.blocks_get (make_bonds.blocks Examples.one_block) (Some "RES")
     = Some block
     /\ In u (Graph.node_ids block) /\ In v (Graph.node_ids block)
     /\ Graph.has_edge block u v = false
     /\ Naming.bears block u nu /\ Naming.bears block v nv
     /\ Naming.bears Examples.unbonded_names 0 nu
     /\ Naming.bears Examples.unbonded_names 1 nv.
Proof.
destruct (make_bonds._bonds_from_names Examples.axis (Some "RES") [0; 1]
                                       Examples.one_block
                                       (Examples.unbonded_names, []))
  as [[found|e] w'] eqn:H; [|vm_compute in H; discriminate].
apply (bonds_from_names_records_block_non_edges _ _ _ _ _ _ _ 0 1 H).
vm_compute in H. inversion H. simpl. auto.
Defined.

Lemma block_RES_ok : Naming.block_ok Examples.block_RES.
Proof.
split.
- intros n atom. unfold Graph.node. simpl.
  destruct (Z.eqb n 0); [intros E; inversion E; discriminate|].
  destruct (Z.eqb n 1); [intros E; inversion E; discriminate|].
  destruct (Z.eqb n 2); [intros E; inversion E; discriminate|].
  discriminate.
- intros e [<-|[]]. split; reflexivity.
Qed.

(** Two atoms named [CA] in one residue. *)
Lemma bonds_from_names_fails_before_it_bonds_witness :
exists e,
  make_bonds._bonds_from_names Examples.axis (Some "RES") [0; 1]
                               Examples.one_block (Examples.twin_names, [])
  = (Raise e, (Examples.twin_names, []))
  /\ exists msg, e = KeyError msg.
Proof.
destruct (make_bonds._bonds_from_names Examples.axis (Some "RES") [0; 1]
                                       Examples.one_block
                                       (Examples.twin_names, []))
  as [[found|e] w'] eqn:H; [vm_compute in H; discriminate|].
assert (forall block,
           make_bonds.blocks_get (make_bonds.blocks Examples.one_block)
                                 (Some "RES") = Some block ->
           Naming.block_ok block) as Hb.
{ intros block E. simpl in E. inversion E. apply block_RES_ok. }
destruct (bonds_from_names_fails_before_it_bonds _ _ _ _ _ _ _ Hb H)
  as (-> & Hk & _).
exists e. split; [reflexivity | exact Hk].
Defined.

(** ** What make_bonds keeps *)


Section Framing.

Import Graph make_bonds Plan Frame.

Lemma extends_refl w : extends w w.
Proof.
repeat split; try reflexivity; exists []; now rewrite app_nil_r.
Qed.

Lemma extends_trans u v w : extends u v -> extends v w -> extends u w.
Proof.
intros (N1 & M1 & I1 & (a1 & E1) & (m1 & L1))
       (N2 & M2 & I2 & (a2 & E2) & (m2 & L2)).
repeat split; try congruence.
- exists (a1 ++ a2). now rewrite E2, E1, app_assoc.
- exists (m1 ++ m2). now rewrite L2, L1, app_assoc.
Qed.

Lemma frames_pure {A} (c : M World A) : Pure c -> Frames c.
Proof.
intros [o H] w. rewrite H. apply extends_refl.
Qed.

Lemma frames_bind {A B} (c : M World A) (k : A -> M World B) :
Frames c -> (forall a, Frames (k a)) -> Frames (bind c k).
Proof.
intros Hc Hk w. unfold bind. pose proof (Hc w) as H1.
destruct (c w) as [[a|e] w1]; simpl in *; [|exact H1].
eapply extends_trans; [exact H1 | apply Hk].
Qed.

Lemma frames_with_graph {A} (k : Molecule -> M World A) :
(forall g, Frames (k g)) -> Frames (bind the_graph k).
Proof.
intros Hk w. unfold bind, the_graph. apply Hk.
Qed.

Lemma frames_for_each {A} (body : A -> M World unit) xs :
(forall x, Frames (body x)) -> Frames (for_each xs body).
Proof.
intros Hbody. induction xs as [|x xs IH]; simpl.
- apply frames_pure, pure_ret.
- apply frames_bind; [apply Hbody | intros _; exact IH].
Qed.

Lemma frames_try {A} (c : M World A) (handler : string -> M World A) :
Frames c -> (forall msg, Frames (handler msg)) ->
Frames (try_except_KeyError c handler).
Proof.
intros Hc Hh w. unfold try_except_KeyError. pose proof (Hc w) as H1.
destruct (c w) as [[a|[msg|nm|msg|attr]] w1]; simpl in *; try exact H1.
eapply extends_trans; [exact H1 | apply Hh].
Qed.

Lemma frames_emit r : Frames (emit r).
Proof.
intros w. unfold emit, modify. simpl.
repeat split; try reflexivity; [exists [] | exists [r]];
  [now rewrite app_nil_r | reflexivity].
Qed.

Variable store : Store.

Lemma frames_pass restriction non_edges fudge :
Frames (_bonds_from_distance store restriction non_edges fudge).
Proof.
intros w.
split; [apply pass_nodes|].
split; [apply pass_frame|]. split; [apply pass_frame|].
rewrite bonds_from_distance_plan.
destruct (positions_pure store (fst w) _) as [positions|e].
- destruct (loop_appends (fst w) (indexed_nodes (fst w) restriction)
                         (effective_non_edges non_edges) fudge
                         (effective_nodes (fst w) restriction)
                         (pairs_of positions fudge)
                         (eligible_nodes_sub _ _) w eq_refl)
    as (added & He & _ & Hl); [auto|].
  split; [exists (map fst added) | eexists; exact Hl].
  unfold edge_keys. now rewrite He, map_app.
- apply extends_refl.
Qed.

Lemma frames_bond_named block table edge :
Frames (bond_named store block table edge).
Proof.
intros w. rewrite bond_named_verdict.
destruct (named_verdict store block table edge (fst w)) as [|e|i j d] eqn:V;
  simpl; try apply extends_refl.
destruct (named_verdict_candidate _ _ _ _ _ _ _ _ V) as [H1 H2].
destruct (frame_add_edge (fst w) i j d) as [Hm Hi].
split; [simpl; now apply nodes_add_edge|].
split; [exact Hm|]. split; [exact Hi|].
split; [|exists []; simpl; now rewrite app_nil_r].
unfold edge_keys. simpl.
destruct (has_edge (fst w) i j) eqn:E.
- destruct (add_edge_present _ _ _ d H1 H2 E) as (_ & Hk & _).
  exists []. now rewrite Hk, app_nil_r.
- rewrite (add_edge_fresh _ _ _ d H1 H2 E). simpl. rewrite map_app.
  eexists. reflexivity.
Qed.

Lemma frames_bonds_from_names resname idxs force_field :
Frames (_bonds_from_names store resname idxs force_field).
Proof.
unfold _bonds_from_names.
destruct (usable_block _) as [block|]; [|apply frames_pure, pure_raise].
apply frames_with_graph. intros g.
apply frames_bind; [apply frames_pure, pure_names_of | intros table].
apply frames_bind; [apply frames_pure, pure_unique_names | intros names].
apply frames_bind;
  [apply frames_for_each; intros e; apply frames_bond_named | intros _].
apply frames_pure, pure_named_non_edges.
Qed.

Lemma frames_global_force_field binding : Frames (global_force_field binding).
Proof.
apply frames_pure. destruct binding; [apply pure_ret | apply pure_raise].
Qed.

Lemma frames_fall_back binding allow_dist fudge key idxs non_edges error :
Frames (fall_back binding store allow_dist fudge key idxs non_edges error).
Proof.
unfold fall_back.
apply frames_bind.
- destruct allow_dist; [apply frames_pass | apply frames_pure, pure_ret].
- intros _. apply frames_bind; [apply frames_global_force_field|].
  intros ff. apply frames_bind; [apply frames_emit|].
  intros _. apply frames_pure, pure_ret.
Qed.

Lemma frames_name_pass binding allow_name allow_dist fudge groups :
forall non_edges,
Frames (name_pass binding store allow_name allow_dist fudge groups non_edges).
Proof.
induction groups as [|[key idxs] rest IH]; intros non_edges.
- apply frames_pure, pure_ret.
- rewrite name_pass_cons.
  destruct allow_name; simpl; [|apply frames_pure, pure_ret].
  apply frames_bind; [|exact IH].
  apply frames_try; [|intros msg; apply frames_fall_back].
  apply frames_bind; [apply frames_global_force_field | intros ff].
  apply frames_bind; [apply frames_bonds_from_names | intros found].
  apply frames_pure, pure_ret.
Qed.

Lemma frames_make_bonds_under binding allow_name allow_dist fudge :
Frames (make_bonds_under binding store allow_name allow_dist fudge).
Proof.
unfold make_bonds_under.
apply frames_with_graph. intros g.
apply frames_bind; [apply frames_name_pass | intros non_edges].
apply frames_bind; [|intros _; apply frames_pure, pure_ret].
destruct allow_dist; [apply frames_pass | apply frames_pure, pure_ret].
Qed.

End Framing.

(** X9. However it ends and whatever the name [force_field] is bound
  to, [make_bonds] keeps the nodes with their attributes, the metadata
  and the interactions of the molecule, keeps every edge in its place
  and only appends edges, only appends to the log, and loses no
  adjacency. As the module stands it also keeps the attribute of every
  edge. *)
Theorem make_bonds_only_extends_the_molecule
      (binding : option make_bonds.ForceField) (store : Store)
      (allow_name allow_dist : bool) (fudge : float) (w : make_bonds.World) :
let after := state_after (make_bonds.make_bonds_under
                            binding store allow_name allow_dist fudge w) in
let actual := state_after (make_bonds.make_bonds
                             store allow_name allow_dist fudge w) in
(nodes (fst after) = nodes (fst w)
 /\ meta (fst after) = meta (fst w)
 /\ interactions (fst after) = interactions (fst w)
 /\ (exists added, map fst (edges (fst after))
                   = map fst (edges (fst w)) ++ added)
 /\ (exists more, snd after = snd w ++ more)
 /\ forall a b, Graph.has_edge (fst w) a b = true ->
                Graph.has_edge (fst after) a b = true)
/\ (nodes (fst actual) = nodes (fst w)
    /\ meta (fst actual) = meta (fst w)
    /\ interactions (fst actual) = interactions (fst w)
    /\ exists added, edges (fst actual) = edges (fst w) ++ added).
Proof.
intros after actual. split.
- destruct (frames_make_bonds_under store binding allow_name allow_dist fudge w)
    as (Hn & Hm & Hi & He & Hl).
  destruct (replays_make_bonds_under store binding allow_name allow_dist fudge
              w _ _ (surjective_pairing _)) as [[_ Hc] _].
  unfold after, state_after. auto 10.
- destruct (make_bonds_only_adds_edges store allow_name allow_dist fudge w)
    as (Hn & Hm & Hi & _).
  split; [exact Hn|]. split; [exact Hm|]. split; [exact Hi|].
  unfold actual, state_after. rewrite make_bonds_cases.
  assert (exists added,
             edges (fst (snd (make_bonds._bonds_from_distance
                                store None (Some []) fudge w)))
             = edges (fst w) ++ added) as Hd.
  { rewrite bonds_from_distance_plan.
    destruct (Plan.positions_pure store (fst w) _) as [positions|e].
    - destruct (loop_appends (fst w) (Plan.indexed_nodes (fst w) None)
                             [] fudge
                             (make_bonds.effective_nodes (fst w) None)
                             (Plan.pairs_of positions fudge)
                             (eligible_nodes_sub _ _) w eq_refl)
        as (added & He & _); [auto|]. eauto.
    - exists []. simpl. now rewrite app_nil_r. }
  assert (exists added : list (Z * Z * option float),
             edges (fst w) = edges (fst w) ++ added) as Hz
    by (exists []; now rewrite app_nil_r).
  destruct (make_bonds._collect_residues (fst w));
    destruct allow_name, allow_dist; simpl; auto.
Qed.

Section Switches.

Import Graph make_bonds Plan.

Lemma pass_on_no_nodes store restriction non_edges fudge (w : World) :
nodes (fst w) = [] ->
_bonds_from_distance store restriction non_edges fudge w = (Return tt, w).
Proof.
intros H. rewrite bonds_from_distance_plan.
unfold indexed_nodes, eligible_nodes, node_ids. rewrite H. reflexivity.
Qed.

Lemma name_pass_off binding store allow_dist fudge groups non_edges
      (w : World) :
name_pass binding store false allow_dist fudge groups non_edges w
= (Return non_edges, w).
Proof.
destruct groups as [|[[[[m c] i] n] idxs] rest]; reflexivity.
Qed.

Lemma then_ret_tt (c : M World unit) (w : World) :
bind c (fun _ => ret tt) w = c w.
Proof.
unfold bind, ret. destruct (c w) as [[[]|e] w1]; reflexivity.
Qed.

End Switches.

(** X10. On a molecule without atoms [make_bonds] returns and changes
  nothing, for every setting of the two switches and whatever the name
  [force_field] is bound to: the loop over the residues has no turn and
  the distance pass has no atom. *)
Theorem make_bonds_without_atoms
      (binding : option make_bonds.ForceField) (store : Store)
      (allow_name allow_dist : bool) (fudge : float) (w : make_bonds.World)
      (Hempty : nodes (fst w) = []) :
make_bonds.make_bonds store allow_name allow_dist fudge w = (Return tt, w)
/\ make_bonds.make_bonds_under binding store allow_name allow_dist fudge w
   = (Return tt, w).
Proof.
assert (forall b, make_bonds.make_bonds_under b store allow_name allow_dist
                                              fudge w = (Return tt, w)) as H.
{ intros b. unfold make_bonds.make_bonds_under, bind at 1,
    make_bonds.the_graph.
  simpl.
  unfold make_bonds._collect_residues, Graph.node_ids. rewrite Hempty.
  simpl. unfold bind at 1, ret at 1. rewrite then_ret_tt.
  destruct allow_dist; [|reflexivity].
  now apply pass_on_no_nodes. }
split; [apply H | apply H].
Qed.

(** A molecule type without atoms. *)
Lemma make_bonds_without_atoms_witness :
make_bonds.make_bonds Examples.axis true true 1 (Examples.no_atoms, [])
= (Return tt, (Examples.no_atoms, [])).
Proof.
exact (proj1 (make_bonds_without_atoms None Examples.axis true true 1
                                       (Examples.no_atoms, []) eq_refl)).
Defined.

(** X11. With [allow_name] off [make_bonds] never reads the name
  [force_field]: it is the unrestricted distance pass with no non-edge
  when [allow_dist] is on, and it returns at once without a change when
  [allow_dist] is off too. *)
Theorem make_bonds_by_distance_only
      (binding : option make_bonds.ForceField) (store : Store)
      (allow_dist : bool) (fudge : float) (w : make_bonds.World) :
let pass := if allow_dist
            then make_bonds._bonds_from_distance store None None fudge w
            else (Return tt, w) in
make_bonds.make_bonds store false allow_dist fudge w = pass
/\ make_bonds.make_bonds_under binding store false allow_dist fudge w = pass.
Proof.
intros pass.
assert (forall b, make_bonds.make_bonds_under b store false allow_dist
                                              fudge w = pass) as H.
{ intros b. unfold make_bonds.make_bonds_under, bind at 1,
    make_bonds.the_graph.
  simpl. unfold bind at 1. rewrite name_pass_off. rewrite then_ret_tt.
  unfold pass. destruct allow_dist; reflexivity. }
split; apply H.
Qed.

(** X12. Within one run of [make_bonds], a pair that the loop over the
  residues has recorded as a non-edge is not bonded by distance, neither
  by the pass that falls back on a residue nor by the final pass: no
  debug record of a guessed bond names the pair, and the pair is as
  adjacent at the end of the run as the loop over the residues left
  it. *)
Theorem make_bonds_never_guesses_a_recorded_non_edge
      (binding : option make_bonds.ForceField) (store : Store)
      (allow_name allow_dist : bool) (fudge : float) (m : Molecule)
      (recorded : list (Z * Z)) (w1 : make_bonds.World) (a b : Z)
      (Hnames : make_bonds.name_pass binding store allow_name allow_dist fudge
                                     (make_bonds._collect_residues m) []
                                     (m, [])
                = (Return recorded, w1))
      (Hin : make_bonds.in_non_edges recorded a b = true) :
let final :=
  state_after (make_bonds.make_bonds_under binding store allow_name
                                           allow_dist fudge (m, [])) in
(forall x y, Plan.guessed (snd final) x y -> Graph.same_pair x y a b = false)
/\ Graph.has_edge (fst final) a b = Graph.has_edge (fst w1) a b.
Proof.
exact (make_bonds_spares_recorded_pairs store binding allow_name allow_dist
                                        fudge m recorded w1 a b Hnames Hin).
Qed.

(** The atoms [CA] and [CG] of the block, 0.1 nm apart. *)
Lemma make_bonds_never_guesses_a_recorded_non_edge_witness :
Graph.has_edge
  (fst (state_after
          (make_bonds.make_bonds_under (Some Examples.one_block) Examples.axis
                                       true true 1
                                       (Examples.unbonded_names, []))))
  0 1
= false.
Proof.
destruct (make_bonds.name_pass (Some Examples.one_block) Examples.axis
                               true true 1
                               (make_bonds._collect_residues
                                  Examples.unbonded_names) []
                               (Examples.unbonded_names, []))
  as [[recorded|e] w1] eqn:H; [|vm_compute in H; discriminate].
destruct (make_bonds_never_guesses_a_recorded_non_edge
            _ _ _ _ _ _ _ _ 0 1 H) as [_ E].
- vm_compute in H. inversion H. reflexivity.
- rewrite E. vm_compute in H. inversion H. reflexivity.
Defined.

Section Annotation.

Import Graph make_bonds.

Lemma annotate_enumerated (start : nat) (mols : list Molecule) i :
nth_error (map (fun im : nat * Molecule => set_mol_idx (fst im) (snd im))
               (combine (seq start (List.length mols)) mols)) i
= option_map (set_mol_idx (start + i)) (nth_error mols i).
Proof.
revert start i. induction mols as [|m mols IH]; intros start i; simpl.
- now destruct i.
- destruct i as [|i]; simpl.
  + now rewrite Nat.add_0_r.
  + rewrite IH. now rewrite Nat.add_succ_r.
Qed.

Lemma annotate_nth (mols : list Molecule) i :
nth_error (annotate mols) i = option_map (set_mol_idx i) (nth_error mols i).
Proof.
unfold annotate, enumerate. now rewrite annotate_enumerated.
Qed.

End Annotation.

(** X13. The annotation that opens [MakeBonds.run_system] keeps the
  number of molecules; in the molecule of index [i] every atom gets
  [mol_idx = i], and nothing else changes, neither the keys and the
  other attributes of the atoms nor the edges, the metadata and the
  interactions. Atoms of two different molecules then never have the
  same residue key, whatever chain, residue id and residue name they
  have. *)
Theorem annotate_separates_the_molecules
      (mols : list Molecule) (i j : nat) (mi mj : Molecule)
      (ni nj : Z) (ai aj : Atom)
      (Hi : nth_error (make_bonds.annotate mols) i = Some mi)
      (Hj : nth_error (make_bonds.annotate mols) j = Some mj)
      (Hni : In (ni, ai) (nodes mi))
      (Hnj : In (nj, aj) (nodes mj)) :
List.length (make_bonds.annotate mols) = List.length mols
/\ mol_idx ai = Some i
/\ (exists m a, nth_error mols i = Some m /\ In (ni, a) (nodes m)
                /\ edges mi = edges m /\ meta mi = meta m
                /\ interactions mi = interactions m
                /\ map fst (nodes mi) = map fst (nodes m)
                /\ (element ai, atomname ai, resname ai, resid ai, chain ai)
                   = (element a, atomname a, resname a, resid a, chain a)
                /\ (position ai, charge_group ai, atype ai, charge ai)
                   = (position a, charge_group a, atype a, charge a))
/\ (i <> j ->
    make_bonds._residue_key_func ai <> make_bonds._residue_key_func aj).
Proof.
rewrite annotate_nth in Hi, Hj.
destruct (nth_error mols i) as [m|] eqn:Ei; [|discriminate].
destruct (nth_error mols j) as [m'|] eqn:Ej; [|discriminate].
simpl in Hi, Hj. inversion Hi; subst mi. inversion Hj; subst mj.
unfold make_bonds.set_mol_idx, Graph.set_nodes in Hni, Hnj. simpl in Hni, Hnj.
apply in_map_iff in Hni, Hnj.
destruct Hni as ([n a] & E & Hin), Hnj as ([n' a'] & E' & Hin').
simpl in E, E'. inversion E; subst. inversion E'; subst.
split.
{ unfold make_bonds.annotate, make_bonds.enumerate.
  rewrite length_map, length_combine, length_seq. lia. }
split; [reflexivity|]. split.
- exists m, a. simpl. rewrite map_map. simpl. auto 10.
- intros Hij. unfold make_bonds._residue_key_func. simpl. congruence.
Qed.

(** Two molecules of one carbon each, alike but for their rank. *)
Lemma annotate_separates_the_molecules_witness :
make_bonds._residue_key_func
  (mkAtom (Some "C") None (Some "RES") (Some 1) (Some "A") (Some 0%nat)
          (Some 0%nat) None None None)
<> make_bonds._residue_key_func
     (mkAtom (Some "C") None (Some "RES") (Some 1) (Some "A") (Some 1%nat)
             (Some 1%nat) None None None).
Proof.
destruct (annotate_separates_the_molecules
            (make_bonds.molecules Examples.two_molecules) 0 1 _ _ 0 0 _ _
            eq_refl eq_refl (or_introl eq_refl) (or_introl eq_refl))
  as (_ & _ & _ & H).
apply H. discriminate.
Defined.

(** ** The virtual sites, further *)


Section SiteNumbers.

Import Graph go_vs_includes Sites Numbering.

Variables (prefix backbone atomname_ : string) (charge_ : Z).

Lemma virtual_site_attrs_cases cg a (m : Molecule) :
(has_site_keys a = true /\
 exists r rn c p,
   resid a = Some r /\ resname a = Some rn /\ chain a = Some c
   /\ position a = Some p
   /\ virtual_site_attrs prefix atomname_ charge_ cg a m
      = (Return (mkAtom None (Some atomname_) (Some rn) (Some r) (Some c)
                        None (Some p) (Some cg)
                        (Some (prefix ++ "_" ++ str r)%string) (Some charge_)), m))
\/ (has_site_keys a = false /\
    exists what,
      virtual_site_attrs prefix atomname_ charge_ cg a m
      = (Raise (KeyError what), m)).
Proof.
unfold has_site_keys, virtual_site_attrs, bind, subscript, ret, raise.
destruct (resid a) as [r|]; [|right; eauto].
destruct (resname a) as [rn|]; [|right; eauto].
destruct (chain a) as [c|]; [|right; eauto].
destruct (position a) as [p|]; [|right; eauto].
left. split; [reflexivity|]. exists r, rn, c, p. auto.
Qed.

(** The loop does not touch the molecule; it raises on the first
  backbone atom that lacks a key, and numbers the sites from the two
  counters otherwise. *)
Lemma collect_virtual_sites_cases todo :
forall id cg acc_nodes acc_sites (m : Molecule),
(exists n a what,
    In (n, a) todo /\ is_backbone backbone a = true
    /\ has_site_keys a = false
    /\ collect_virtual_sites prefix backbone atomname_ charge_ todo id cg
                             acc_nodes acc_sites m
       = (Raise (KeyError what), m))
\/ (exists sites new,
       collect_virtual_sites prefix backbone atomname_ charge_ todo id cg
                             acc_nodes acc_sites m
       = (Return (acc_nodes ++ sites, acc_sites ++ new), m)
       /\ (forall n a, In (n, a) todo -> is_backbone backbone a = true ->
                       has_site_keys a = true)
       /\ List.length sites
          = List.length (filter (fun na => is_backbone backbone (snd na)) todo)
       /\ List.length new = List.length sites
       /\ forall k bb site,
            nth_error (filter (fun na => is_backbone backbone (snd na)) todo) k
            = Some bb ->
            nth_error sites k = Some site ->
            fst site = id + 1 + Z.of_nat k
            /\ charge_group (snd site) = Some (cg + 1 + Z.of_nat k)
            /\ atomname (snd site) = Some atomname_
            /\ charge (snd site) = Some charge_
            /\ element (snd site) = None /\ mol_idx (snd site) = None
            /\ exists r, resid (snd bb) = Some r
                         /\ atype (snd site) = Some (prefix ++ "_" ++ str r)%string).
Proof.
induction todo as [|[node_id atom] todo IH];
  intros id cg acc_nodes acc_sites m; simpl.
- right. exists [], []. rewrite !app_nil_r.
  split; [reflexivity|]. split; [intros ? ? []|]. split; [reflexivity|].
  split; [reflexivity|]. intros [|k] ? ? H; discriminate.
- destruct (is_backbone backbone atom) eqn:B; simpl.
  + destruct (virtual_site_attrs_cases (cg + 1) atom m)
      as [(K & r & rn & c & p & R1 & R2 & R3 & R4 & Hattrs)
         |(K & what & Hattrs)].
    * unfold bind. rewrite Hattrs.
      destruct (IH (id + 1) (cg + 1)
                   (acc_nodes ++ [(id + 1,
                       mkAtom None (Some atomname_) (Some rn) (Some r)
                              (Some c) None (Some p) (Some (cg + 1))
                              (Some (prefix ++ "_" ++ str r)%string) (Some charge_))])
                   (acc_sites ++ [virtual_site (id + 1) node_id]) m)
        as [(n & a & what & Hin & Hb & Hk & Hrun)
           |(sites & new & Hrun & Hall & Hlen & Hlen' & Hnum)].
      -- left. exists n, a, what. auto.
      -- right. eexists (_ :: sites), (_ :: new).
         rewrite Hrun, <- !app_assoc. simpl.
         split; [reflexivity|]. split.
         { intros n a [E|Hin] Hb; [inversion E; subst; exact K | eauto]. }
         split; [now rewrite Hlen|]. split; [now rewrite Hlen'|].
         intros [|k] bb site Hbb Hsite; simpl in *.
         ++ inversion Hbb; subst. inversion Hsite; subst. simpl.
            rewrite !Z.add_0_r.
            repeat split; try reflexivity. exists r. split; [exact R1|].
            reflexivity.
         ++ destruct (Hnum k bb site Hbb Hsite)
              as (H1 & H2 & H3 & H4 & H5 & H6 & H7).
            repeat split; auto; try lia.
            rewrite H2. f_equal. lia.
    * left. exists node_id, atom, what.
      unfold bind at 1. rewrite Hattrs. auto.
  + destruct (IH id cg acc_nodes acc_sites m)
      as [(n & a & what & Hin & Hb & Hk & Hrun)
         |(sites & new & Hrun & Hall & Hrest)].
    * left. exists n, a, what. auto.
    * right. exists sites, new. split; [exact Hrun|].
      split; [|exact Hrest].
      intros n a [E|Hin] Hb; [inversion E; subst; congruence | eauto].
Qed.

End SiteNumbers.

Section SitesAdded.

Import Graph go_vs_includes Sites Numbering.

Variables (prefix backbone atomname_ : string) (charge_ : Z).

(** [add_virtual_sites] either raises on a backbone atom that lacks a key
  and leaves the molecule as it was, or appends numbered sites. *)
Lemma add_virtual_sites_cases (m : Molecule) :
(exists n a what,
    In (n, a) (nodes m) /\ is_backbone backbone a = true
    /\ has_site_keys a = false
    /\ add_virtual_sites prefix backbone atomname_ charge_ m
       = (Raise (KeyError what), m))
\/ (exists sites new,
       add_virtual_sites prefix backbone atomname_ charge_ m
       = (Return tt,
          match nodes m with
          | [] => m
          | _ => extend_virtual_sitesn (set_nodes m (nodes m ++ sites)) new
          end)
       /\ (forall n a, In (n, a) (nodes m) -> is_backbone backbone a = true ->
                       has_site_keys a = true)
       /\ List.length sites
          = List.length (filter (fun na => is_backbone backbone (snd na))
                                (nodes m))
       /\ List.length new = List.length sites
       /\ forall k bb site,
            nth_error (filter (fun na => is_backbone backbone (snd na))
                              (nodes m)) k
            = Some bb ->
            nth_error sites k = Some site ->
            fst site = largest_key m + 1 + Z.of_nat k
            /\ charge_group (snd site)
               = Some (largest_charge_group m + 1 + Z.of_nat k)
            /\ atomname (snd site) = Some atomname_
            /\ charge (snd site) = Some charge_
            /\ element (snd site) = None /\ mol_idx (snd site) = None
            /\ exists r, resid (snd bb) = Some r
                         /\ atype (snd site)
                            = Some (prefix ++ "_" ++ str r)%string).
Proof.
assert (add_virtual_sites prefix backbone atomname_ charge_ m
        = match node_ids m with
          | [] => (Return tt, m)
          | first :: others =>
              match collect_virtual_sites prefix backbone atomname_ charge_
                      (nodes m) (max_of first others)
                      (largest_charge_group m) [] [] m with
              | (Return found, m1) =>
                  (Return tt,
                   extend_virtual_sitesn (add_nodes_from m1 (fst found))
                                         (snd found))
              | (Raise e, m1) => (Raise e, m1)
              end
          end) as Hcall.
{ unfold add_virtual_sites, bind, get, modify, largest_charge_group.
  destruct (node_ids m); [reflexivity|].
  destruct (collect_virtual_sites _ _ _ _ _ _ _ _ _ _) as [[found|e] m1];
    reflexivity. }
rewrite Hcall. clear Hcall.
destruct (node_ids m) as [|first others] eqn:Ids.
- assert (nodes m = []) as Hnil
    by (unfold node_ids in Ids; now destruct (nodes m)).
  right. exists [], []. rewrite Hnil. simpl.
  split; [reflexivity|]. split; [intros ? ? []|].
  split; [reflexivity|]. split; [reflexivity|].
  intros [|k] ? ? H; discriminate.
- destruct (collect_virtual_sites_cases prefix backbone atomname_ charge_
              (nodes m) (max_of first others) (largest_charge_group m)
              [] [] m)
    as [(n & a & what & Hin & Hb & Hk & Hrun)
       |(sites & new & Hrun & Hall & Hlen & Hlen' & Hnum)].
  + left. exists n, a, what. rewrite Hrun. auto.
  + right. exists sites, new. rewrite Hrun. simpl.
    assert (forall k site, nth_error sites k = Some site ->
                           fst site = max_of first others + 1 + Z.of_nat k)
      as Hids.
    { intros k site Hs.
      assert (k < List.length sites)%nat as Hk
        by (apply nth_error_Some; congruence).
      rewrite Hlen in Hk. apply nth_error_Some in Hk.
      destruct (nth_error (filter _ (nodes m)) k) as [bb|] eqn:Hbb;
        [|congruence].
      now destruct (Hnum k bb site Hbb Hs). }
    assert (forall start, (forall k site, nth_error sites k = Some site ->
                                          fst site = start + 1 + Z.of_nat k) ->
                          ascending start (map fst sites)) as Hasc.
    { clear. induction sites as [|s sites IH]; intros start H; simpl; [exact I|].
      pose proof (H 0%nat s eq_refl) as H0. simpl in H0. split; [lia|].
      apply IH. intros k site Hk. rewrite (H (S k) site Hk). lia. }
    rewrite (add_nodes_from_fresh sites m (max_of first others)
                                  (Hasc _ Hids)).
    2:{ intros n Hn. apply max_of_upper. now rewrite <- Ids. }
    assert (nodes m <> []) as Hne
      by (intros E; unfold node_ids in Ids; rewrite E in Ids; discriminate).
    unfold largest_key. rewrite Ids.
    destruct (nodes m) as [|x xs] eqn:Nodes; [congruence|].
    split; [reflexivity|]. split; [exact Hall|]. split; [exact Hlen|].
    split; [exact Hlen'|]. exact Hnum.
Qed.

End SitesAdded.

(** X15. [add_virtual_sites] fails before it adds. It raises exactly
  when an atom of the molecule that bears the backbone name lacks one of
  the keys [resid], [resname], [chain] and [position]; the exception is
  a [KeyError] and the molecule is left as it was. *)
Theorem add_virtual_sites_fails_before_it_adds
      (prefix backbone atomname_ : string) (charge_ : Z) (m : Molecule) :
let result :=
  go_vs_includes.add_virtual_sites prefix backbone atomname_ charge_ m in
(forall e, fst result = Raise e ->
           state_after result = m /\ exists what, e = KeyError what)
/\ ((exists e, fst result = Raise e)
    <-> exists n a, In (n, a) (nodes m)
                    /\ go_vs_includes.is_backbone backbone a = true
                    /\ Sites.has_site_keys a = false).
Proof.
intros result. unfold result.
destruct (add_virtual_sites_cases prefix backbone atomname_ charge_ m)
  as [(n & a & what & Hin & Hb & Hk & Hrun)
     |(sites & new & Hrun & Hall & _)]; rewrite Hrun; simpl.
- split.
  + intros e E. inversion E; subst. split; [reflexivity | eauto].
  + split; [intros _; eauto | intros _; eauto].
- split; [discriminate|]. split.
  + intros [e E]. discriminate.
  + intros (n & a & Hin & Hb & Hk). rewrite (Hall n a Hin Hb) in Hk.
    discriminate.
Qed.

(** X16. When [add_virtual_sites] returns on a molecule that has atoms,
  the site of the backbone atom of rank [k] (from 0) is appended under
  the key [max(molecule.nodes) + 1 + k], above every key of the
  molecule, in the charge group [c + 1 + k], where [c] is the largest
  charge group of the molecule (0 when it has none), above every charge
  group of the molecule; it has the atom name and the charge asked for,
  the bead type [<prefix>_<resid>] of its backbone atom, and neither an
  element nor a molecule index. *)
Theorem add_virtual_sites_numbers_the_sites
      (prefix backbone atomname_ : string) (charge_ : Z) (m m' : Molecule)
      (Hatoms : nodes m <> [])
      (Hret : go_vs_includes.add_virtual_sites prefix backbone atomname_
                                               charge_ m
              = (Return tt, m')) :
let beads :=
  filter (fun na => go_vs_includes.is_backbone backbone (snd na)) (nodes m) in
exists sites,
  nodes m' = nodes m ++ sites
  /\ List.length sites = List.length beads
  /\ forall k bead site,
       nth_error beads k = Some bead ->
       nth_error sites k = Some site ->
       fst site = Numbering.largest_key m + 1 + Z.of_nat k
       /\ (forall n, In n (Graph.node_ids m) -> n < fst site)
       /\ charge_group (snd site)
          = Some (Numbering.largest_charge_group m + 1 + Z.of_nat k)
       /\ (forall c, In c (go_vs_includes.charge_groups m) ->
                     c < Numbering.largest_charge_group m + 1 + Z.of_nat k)
       /\ atomname (snd site) = Some atomname_
       /\ charge (snd site) = Some charge_
       /\ element (snd site) = None /\ mol_idx (snd site) = None
       /\ exists r, resid (snd bead) = Some r
                    /\ atype (snd site)
                       = Some (prefix ++ "_" ++ go_vs_includes.str r)%string.
Proof.
intros beads.
destruct (add_virtual_sites_cases prefix backbone atomname_ charge_ m)
  as [(n & a & what & _ & _ & _ & Hrun)
     |(sites & new & Hrun & _ & Hlen & _ & Hnum)];
  rewrite Hrun in Hret; [discriminate|].
destruct (nodes m) as [|x xs] eqn:Nodes; [congruence|].
inversion Hret; subst m'. exists sites. simpl.
split; [reflexivity|]. split; [exact Hlen|].
intros k bead site Hb Hs.
destruct (Hnum k bead site Hb Hs) as (H1 & H2 & H3 & H4 & H5 & H6 & H7).
split; [exact H1|]. split.
{ intros n Hn. rewrite H1. unfold Numbering.largest_key.
  destruct (Graph.node_ids m) as [|first others] eqn:Ids; [destruct Hn|].
  pose proof (max_of_upper first others n Hn). lia. }
split; [exact H2|]. split.
{ intros c Hc. unfold Numbering.largest_charge_group.
  destruct (go_vs_includes.charge_groups m) as [|c0 cs]; [destruct Hc|].
  pose proof (max_of_upper c0 cs c Hc). lia. }
auto.
Qed.

(** Five backbone beads among eight beads with the charge groups 1 to 8. *)
Lemma add_virtual_sites_numbers_the_sites_witness :
exists sites,
  nodes (state_after (go_vs_includes.add_virtual_sites
                        "molecule_0" "BB" "CA" 0 Examples.five_and_three))
  = nodes Examples.five_and_three ++ sites
  /\ map fst sites = [8; 9; 10; 11; 12]
  /\ map (fun s => charge_group (snd s)) sites
     = [Some 9; Some 10; Some 11; Some 12; Some 13].
Proof.
destruct (go_vs_includes.add_virtual_sites "molecule_0" "BB" "CA" 0
                                           Examples.five_and_three)
  as [[[]|e] m'] eqn:H; [|vm_compute in H; discriminate].
destruct (add_virtual_sites_numbers_the_sites
            "molecule_0" "BB" "CA" 0 Examples.five_and_three m'
            ltac:(discriminate) H) as (sites & Hn & _).
exists sites. split; [exact Hn|].
vm_compute in H. inversion H; subst m'. simpl in Hn.
repeat match type of Hn with
       | _ :: _ = _ :: _ => inversion Hn as [Hn']; clear Hn; rename Hn' into Hn
       end.
subst sites. split; reflexivity.
Defined.

Section RunMolecule.

Import Graph go_vs_includes Sites Numbering.

Lemma run_molecule_cases (self : GoVirtIncludes) (m : Molecule) :
run_molecule self m
= match moltype (meta m) with
  | None | Some EmptyString =>
      (Raise (ValueError "The molecule does not have a moltype name."), m)
  | Some moltype_ =>
      match add_virtual_sites moltype_ "BB" "CA" 0 m with
      | (Return _, m1) =>
          (Return tt,
           set_post_section_lines
             m1 (fold_left (add_include moltype_) (sections self)
                           match post_section_lines (meta m1) with
                           | Some d => d
                           | None => []
                           end))
      | (Raise e, m1) => (Raise e, m1)
      end
  end.
Proof.
unfold run_molecule, bind at 1, get.
destruct (moltype (meta m)) as [[|c rest]|]; reflexivity.
Qed.

(** One pass over a molecule that has a type name and whose backbone
  atoms have the keys a site reads. *)
Lemma run_molecule_once (self : GoVirtIncludes) (m : Molecule) name_ :
moltype (meta m) = Some name_ -> name_ <> EmptyString ->
forallb (fun na => has_site_keys (snd na)) (backbone_atoms m) = true ->
NoDup (sections self) ->
exists m' sites new,
  run_molecule self m = (Return tt, m')
  /\ nodes m' = nodes m ++ sites
  /\ List.length sites = List.length (backbone_atoms m)
  /\ (forall site, In site sites -> atomname (snd site) = Some "CA")
  /\ virtual_sitesn m' = virtual_sitesn m ++ new
  /\ List.length new = List.length (backbone_atoms m)
  /\ moltype (meta m') = Some name_
  /\ forall section, In section (sections self) ->
                     lines_of m' section
                     = lines_of m section ++ [include_line name_ section].
Proof.
intros Htype Hname Hkeys Hsections.
rewrite run_molecule_cases, Htype.
destruct name_ as [|c rest]; [congruence|].
destruct (add_virtual_sites_cases (String c rest) "BB" "CA" 0 m)
  as [(n & a & what & Hin & Hb & Hk & _)
     |(sites & new & Hrun & _ & Hlen & Hlen' & Hnum)].
{ exfalso. rewrite forallb_forall in Hkeys.
  assert (In (n, a) (backbone_atoms m)) as H
    by (apply filter_In; split; assumption).
  apply Hkeys in H. simpl in H. congruence. }
rewrite Hrun.
assert (forall site, In site sites -> atomname (snd site) = Some "CA") as Hca.
{ intros site Hs. apply In_nth_error in Hs. destruct Hs as [k Hk].
  assert (k < List.length sites)%nat as Hlt
    by (apply nth_error_Some; congruence).
  rewrite Hlen in Hlt. apply nth_error_Some in Hlt.
  destruct (nth_error (filter _ (nodes m)) k) as [bb|] eqn:Hbb; [|congruence].
  now destruct (Hnum k bb site Hbb Hk) as (_ & _ & H & _). }
destruct (nodes m) as [|x xs] eqn:Nodes.
- assert (sites = []) as -> by (destruct sites; [reflexivity|discriminate]).
  assert (new = []) as -> by (destruct new; [reflexivity|discriminate]).
  eexists _, [], []. split; [reflexivity|]. simpl.
  unfold backbone_atoms, virtual_sitesn, lines_of. rewrite Nodes. simpl.
  rewrite app_nil_r.
  repeat split; auto.
  intros section Hsec.
  rewrite (fold_add_include_one _ _ _ _ Hsections Hsec).
  now destruct (post_section_lines (meta m)).
- eexists _, sites, new. split; [reflexivity|]. simpl.
  unfold backbone_atoms. rewrite Nodes.
  split; [reflexivity|]. split; [exact Hlen|]. split; [exact Hca|].
  split.
  { unfold virtual_sitesn, extend_virtual_sitesn. simpl.
    now rewrite interactions_get_set. }
  split; [congruence|]. split; [exact Htype|].
  intros section Hsec. unfold lines_of. simpl.
  rewrite (fold_add_include_one _ _ _ _ Hsections Hsec).
  now destruct (post_section_lines (meta m)).
Qed.

End RunMolecule.

(** X14. [GoVirtIncludes.run_molecule] raises [ValueError] exactly when
  the molecule has no type name or an empty one; and whenever it raises,
  for this or any other reason, the molecule is left as it was: no site,
  no interaction and no include line has been added. *)
Theorem run_molecule_needs_a_type_name
      (self : go_vs_includes.GoVirtIncludes) (m : Molecule) :
let result := go_vs_includes.run_molecule self m in
((exists msg, fst result = Raise (ValueError msg))
 <-> (moltype (meta m) = None \/ moltype (meta m) = Some EmptyString))
/\ (forall e, fst result = Raise e -> state_after result = m).
Proof.
intros result. unfold result. rewrite run_molecule_cases.
destruct (moltype (meta m)) as [[|c rest]|] eqn:T; simpl.
- split; [split; eauto|]. auto.
- destruct (add_virtual_sites_cases (String c rest) "BB" "CA" 0 m)
    as [(n & a & what & _ & _ & _ & Hrun)|(sites & new & Hrun & _)];
    rewrite Hrun; simpl.
  + split; [|auto]. split; [intros [msg E]; discriminate|].
    intros [E|E]; discriminate.
  + split; [|discriminate]. split; [intros [msg E]; discriminate|].
    intros [E|E]; discriminate.
- split; [split; eauto|]. auto.
Qed.

(** X17. The pass accumulates. On a molecule that has a type name and
  whose backbone atoms have the keys a site reads, a second pass returns
  as the first did: the sites of the first pass are no backbone atoms,
  so the second pass adds as many sites and interactions again, and
  every configured section ends with the same include line twice. *)
Theorem run_molecule_twice_adds_twice
      (self : go_vs_includes.GoVirtIncludes) (m : Molecule) (name_ : string)
      (Htype : moltype (meta m) = Some name_)
      (Hname : name_ <> EmptyString)
      (Hkeys : forallb (fun na => Sites.has_site_keys (snd na))
                       (Sites.backbone_atoms m) = true)
      (Hsections : NoDup (go_vs_includes.sections self)) :
let once := state_after (go_vs_includes.run_molecule self m) in
let again := go_vs_includes.run_molecule self once in
let twice := state_after again in
fst again = Return tt
/\ Sites.backbone_atoms once = Sites.backbone_atoms m
/\ List.length (nodes twice)
   = (List.length (nodes m) + 2 * List.length (Sites.backbone_atoms m))%nat
/\ List.length (Sites.virtual_sitesn twice)
   = (List.length (Sites.virtual_sitesn m)
      + 2 * List.length (Sites.backbone_atoms m))%nat
/\ forall section,
     In section (go_vs_includes.sections self) ->
     Sites.lines_of twice section
     = Sites.lines_of m section
       ++ [go_vs_includes.include_line name_ section;
           go_vs_includes.include_line name_ section].
Proof.
intros once again twice.
destruct (run_molecule_once self m name_ Htype Hname Hkeys Hsections)
  as (m1 & sites & new & Hrun & Hn & Hlen & Hca & Hvs & Hlen' & Ht & Hl).
assert (once = m1) as Honce by (unfold once; now rewrite Hrun).
assert (Sites.backbone_atoms m1 = Sites.backbone_atoms m) as Hbb.
{ unfold Sites.backbone_atoms. rewrite Hn, filter_app.
  assert (filter (fun na => go_vs_includes.is_backbone "BB" (snd na)) sites
          = []) as ->; [|apply app_nil_r].
  clear -Hca. induction sites as [|s sites IH]; [reflexivity|]. simpl.
  unfold go_vs_includes.is_backbone at 1.
  rewrite (Hca s (or_introl eq_refl)). simpl.
  apply IH. intros; apply Hca; now right. }
destruct (run_molecule_once self m1 name_ Ht Hname) as
    (m2 & sites2 & new2 & Hrun2 & Hn2 & Hlen2 & _ & Hvs2 & Hlen2' & _ & Hl2);
  [now rewrite Hbb | exact Hsections |].
unfold twice, again. rewrite Honce, Hrun2. simpl.
split; [reflexivity|]. split; [exact Hbb|]. split.
{ rewrite Hn2, Hn, !length_app, Hlen2, Hlen, Hbb. lia. }
split.
{ rewrite Hvs2, Hvs, !length_app, Hlen2', Hlen', Hbb. lia. }
intros section Hsec. rewrite (Hl2 section Hsec), (Hl section Hsec).
now rewrite <- app_assoc.
Qed.

(** Five backbone beads among eight beads, under the default sections. *)
Lemma run_molecule_twice_adds_twice_witness :
let once :=
  state_after (go_vs_includes.run_molecule go_vs_includes.default_processor
                                           Examples.five_and_three) in
let twice :=
  state_after (go_vs_includes.run_molecule go_vs_includes.default_processor
                                           once) in
List.length (nodes twice) = 18%nat
/\ Sites.lines_of twice "exclusions"
   = [go_vs_includes.include_line "molecule_0" "exclusions";
      go_vs_includes.include_line "molecule_0" "exclusions"].
Proof.
intros once twice.
destruct (run_molecule_twice_adds_twice
            go_vs_includes.default_processor Examples.five_and_three
            "molecule_0" eq_refl)
  as (_ & _ & Hn & _ & Hl).
- discriminate.
- reflexivity.
- repeat constructor; simpl; tauto.
- split; [exact Hn|]. apply (Hl "exclusions"). simpl. auto.
Defined.

(** ** The reader of mapping files *)

Section ReadMapping.

Import entry_api Lines.

Lemma read_line_blank n line locals :
blank line -> read_line n line locals = Ok locals.
Proof.
unfold blank, read_line. now intros ->.
Qed.

Lemma read_line_any_number n n' line locals locals' :
read_line n line locals = Ok locals' -> read_line n' line locals = Ok locals'.
Proof.
unfold read_line.
destruct (PyStr.strip (PyStr.before ";" line)) as [|first rest]; [auto|].
destruct (Ascii.eqb first "["); [|auto].
destruct (PyStr.last (String first rest)) as [c|]; [|discriminate].
destruct (Ascii.eqb_spec c "]"%char) as [->|Hne]; [auto|].
destruct c as [[] [] [] [] [] [] [] []]; try discriminate; congruence.
Qed.

Lemma read_lines_any_number lines : forall n n' locals locals',
read_lines n lines locals = Ok locals' ->
read_lines n' lines locals = Ok locals'.
Proof.
induction lines as [|line lines IH]; intros n n' locals locals' H; [exact H|].
simpl in *.
destruct (read_line n line locals) as [l1|e] eqn:R; [|discriminate].
rewrite (read_line_any_number n n' _ _ _ R). eapply IH. exact H.
Qed.

Lemma read_lines_app l1 : forall n l2 locals,
read_lines n (l1 ++ l2) locals
= match read_lines n l1 locals with
  | Ok locals1 => read_lines (n + List.length l1) l2 locals1
  | Err e => Err e
  end.
Proof.
induction l1 as [|line l1 IH]; intros n l2 locals; simpl.
- now rewrite Nat.add_0_r.
- destruct (read_line n line locals) as [locals1|e]; [|reflexivity].
  rewrite IH. now rewrite Nat.add_succ_r.
Qed.

End ReadMapping.

(** X18. [read_mapping] skips the lines without content. Adding or
  removing, anywhere in the file, a line that has nothing but white
  space before its first semicolon does not change whether the file is
  read, nor what is returned. *)
Theorem read_mapping_skips_blank_lines
      (above below : list string) (line : string)
      (r : string * list string * list string * entry_api.Mapping)
      (Hblank : Lines.blank line) :
entry_api.read_mapping (above ++ line :: below) = entry_api.Ok r
<-> entry_api.read_mapping (above ++ below) = entry_api.Ok r.
Proof.
unfold entry_api.read_mapping. rewrite !read_lines_app.
destruct (entry_api.read_lines 1 above entry_api.initial) as [locals1|e];
  [|tauto].
simpl. rewrite (read_line_blank _ _ _ Hblank).
assert (forall n n', entry_api.read_lines n below locals1
                     = entry_api.read_lines n' below locals1
                     \/ (exists e, entry_api.read_lines n below locals1
                                   = entry_api.Err e)
                        /\ (exists e, entry_api.read_lines n' below locals1
                                      = entry_api.Err e)) as H.
{ intros n n'.
  destruct (entry_api.read_lines n below locals1) as [l|e] eqn:R.
  - left. symmetry. eapply read_lines_any_number. exact R.
  - destruct (entry_api.read_lines n' below locals1) as [l|e'] eqn:R'.
    + rewrite (read_lines_any_number _ _ n _ _ R') in R. discriminate.
    + right. eauto. }
match goal with
| |- context [entry_api.read_lines ?n1 below locals1] =>
    match goal with
    | |- _ <-> match entry_api.read_lines ?n2 below locals1 with
               | entry_api.Ok _ => _
               | entry_api.Err _ => _
               end = _ =>
        destruct (H n1 n2) as [->|[[e1 ->] [e2 ->]]]; [tauto|]
    end
end.
split; discriminate.
Qed.

Section ReadMappingShape.

Import entry_api Lines.

Lemma atom_eqb_eq (a b : MapAtom) : atom_eqb a b = true <-> a = b.
Proof.
destruct a as [i s], b as [j t]. unfold atom_eqb. simpl.
rewrite andb_true_iff, Z.eqb_eq, String.eqb_eq. split.
- intros [-> ->]. reflexivity.
- intros E. inversion E. auto.
Qed.

Lemma mapping_set_In m key value k v :
In (k, v) (mapping_set m key value) -> (k, v) = (key, value) \/ In (k, v) m.
Proof.
induction m as [|[k0 v0] m IH]; simpl.
- intros [E|[]]. left. now symmetry.
- destruct (atom_eqb key k0) eqn:E.
  + apply atom_eqb_eq in E. subst k0. intros [H|H]; [left; now symmetry|].
    right. now right.
  + intros [H|H]; [right; now left|].
    destruct (IH H) as [?|?]; [now left | right; now right].
Qed.

Lemma mapping_set_keys m key value :
NoDup (map fst m) -> NoDup (map fst (mapping_set m key value)).
Proof.
induction m as [|[k0 v0] m IH]; simpl; intros ND.
- constructor; [intros []|constructor].
- destruct (atom_eqb key k0) eqn:E; simpl; [exact ND|].
  inversion ND as [|? ? Hnotin ND']; subst.
  constructor; [|now apply IH].
  intros Hin. apply in_map_iff in Hin. destruct Hin as ([k v] & Ek & Hin).
  simpl in Ek. subst k.
  destruct (mapping_set_In _ _ _ _ _ Hin) as [H|H].
  + inversion H; subst. rewrite (proj2 (atom_eqb_eq key key) eq_refl) in E.
    discriminate.
  + apply Hnotin. change k0 with (fst (k0, v)). now apply in_map.
Qed.

Lemma grounded_more seen more locals :
grounded seen locals -> grounded (seen ++ more) locals.
Proof.
intros (Hn & Hc & Hd & Hm). split; [|split; [|split; [exact Hd|]]].
- intros nm E. destruct (Hn nm E) as (h & l & H1 & H2 & H).
  exists h, l. split; [apply in_or_app; now left|].
  split; [apply in_or_app; now left | exact H].
- intros c E. destruct (Hc c E) as (h & H1 & H). exists h.
  split; [apply in_or_app; now left | exact H].
- intros k v E. destruct (Hm k v E) as (H1 & H2 & l & f & H3 & H4).
  split; [exact H1|]. split; [exact H2|]. exists l, f.
  split; [apply in_or_app; now left | exact H4].
Qed.

Lemma read_line_grounded n line seen locals locals' :
read_line n line locals = Ok locals' ->
grounded seen locals -> grounded (seen ++ [line]) locals'.
Proof.
intros Hrun Hg. pose proof (grounded_more seen [line] locals Hg) as Hg'.
assert (In line (seen ++ [line])) as Hline
  by (apply in_or_app; right; now left).
unfold read_line in Hrun. fold (cleaned line) in Hrun.
destruct (cleaned line) as [|first rest] eqn:C.
{ inversion Hrun; subst. exact Hg'. }
destruct (Ascii.eqb first "[") eqn:B.
- destruct (PyStr.last (String first rest)) as [c|]; [|discriminate].
  destruct (Ascii.eqb_spec c "]"%char) as [->|Hne].
  2:{ destruct c as [[] [] [] [] [] [] [] []]; try discriminate; congruence. }
  inversion Hrun; subst. destruct Hg' as (Hn & Hc & Hd & Hm).
  split; [exact Hn|]. split; [|split; [exact Hd | exact Hm]].
  simpl. intros c E. inversion E; subst. exists line.
  split; [exact Hline|]. unfold opens_section. rewrite C. auto.
- destruct (context locals) as [ctx|] eqn:Ctx; [|discriminate].
  destruct (String.eqb_spec ctx "molecule") as [->|Hmol].
  + inversion Hrun; subst. destruct Hg' as (Hn & Hc & Hd & Hm).
    split; [|split; [|split; [exact Hd | exact Hm]]].
    2:{ intros c E. simpl in E. apply Hc. congruence. }
    simpl. intros nm E. inversion E; subst.
    destruct (Hc "molecule" Ctx) as (h & H1 & H2 & H3).
    exists h, line. unfold opens_section. rewrite C.
    repeat split; auto. discriminate.
  + destruct (String.eqb ctx "atoms"); [|inversion Hrun; subst; exact Hg'].
    destruct (PyStr.split line) as [|t0 [|from_atom to_atoms]] eqn:T;
      try discriminate.
    inversion Hrun; subst. destruct Hg' as (Hn & Hc & Hd & Hm).
    split; [exact Hn|]. split.
    { intros c E. simpl in E. apply Hc. congruence. }
    simpl. split; [now apply mapping_set_keys|].
    intros k v Hin. destruct (mapping_set_In _ _ _ _ _ Hin) as [E|H].
    * inversion E; subst. simpl. split; [reflexivity|]. split.
      -- intros a Ha. apply in_map_iff in Ha. destruct Ha as (x & <- & _).
         reflexivity.
      -- exists line, t0. split; [exact Hline|].
         rewrite map_map. simpl. now rewrite map_id.
    * now apply Hm.
Qed.

Lemma read_lines_grounded lines : forall n seen locals locals',
read_lines n lines locals = Ok locals' ->
grounded seen locals -> grounded (seen ++ lines) locals'.
Proof.
induction lines as [|line lines IH]; intros n seen locals locals' Hrun Hg.
- inversion Hrun; subst. now rewrite app_nil_r.
- simpl in Hrun.
  destruct (read_line n line locals) as [l1|e] eqn:R; [|discriminate].
  replace (seen ++ line :: lines) with ((seen ++ [line]) ++ lines)
    by (now rewrite <- app_assoc).
  eapply IH; [exact Hrun|]. eapply read_line_grounded; eassumption.
Qed.

End ReadMappingShape.

(** X19. What [read_mapping] returns. The origin is [universal] and the
  destination [martini22]; the name is the content of a line of the file
  that opens no section, and the file has a line that opens the section
  [molecule]; no atom is a key of the mapping twice; every atom of the
  mapping has the molecule index 0; and every entry comes from a line of
  the file whose fields, split on white space over the whole line, are
  one field, the atom of the key, then the atoms of the value. *)
Theorem read_mapping_result
      (lines : list string) (name_ : string) (from_ff to_ff : list string)
      (mapping_ : entry_api.Mapping)
      (Hret : entry_api.read_mapping lines
              = entry_api.Ok (name_, from_ff, to_ff, mapping_)) :
from_ff = ["universal"] /\ to_ff = ["martini22"]
/\ (exists header line,
       In header lines /\ In line lines
       /\ Lines.opens_section header = true
       /\ PyStr.strip (PyStr.inner (Lines.cleaned header)) = "molecule"
       /\ Lines.cleaned line = name_ /\ Lines.opens_section line = false
       /\ name_ <> EmptyString)
/\ NoDup (map fst mapping_)
/\ forall key value,
     In (key, value) mapping_ ->
     fst key = 0 /\ (forall a, In a value -> fst a = 0)
     /\ exists line first,
          In line lines
          /\ PyStr.split line = first :: snd key :: map snd value.
Proof.
unfold entry_api.read_mapping in Hret.
destruct (entry_api.read_lines 1 lines entry_api.initial) as [locals|e] eqn:R;
  [|discriminate].
destruct (entry_api.name locals) as [nm|] eqn:N; [|discriminate].
inversion Hret; subst.
destruct (read_lines_grounded lines 1 [] entry_api.initial locals R)
  as (Hn & _ & Hd & Hm).
{ split; [discriminate|]. split; [discriminate|].
  split; [constructor | intros ? ? []]. }
simpl in *. split; [reflexivity|]. split; [reflexivity|].
split; [now apply Hn|]. split; [exact Hd | exact Hm].
Qed.

(** The mapping file of alanine. *)
Lemma read_mapping_result_witness :
entry_api.read_mapping Files.ala_map
= entry_api.Ok ("ALA", ["universal"], ["martini22"],
                [((0, "N"), [(0, "BB")]);
                 ((0, "CA"), [(0, "BB"); (0, ";"); (0, "shared")])])
/\ exists line first,
     In line Files.ala_map
     /\ PyStr.split line = first :: "CA" :: ["BB"; ";"; "shared"].
Proof.
assert (entry_api.read_mapping Files.ala_map
        = entry_api.Ok ("ALA", ["universal"], ["martini22"],
                        [((0, "N"), [(0, "BB")]);
                         ((0, "CA"), [(0, "BB"); (0, ";"); (0, "shared")])]))
  as H by (vm_compute; reflexivity).
split; [exact H|].
destruct (read_mapping_result _ _ _ _ _ H) as (_ & _ & _ & _ & Hm).
destruct (Hm (0, "CA") [(0, "BB"); (0, ";"); (0, "shared")])
  as (_ & _ & Hline); [simpl; auto | exact Hline].
Defined.

(** The mapping file of alanine, with and without its comment and its
  empty line. *)
Lemma read_mapping_skips_blank_lines_witness :
entry_api.read_mapping Files.ala_map
= entry_api.read_mapping (Files.ala_head ++ Files.ala_tail).
Proof.
assert (exists r, entry_api.read_mapping Files.ala_map = entry_api.Ok r) as [r H]
  by (eexists; vm_compute; reflexivity).
rewrite H. symmetry.
apply (read_mapping_skips_blank_lines Files.ala_head Files.ala_tail Files.nl r eq_refl).
apply (read_mapping_skips_blank_lines [] (Files.ala_head ++ Files.nl :: Files.ala_tail)
                                      Files.ala_title r eq_refl).
exact H.
Defined.

Section ReadMappingErrors.

Import entry_api Lines.

Lemma read_lines_blank lines : forall n locals,
Forall blank lines -> read_lines n lines locals = Ok locals.
Proof.
induction lines as [|line lines IH]; intros n locals H; [reflexivity|].
inversion H; subst. simpl. rewrite read_line_blank by assumption. now apply IH.
Qed.

Lemma read_line_error n line locals e :
read_line n line locals = Err e -> e <> UnboundLocalError "name".
Proof.
unfold read_line.
destruct (PyStr.strip (PyStr.before ";" line)) as [|first rest];
  [discriminate|].
destruct (Ascii.eqb first "[").
- destruct (PyStr.last (String first rest)) as [c|];
    [|intros E; inversion E; discriminate].
  destruct c as [[] [] [] [] [] [] [] []];
    intros E; inversion E; discriminate.
- destruct (context locals) as [ctx|];
    [|intros E; inversion E; discriminate].
  destruct (String.eqb ctx "molecule"); [discriminate|].
  destruct (String.eqb ctx "atoms"); [|discriminate].
  destruct (PyStr.split line) as [|t0 [|t1 ts]];
    intros E; inversion E; discriminate.
Qed.

Lemma read_lines_error lines : forall n locals e,
read_lines n lines locals = Err e -> e <> UnboundLocalError "name".
Proof.
induction lines as [|line lines IH]; intros n locals e H; [discriminate|].
simpl in H. destruct (read_line n line locals) as [l1|e1] eqn:R.
- eapply IH. exact H.
- inversion H; subst. eapply read_line_error. exact R.
Qed.

End ReadMappingErrors.

(** X20. A file of lines without content makes [read_mapping] fail on
  the name it never assigned, and a first line with content that opens
  no section makes it fail on the context it never assigned: both are
  [UnboundLocalError], not a format error. *)
Theorem read_mapping_needs_a_section_and_a_name
      (above below : list string) (line : string)
      (Habove : Forall Lines.blank above) :
entry_api.read_mapping above
= entry_api.Err (entry_api.UnboundLocalError "name")
/\ (~ Lines.blank line -> Lines.opens_section line = false ->
    entry_api.read_mapping (above ++ line :: below)
    = entry_api.Err (entry_api.UnboundLocalError "context")).
Proof.
unfold entry_api.read_mapping. split.
- now rewrite (read_lines_blank above 1 entry_api.initial Habove).
- intros Hb Ho. rewrite read_lines_app.
  rewrite (read_lines_blank above 1 entry_api.initial Habove). simpl.
  unfold entry_api.read_line. unfold Lines.blank in Hb.
  unfold Lines.opens_section, Lines.cleaned in Ho.
  destruct (PyStr.strip (PyStr.before ";" line)) as [|first rest];
    [congruence|].
  rewrite Ho. reflexivity.
Qed.

(** Two lines without content, then a name out of any section. *)
Lemma read_mapping_needs_a_section_and_a_name_witness :
entry_api.read_mapping Files.nothing
= entry_api.Err (entry_api.UnboundLocalError "name")
/\ entry_api.read_mapping (Files.nothing ++ Files.stray_name :: Files.ala_head)
   = entry_api.Err (entry_api.UnboundLocalError "context").
Proof.
destruct (read_mapping_needs_a_section_and_a_name
            Files.nothing Files.ala_head Files.stray_name)
  as [H1 H2].
- repeat constructor.
- split; [exact H1|]. apply H2; [discriminate | reflexivity].
Defined.

(** X21. When the lines above it are read without an error, a line that
  opens a section and does not end with a closing bracket makes
  [read_mapping] raise [IOError] with the number of that line, counted
  from 1. *)
Theorem read_mapping_reports_the_line_of_an_open_bracket
      (above below : list string) (line : string)
      (Habove : (exists r, entry_api.read_mapping above = entry_api.Ok r)
                \/ entry_api.read_mapping above
                   = entry_api.Err (entry_api.UnboundLocalError "name"))
      (Hopens : Lines.opens_section line = true)
      (Hclosed : Lines.well_closed line = false) :
entry_api.read_mapping (above ++ line :: below)
= entry_api.Err
    (entry_api.IOError
       ("Format error at line " ++ PyStr.of_nat (S (List.length above)) ++ ".")).
Proof.
unfold entry_api.read_mapping in *. rewrite read_lines_app.
destruct (entry_api.read_lines 1 above entry_api.initial) as [locals|e] eqn:R.
2:{ destruct Habove as [[r H]|H]; [discriminate|]. inversion H; subst.
    exfalso. now apply (read_lines_error _ _ _ _ R). }
simpl. unfold entry_api.read_line.
unfold Lines.opens_section, Lines.well_closed, Lines.cleaned in *.
destruct (PyStr.strip (PyStr.before ";" line)) as [|first rest];
  [discriminate|].
rewrite Hopens.
destruct (PyStr.last (String first rest)) as [c|]; [|reflexivity].
destruct c as [[] [] [] [] [] [] [] []]; try reflexivity. discriminate.
Qed.

(** The section [atoms] with its bracket left open, on the third line. *)
Lemma read_mapping_reports_the_line_of_an_open_bracket_witness :
entry_api.read_mapping (Files.ala_head ++ Files.open_bracket :: Files.ala_tail)
= entry_api.Err (entry_api.IOError "Format error at line 3.").
Proof.
apply (read_mapping_reports_the_line_of_an_open_bracket
         Files.ala_head Files.ala_tail Files.open_bracket).
- left. eexists. vm_compute. reflexivity.
- reflexivity.
- reflexivity.
Defined.

Section Directory.

Import PyDict entry_api Dirs.

Lemma read_mapping_force_fields lines nm from_ff to_ff mp :
read_mapping lines = Ok (nm, from_ff, to_ff, mp) ->
from_ff = ["universal"] /\ to_ff = ["martini22"].
Proof.
unfold read_mapping.
destruct (read_lines 1 lines initial) as [locals|e]; [|discriminate].
destruct (name locals); [|discriminate].
intros E. inversion E. auto.
Qed.

Lemma record_shape by_name nm mp :
fold_left (record_from nm ["martini22"] mp) ["universal"] (shape by_name)
= shape (record by_name (nm, ["universal"], ["martini22"], mp)).
Proof.
destruct by_name as [fragments|]; reflexivity.
Qed.

Lemma read_files_shape files : forall by_name mappings,
read_files files (shape by_name) = Ok mappings ->
exists results,
  map read_mapping files = map Ok results
  /\ mappings = shape (fold_left record results by_name).
Proof.
induction files as [|lines files IH]; intros by_name mappings H.
- inversion H; subst. exists []. auto.
- simpl in H.
  destruct (read_mapping lines) as [[[[nm from_ff] to_ff] mp]|e] eqn:R;
    [|discriminate].
  destruct (read_mapping_force_fields _ _ _ _ _ R) as [-> ->].
  rewrite record_shape in H. destruct (IH _ _ H) as (results & Hr & Hm).
  exists ((nm, ["universal"], ["martini22"], mp) :: results).
  simpl. rewrite R, Hr. split; [reflexivity | exact Hm].
Qed.

Lemma dict_get_set {V} (d : list (string * V)) k v k' :
dict_get (dict_set d k v) k'
= if String.eqb k' k then Some v else dict_get d k'.
Proof.
induction d as [|[k0 v0] d IH]; simpl.
- reflexivity.
- destruct (String.eqb_spec k k0) as [->|Hne]; simpl.
  + destruct (String.eqb k' k0); reflexivity.
  + rewrite IH. destruct (String.eqb_spec k' k0) as [->|];
      [|reflexivity].
    destruct (String.eqb_spec k0 k); [congruence | reflexivity].
Qed.

Lemma find_over_app {A} (f : A -> bool) (l1 l2 : list A) :
find f (l1 ++ l2)
= match find f l1 with
  | Some x => Some x
  | None => find f l2
  end.
Proof.
induction l1 as [|x l1 IH]; simpl; [reflexivity|].
destruct (f x); [reflexivity | exact IH].
Qed.

Lemma record_fold results : forall by_name nm,
dict_get match fold_left record results by_name with
         | Some fragments => fragments
         | None => []
         end nm
= match last_named results nm with
  | Some r => Some (fragment_mapping r)
  | None => dict_get match by_name with
                     | Some fragments => fragments
                     | None => []
                     end nm
  end.
Proof.
unfold last_named.
induction results as [|r results IH]; intros by_name nm; [reflexivity|].
simpl. rewrite IH. rewrite find_over_app.
destruct (find _ (rev results)) as [r'|]; [reflexivity|].
simpl. rewrite dict_get_set. rewrite String.eqb_sym.
destruct (String.eqb (fragment_name r) nm); reflexivity.
Qed.

Lemma read_files_error above : forall lines below e mappings,
Forall (fun f => exists r, read_mapping f = Ok r) above ->
read_mapping lines = Err e ->
read_files (above ++ lines :: below) mappings = Err e.
Proof.
induction above as [|f above IH]; intros lines below e mappings Hok Herr.
- simpl. now rewrite Herr.
- inversion Hok as [|? ? [[[[nm ff] tf] mp] Hf] Hrest]; subst.
  simpl. rewrite Hf. now apply IH.
Qed.

End Directory.

(** X22. What [read_mapping_directory] returns: the dictionary is empty
  when there is no file; otherwise its only origin is [universal], with
  [martini22] as only destination, and under a name it holds the mapping
  of the last file read with that name. A file that cannot be read makes
  the whole call raise the error of that file. *)
Theorem read_mapping_directory_result (files : list (list string)) :
(forall mappings,
    entry_api.read_mapping_directory files = entry_api.Ok mappings ->
    exists results by_name,
      map entry_api.read_mapping files = map entry_api.Ok results
      /\ mappings = Dirs.shape by_name
      /\ (by_name = None <-> files = [])
      /\ forall nm,
           PyDict.dict_get match by_name with
                           | Some fragments => fragments
                           | None => []
                           end nm
           = option_map Dirs.fragment_mapping (Dirs.last_named results nm))
/\ (forall above lines below e,
       files = above ++ lines :: below ->
       Forall (fun f => exists r, entry_api.read_mapping f = entry_api.Ok r)
              above ->
       entry_api.read_mapping lines = entry_api.Err e ->
       entry_api.read_mapping_directory files = entry_api.Err e).
Proof.
split.
- intros mappings H. unfold entry_api.read_mapping_directory in H.
  destruct (read_files_shape files None mappings H) as (results & Hr & Hm).
  exists results, (fold_left Dirs.record results None).
  split; [exact Hr|]. split; [exact Hm|]. split.
  + pose proof (f_equal (@List.length _) Hr) as Hl.
    rewrite !length_map in Hl.
    destruct results as [|r results]; simpl.
    * split; [intros _|reflexivity]. now destruct files.
    * split; [|intros ->; discriminate].
      assert (forall rs o, fold_left Dirs.record rs (Some o) <> None) as Hs.
      { induction rs as [|x rs IH]; intros o; simpl;
          [discriminate | apply IH]. }
      intros E. exfalso. eapply Hs. exact E.
  + intros nm. rewrite record_fold.
    destruct (Dirs.last_named results nm); reflexivity.
- intros above lines below e -> Hok Herr.
  now apply read_files_error.
Qed.

(* ================================================================== *)
(** ** The repository of force fields *)
(* ================================================================== *)

Section Registering.

Import PyDict forcefield.

Variable glob : string -> list string.
Variable open_raises : string -> option error.
Variables read_rtp read_ff : string -> ForceField -> option error * ForceField.

Lemma dict_set_keys {V} (d : list (string * V)) k v :
(In k (map fst d) /\ map fst (dict_set d k v) = map fst d)
\/ (~ In k (map fst d) /\ map fst (dict_set d k v) = map fst d ++ [k]).
Proof.
induction d as [|[k0 v0] d IH]; simpl.
- right. split; [tauto | reflexivity].
- destruct (String.eqb_spec k k0) as [->|Hne]; simpl.
  + left. auto.
  + destruct IH as [[Hin E]|[Hnot E]]; rewrite E.
    * left. auto.
    * right. split; [|reflexivity]. intros [H|H]; [congruence | tauto].
Qed.

Lemma dict_get_None {V} (d : list (string * V)) k :
dict_get d k = None <-> ~ In k (map fst d).
Proof.
induction d as [|[k0 v0] d IH]; simpl; [tauto|].
destruct (String.eqb_spec k k0) as [->|Hne].
- split; [discriminate | intros H; exfalso; apply H; now left].
- rewrite IH. split; [intros H [E|Hin]; [congruence | tauto] | tauto].
Qed.

Let files (directory name_ : string) : list string :=
iter_force_field_files glob (PosixPath.join directory name_).

(** One turn of the loop: the keys that were there stay in their order,
  and the name of the entry is added at the end when it is new, holds a
  force field file and is read without an error. *)
Lemma register_keys directory force_fields name_ :
let r := register glob open_raises read_rtp read_ff directory force_fields
                  name_ in
(map fst (snd r) = map fst force_fields
 \/ (~ In name_ (map fst force_fields) /\ files directory name_ <> []
     /\ fst r = None
     /\ map fst (snd r) = map fst force_fields ++ [name_]))
/\ (fst r = None -> files directory name_ <> [] ->
    In name_ (map fst (snd r)))
/\ (forall e, fst r = Some e ->
              files directory name_ <> []
              /\ (e = IOError (reading_failed
                                 (PosixPath.join directory name_))
                  \/ forall msg, e <> IOError msg)).
Proof.
unfold register. fold (files directory name_).
destruct (files directory name_) as [|f fs] eqn:F.
{ simpl. split; [now left|]. split; [congruence | discriminate]. }
assert (f :: fs <> []) as Hne by discriminate.
unfold read_into.
destruct (dict_get force_fields name_) as [self|] eqn:G.
- set (r := read_from glob open_raises read_rtp read_ff self
                      (PosixPath.join directory name_)).
  assert (map fst (dict_set force_fields name_ (snd r)) = map fst force_fields)
    as Hk.
  { destruct (dict_set_keys force_fields name_ (snd r)) as [[_ E]|[Hnot _]];
      [exact E|].
    apply dict_get_None in Hnot. congruence. }
  assert (In name_ (map fst force_fields)) as Hin.
  { destruct (dict_set_keys force_fields name_ (snd r)) as [[H _]|[Hnot _]];
      [exact H|].
    apply dict_get_None in Hnot. congruence. }
  destruct (fst r) as [[msg|key|what]|] eqn:O; simpl; rewrite Hk;
    (split; [now left|]); (split; [auto|]); intros e E; inversion E; subst;
    (split; [exact Hne|]); try (now left); right; discriminate.
- apply dict_get_None in G.
  destruct (new_force_field glob open_raises read_rtp read_ff
                            (PosixPath.join directory name_))
    as [[msg|key|what]|self]; simpl.
  + split; [now left|]. split; [discriminate|].
    intros e E. inversion E. split; [exact Hne | now left].
  + split; [now left|]. split; [discriminate|].
    intros e E. inversion E. split; [exact Hne | right; discriminate].
  + split; [now left|]. split; [discriminate|].
    intros e E. inversion E. split; [exact Hne | right; discriminate].
  + destruct (dict_set_keys force_fields name_ self) as [[H _]|[_ E]];
      [tauto|].
    rewrite E. split; [right; auto|].
    split; [|discriminate]. intros _ _. apply in_or_app. right. now left.
Qed.

Lemma register_all_keys directory names : forall force_fields,
let r := register_all glob open_raises read_rtp read_ff directory names
                      force_fields in
(exists added, map fst (snd r) = map fst force_fields ++ added
               /\ forall n, In n added ->
                            In n names /\ files directory n <> [])
/\ (fst r = None ->
    forall n, In n names -> files directory n <> [] ->
              In n (map fst (snd r)))
/\ (forall e, fst r = Some e ->
      exists n, In n names /\ files directory n <> []
                /\ (e = IOError (reading_failed (PosixPath.join directory n))
                    \/ forall msg, e <> IOError msg)).
Proof.
induction names as [|name_ names IH]; intros force_fields; simpl.
- split; [exists []; rewrite app_nil_r; split; [reflexivity | intros ? []]|].
  split; [intros _ ? [] | discriminate].
- destruct (register_keys directory force_fields name_) as (Hk & Hin & He).
  destruct (register glob open_raises read_rtp read_ff directory force_fields
                     name_) as [[e|] d1] eqn:R; simpl in *.
  + split.
    * destruct Hk as [E|(_ & _ & Habs & _)]; [|discriminate].
      exists []. rewrite app_nil_r. split; [exact E | intros ? []].
    * split; [discriminate|]. intros e' E. inversion E; subst.
      destruct (He e' eq_refl) as [Hf Hc]. exists name_. auto.
  + destruct (IH d1) as ((added & Ea & Hadded) & Hall & Herr).
    split; [|split].
    * destruct Hk as [E|(_ & Hf & _ & E)].
      -- exists added. rewrite Ea, E. split; [reflexivity|].
         intros n Hn. destruct (Hadded n Hn). auto.
      -- exists (name_ :: added). rewrite Ea, E, <- app_assoc.
         split; [reflexivity|].
         intros n [<-|Hn]; [auto|]. destruct (Hadded n Hn). auto.
    * intros Hnone n [<-|Hn] Hf; [|now apply Hall].
      rewrite Ea. apply in_or_app. left. now apply Hin.
    * intros e E. destruct (Herr e E) as (n & Hn & H). exists n. auto.
Qed.

End Registering.

(** X23. When [find_force_fields] returns, the dictionary keeps the keys
  it was given, in their order, and the new keys follow them. Its keys
  are the keys that were given and the entries of the directory that
  hold at least one force field file, and no other. *)
Theorem find_force_fields_registers
      (listdir : string -> forcefield.error + list string)
      (glob : string -> list string)
      (open_raises : string -> option forcefield.error)
      (read_rtp read_ff : string -> forcefield.ForceField ->
                          option forcefield.error * forcefield.ForceField)
      (directory : string)
      (force_fields : option (list (string * forcefield.ForceField)))
      (names : list string) (found : list (string * forcefield.ForceField))
      (Hlist : listdir directory = inr names)
      (Hret : forcefield.find_force_fields listdir glob open_raises read_rtp
                                           read_ff directory force_fields
              = (None, found)) :
let given := match force_fields with Some d => d | None => [] end in
(exists added, map fst found = map fst given ++ added)
/\ forall n,
     In n (map fst found)
     <-> In n (map fst given)
         \/ (In n names
             /\ forcefield.iter_force_field_files
                  glob (PosixPath.join directory n) <> []).
Proof.
intros given. unfold forcefield.find_force_fields in Hret.
rewrite Hlist in Hret. fold given in Hret.
destruct (register_all_keys glob open_raises read_rtp read_ff directory names
                            given) as ((added & Ea & Hadded) & Hall & _).
rewrite Hret in *. simpl in *.
split; [eauto|].
intros n. rewrite Ea, in_app_iff. split.
- intros [H|H]; [now left | right; now apply Hadded].
- intros [H|[Hn Hf]]; [now left|].
  rewrite <- in_app_iff, <- Ea. now apply Hall.
Qed.

(** In the directory [ff], [universal] is found and [notes] is not. *)
Lemma find_force_fields_registers_witness :
In "universal" (map fst Disk.found) /\ ~ In "notes" (map fst Disk.found).
Proof.
destruct (find_force_fields_registers
            Disk.listdir Disk.glob Disk.open_raises Disk.good_rtp Disk.read_ff
            "ff" None ["martini22"; "notes"; "universal"] Disk.found
            eq_refl eq_refl) as [_ H].
split.
- apply H. right. split; [simpl; auto | discriminate].
- intros Hin. apply H in Hin. destruct Hin as [[]|[_ Hf]]. now apply Hf.
Defined.

Section Failing.

Import PyDict forcefield Reading.

Variable glob : string -> list string.
Variable open_raises : string -> option error.
Variables read_rtp read_ff : string -> ForceField -> option error * ForceField.

Lemma read_source_error source self e0 :
fst (read_source open_raises read_rtp read_ff source self) = Some e0 ->
raised_by open_raises read_rtp read_ff source self e0.
Proof.
unfold read_source, raised_by.
destruct (open_raises source) as [e|]; simpl; [intros E; now left|].
intros E. right. split; [reflexivity|].
destruct (String.eqb_spec (PosixPath.splitext_ext source) ".rtp") as [X|X];
  [left; auto|].
destruct (String.eqb_spec (PosixPath.splitext_ext source) ".ff") as [Y|Y];
  [right; left; auto|].
right. right. simpl in E. inversion E. auto.
Qed.

Lemma read_sources_error sources : forall self e0,
fst (read_sources open_raises read_rtp read_ff sources self) = Some e0 ->
exists done source rest self',
  sources = done ++ source :: rest
  /\ read_sources open_raises read_rtp read_ff done self = (None, self')
  /\ raised_by open_raises read_rtp read_ff source self' e0.
Proof.
induction sources as [|s sources IH]; intros self e0; simpl; [discriminate|].
destruct (read_source open_raises read_rtp read_ff s self) as [[e|] self1]
  eqn:R.
- simpl. intros E. inversion E; subst.
  exists [], s, sources, self. split; [reflexivity|]. split; [reflexivity|].
  apply read_source_error. now rewrite R.
- intros E. destruct (IH _ _ E) as (done & source & rest & self' & -> & Hd & Hr).
  exists (s :: done), source, rest, self'. split; [reflexivity|].
  split; [|exact Hr]. simpl. now rewrite R.
Qed.

Lemma register_all_error directory names : forall d0 e left_,
register_all glob open_raises read_rtp read_ff directory names d0
= (Some e, left_) ->
exists before n after d,
  names = before ++ n :: after
  /\ register_all glob open_raises read_rtp read_ff directory before d0
     = (None, d)
  /\ register glob open_raises read_rtp read_ff directory d n
     = (Some e, left_).
Proof.
induction names as [|name_ names IH]; intros d0 e left_; simpl;
  [discriminate|].
destruct (register glob open_raises read_rtp read_ff directory d0 name_)
  as [[e1|] d1] eqn:R.
- intros E. inversion E; subst.
  exists [], name_, names, d0. auto.
- intros E. destruct (IH _ _ _ E) as (before & n & after & d & -> & Hb & Hr).
  exists (name_ :: before), n, after, d. split; [reflexivity|].
  split; [|exact Hr]. simpl. now rewrite R.
Qed.

Lemma register_error directory d n e left_ :
register glob open_raises read_rtp read_ff directory d n = (Some e, left_) ->
let path := PosixPath.join directory n in
iter_force_field_files glob path <> []
/\ exists e0,
     read_into glob open_raises read_rtp read_ff d n path = (Some e0, left_)
     /\ e = match e0 with
            | IOError _ => IOError (reading_failed path)
            | _ => e0
            end.
Proof.
unfold register.
destruct (iter_force_field_files glob (PosixPath.join directory n))
  as [|f fs] eqn:F; [discriminate|].
intros E. simpl. split; [discriminate|].
destruct (read_into glob open_raises read_rtp read_ff d n
                    (PosixPath.join directory n)) as [[e0|] d1];
  [|discriminate].
exists e0. destruct e0; inversion E; subst; auto.
Qed.

Lemma read_into_error d n path e0 left_ :
read_into glob open_raises read_rtp read_ff d n path = (Some e0, left_) ->
fst (read_from glob open_raises read_rtp read_ff (target d n path) path)
= Some e0
/\ left_ = match dict_get d n with
           | Some self =>
               dict_set d n
                        (snd (read_from glob open_raises read_rtp read_ff
                                        self path))
           | None => d
           end.
Proof.
unfold read_into, target, new_force_field.
destruct (dict_get d n) as [self|].
- intros E. inversion E. auto.
- destruct (read_from glob open_raises read_rtp read_ff _ path)
    as [[e1|] self1]; intros E; inversion E; subst. auto.
Qed.

End Failing.

(** X24. When [find_force_fields] raises, the keys that were given are
  kept in their order, and either [os.listdir] raised, the error is its
  error and the dictionary is as it was given, or the entries before
  one entry of the directory were gone through without an error and
  that entry holds a force field file that could not be read: the files
  before it were read into the force field of the entry, and for that
  file [open] raised, or its parser raised, or its extension has no
  parser and the look-up raised [KeyError]. An [IOError] raised there
  comes out as an [IOError] whose message names the path of the entry,
  and any other exception comes out as it was raised. A force field
  that was known stays in the dictionary as the reading left it; one
  that was to be created is not added. *)
Theorem find_force_fields_failure
      (listdir : string -> forcefield.error + list string)
      (glob : string -> list string)
      (open_raises : string -> option forcefield.error)
      (read_rtp read_ff : string -> forcefield.ForceField ->
                          option forcefield.error * forcefield.ForceField)
      (directory : string)
      (force_fields : option (list (string * forcefield.ForceField)))
      (e : forcefield.error) (left_ : list (string * forcefield.ForceField))
      (Hraise : forcefield.find_force_fields listdir glob open_raises read_rtp
                                             read_ff directory force_fields
                = (Some e, left_)) :
let given := match force_fields with Some d => d | None => [] end in
(exists added, map fst left_ = map fst given ++ added)
/\ ((listdir directory = inl e /\ left_ = given)
    \/ exists before n after d e0 done source rest self,
         let path := PosixPath.join directory n in
         listdir directory = inr (before ++ n :: after)
         /\ forcefield.register_all glob open_raises read_rtp read_ff
                                    directory before given
            = (None, d)
         /\ forcefield.iter_force_field_files glob path
            = done ++ source :: rest
         /\ forcefield.read_sources open_raises read_rtp read_ff done
                                    (Reading.target d n path)
            = (None, self)
         /\ Reading.raised_by open_raises read_rtp read_ff source self e0
         /\ e = match e0 with
                | forcefield.IOError _ =>
                    forcefield.IOError (forcefield.reading_failed path)
                | _ => e0
                end
         /\ left_ = match PyDict.dict_get d n with
                    | Some known =>
                        PyDict.dict_set
                          d n
                          (snd (forcefield.read_from
                                  glob open_raises read_rtp read_ff known
                                  path))
                    | None => d
                    end).
Proof.
intros given. unfold forcefield.find_force_fields in Hraise.
fold given in Hraise.
destruct (listdir directory) as [e1|names] eqn:L.
- inversion Hraise; subst. split; [exists []; now rewrite app_nil_r|].
  left. auto.
- destruct (register_all_keys glob open_raises read_rtp read_ff directory names
                              given) as ((added & Ea & _) & _ & _).
  rewrite Hraise in Ea. simpl in Ea. split; [eauto|].
  right.
  destruct (register_all_error _ _ _ _ _ _ _ _ _ Hraise)
    as (before & n & after & d & -> & Hb & Hr).
  destruct (register_error _ _ _ _ _ _ _ _ _ Hr) as (Hf & e0 & Hi & He).
  destruct (read_into_error _ _ _ _ _ _ _ _ _ Hi) as (Hs & Hl).
  unfold forcefield.read_from in Hs.
  destruct (read_sources_error _ _ _ _ _ _ Hs)
    as (done & source & rest & self & Hfiles & Hd & Hby).
  exists before, n, after, d, e0, done, source, rest, self.
  simpl. auto 10.
Qed.

(** With a parser of [.rtp] files that raises [IOError], the error that
  comes out names an entry of the directory [ff]; with a parser of [.ff]
  files that raises [KeyError], that error comes out as it is. *)
Lemma find_force_fields_failure_witness :
(exists n,
    In n ["martini22"; "notes"; "universal"]
    /\ forcefield.find_force_fields Disk.listdir Disk.glob Disk.open_raises
                                    Disk.read_rtp Disk.read_ff "ff" None
       = (Some (forcefield.IOError
                  (forcefield.reading_failed (PosixPath.join "ff" n))),
          Disk.left_))
/\ (forcefield.find_force_fields Disk.listdir Disk.glob Disk.open_raises
                                 Disk.read_rtp Disk.bad_ff "ff" None
    = (Some (forcefield.KeyError "resname"), [])
    /\ exists source self,
         Reading.raised_by Disk.open_raises Disk.read_rtp Disk.bad_ff
                           source self (forcefield.KeyError "resname")).
Proof.
assert (forcefield.find_force_fields Disk.listdir Disk.glob Disk.open_raises
                                     Disk.read_rtp Disk.read_ff "ff" None
        = (Some (forcefield.IOError
                   (forcefield.reading_failed "ff/universal")),
           Disk.left_)) as H1 by reflexivity.
assert (forcefield.find_force_fields Disk.listdir Disk.glob Disk.open_raises
                                     Disk.read_rtp Disk.bad_ff "ff" None
        = (Some (forcefield.KeyError "resname"), [])) as H2 by reflexivity.
split.
- destruct (find_force_fields_failure _ _ _ _ _ _ _ _ _ H1)
    as [_ [[L _]|(before & n & after & d & e0 & done & source & rest & self
                  & L & _ & _ & _ & _ & E & _)]].
  + discriminate L.
  + exists n. split.
    * injection L as L. rewrite L. apply in_or_app. right. now left.
    * rewrite H1. destruct e0; try discriminate E. simpl in E. now rewrite E.
- split; [exact H2|].
  destruct (find_force_fields_failure _ _ _ _ _ _ _ _ _ H2)
    as [_ [[L _]|(before & n & after & d & e0 & done & source & rest & self
                  & _ & _ & _ & _ & Hby & E & _)]].
  + discriminate L.
  + exists source, self. destruct e0; try discriminate E.
    simpl in E. now rewrite E.
Defined.

Section ForceFieldNames.

Import PyDict forcefield.

Variable glob : string -> list string.
Variable open_raises : string -> option error.
Variables read_rtp read_ff : string -> ForceField -> option error * ForceField.

Hypothesis Hrtp : forall s ff, name (snd (read_rtp s ff)) = name ff.
Hypothesis Hff : forall s ff, name (snd (read_ff s ff)) = name ff.

Lemma read_sources_name sources : forall self,
name (snd (read_sources open_raises read_rtp read_ff sources self))
= name self.
Proof.
induction sources as [|s sources IH]; intros self; [reflexivity|].
simpl.
assert (name (snd (read_source open_raises read_rtp read_ff s self))
        = name self) as H.
{ unfold read_source. destruct (open_raises s); [reflexivity|].
  destruct (String.eqb _ ".rtp"); [apply Hrtp|].
  destruct (String.eqb _ ".ff"); [apply Hff | reflexivity]. }
destruct (read_source open_raises read_rtp read_ff s self) as [[e|] self1];
  simpl in *; [exact H|].
now rewrite IH.
Qed.

Lemma basename_from_plain (s : string) : forall kept,
PosixPath.has_sep s = false -> PosixPath.basename_from kept s = kept.
Proof.
induction s as [|c s IH]; intros kept H; [reflexivity|].
simpl in *. destruct (Ascii.eqb c "/"); [discriminate|]. now apply IH.
Qed.

Lemma basename_from_app (a : string) : forall kept b,
PosixPath.has_sep b = false ->
PosixPath.basename_from kept (a ++ String "/" b) = b.
Proof.
induction a as [|c a IH]; intros kept b H; simpl.
- now apply basename_from_plain.
- destruct (Ascii.eqb c "/"); now apply IH.
Qed.

Lemma endswith_sep_app (a : string) :
PosixPath.endswith_sep a = true -> exists a', a = (a' ++ "/")%string.
Proof.
unfold PosixPath.endswith_sep.
induction a as [|c a IH]; simpl; [discriminate|].
destruct a as [|c' a].
- intros H. exists EmptyString. simpl.
  destruct c as [[] [] [] [] [] [] [] []]; try discriminate. reflexivity.
- intros H. destruct (IH H) as [a' E]. exists (String c a'). simpl.
  now rewrite <- E.
Qed.

Lemma append_app (a b c : string) :
((a ++ b) ++ c = a ++ (b ++ c))%string.
Proof.
induction a as [|x a IH]; simpl; [reflexivity | now rewrite IH].
Qed.

Lemma basename_join (a b : string) :
PosixPath.has_sep b = false -> PosixPath.basename (PosixPath.join a b) = b.
Proof.
intros H. unfold PosixPath.join, PosixPath.basename.
assert (PosixPath.startswith_sep b = false) as ->.
{ destruct b as [|c b]; [reflexivity|]. simpl in *.
  destruct c as [[] [] [] [] [] [] [] []]; try reflexivity. discriminate. }
destruct a as [|c a]; [now apply basename_from_plain|].
destruct (PosixPath.endswith_sep (String c a)) eqn:E.
- destruct (endswith_sep_app _ E) as [a' ->].
  rewrite append_app. simpl. now apply basename_from_app.
- now apply basename_from_app.
Qed.

Variable given : list (string * ForceField).

(** The force fields that were given are still there under their names,
  and a force field that was not given bears the name of its key. *)
Let named (d : list (string * ForceField)) : Prop :=
(forall n ff0, dict_get given n = Some ff0 ->
               exists ff, dict_get d n = Some ff /\ name ff = name ff0)
/\ (forall n ff, dict_get d n = Some ff -> dict_get given n = None ->
                 name ff = n).

Lemma register_named directory d name_ :
PosixPath.has_sep name_ = false ->
named d ->
named (snd (register glob open_raises read_rtp read_ff directory d name_)).
Proof.
intros Hsep [Hold Hnew]. unfold register.
destruct (iter_force_field_files glob (PosixPath.join directory name_))
  as [|f fs] eqn:F; [split; assumption|].
assert (named (snd (read_into glob open_raises read_rtp read_ff d name_
                              (PosixPath.join directory name_)))) as H.
{ unfold read_into.
  destruct (dict_get d name_) as [self|] eqn:G.
  - simpl. unfold read_from.
    pose proof (read_sources_name
                  (iter_force_field_files glob
                                          (PosixPath.join directory name_))
                  self) as Hn.
    split.
    + intros n ff0 E. rewrite dict_get_set.
      destruct (String.eqb_spec n name_) as [->|]; [|now apply Hold].
      destruct (Hold _ _ E) as (ff & G' & N). rewrite G in G'.
      inversion G'; subst. eexists. split; [reflexivity|]. congruence.
    + intros n ff. rewrite dict_get_set.
      destruct (String.eqb_spec n name_) as [->|]; [|now apply Hnew].
      intros E Hg. injection E as <-. rewrite Hn. now apply Hnew.
  - unfold new_force_field, read_from.
    pose proof (read_sources_name
                  (iter_force_field_files glob
                                          (PosixPath.join directory name_))
                  (mkForceField [] []
                     (PosixPath.basename (PosixPath.join directory name_))))
      as Hn.
    destruct (read_sources open_raises read_rtp read_ff _ _)
      as [[e|] self]; simpl in *; [split; assumption|].
    rewrite basename_join in Hn by assumption.
    split.
    + intros n ff0 E. rewrite dict_get_set.
      destruct (String.eqb_spec n name_) as [->|]; [|now apply Hold].
      destruct (Hold _ _ E) as (ff & G' & _). congruence.
    + intros n ff. rewrite dict_get_set.
      destruct (String.eqb_spec n name_) as [->|]; [|now apply Hnew].
      intros E _. injection E as <-. exact Hn. }
destruct (read_into glob open_raises read_rtp read_ff d name_
                    (PosixPath.join directory name_))
  as [[[msg|key|what]|] d1]; exact H.
Qed.

Lemma register_all_named directory names : forall d,
(forall n, In n names -> PosixPath.has_sep n = false) ->
named d ->
named (snd (register_all glob open_raises read_rtp read_ff directory names d)).
Proof.
induction names as [|name_ names IH]; intros d Hsep Hd; [exact Hd|].
simpl.
pose proof (register_named directory d name_ (Hsep _ (or_introl eq_refl)) Hd)
  as H1.
destruct (register glob open_raises read_rtp read_ff directory d name_)
  as [[e|] d1]; [exact H1|].
apply IH; [intros; apply Hsep; now right | exact H1].
Qed.

Lemma given_named : named given.
Proof.
split.
- intros n ff0 E. eauto.
- intros n ff E1 E2. congruence.
Qed.

End ForceFieldNames.

(** X25. With parsers that leave the name of the force field alone and a
  directory whose entries are plain names, [find_force_fields] leaves,
  however it ends, every force field that was given under its key with
  its name, and every force field it creates bears the name of its key:
  the base name of the path it was read from is the entry of the
  directory. *)
Theorem find_force_fields_names_the_force_fields
      (listdir : string -> forcefield.error + list string)
      (glob : string -> list string)
      (open_raises : string -> option forcefield.error)
      (read_rtp read_ff : string -> forcefield.ForceField ->
                          option forcefield.error * forcefield.ForceField)
      (directory : string)
      (force_fields : option (list (string * forcefield.ForceField)))
      (Hrtp : forall s ff,
          forcefield.name (snd (read_rtp s ff)) = forcefield.name ff)
      (Hff : forall s ff,
          forcefield.name (snd (read_ff s ff)) = forcefield.name ff)
      (Hentries : forall names n,
          listdir directory = inr names -> In n names ->
          PosixPath.has_sep n = false) :
let given := match force_fields with Some d => d | None => [] end in
let left_ := snd (forcefield.find_force_fields
                    listdir glob open_raises read_rtp read_ff directory
                    force_fields) in
(forall n ff0, PyDict.dict_get given n = Some ff0 ->
               exists ff, PyDict.dict_get left_ n = Some ff
                          /\ forcefield.name ff = forcefield.name ff0)
/\ (forall n ff, PyDict.dict_get left_ n = Some ff ->
                 PyDict.dict_get given n = None ->
                 forcefield.name ff = n).
Proof.
intros given left_. unfold left_, forcefield.find_force_fields.
fold given.
destruct (listdir directory) as [e|names] eqn:L.
- apply given_named.
- apply register_all_named; try assumption.
  + intros n Hn. eapply Hentries; [reflexivity | exact Hn].
  + apply given_named.
Qed.

(** In the directory [ff], read from nothing, the force field under the
  key [universal] bears that name. *)
Lemma find_force_fields_names_the_force_fields_witness :
exists ff, PyDict.dict_get Disk.found "universal" = Some ff
           /\ forcefield.name ff = "universal".
Proof.
destruct (find_force_fields_names_the_force_fields
            Disk.listdir Disk.glob Disk.open_raises Disk.good_rtp Disk.read_ff
            "ff" None) as [_ H].
- reflexivity.
- reflexivity.
- intros names n E Hn. unfold Disk.listdir in E. simpl in E.
  injection E as <-.
  destruct Hn as [<-|[<-|[<-|[]]]]; reflexivity.
- eexists. split; [reflexivity|].
  apply (H "universal"); reflexivity.
Defined.
